(** * QOI15: a shallow embedding of [Libraries/qoi15.hpp]

    The codec compresses 16-bit monochrome samples whose useful signal is in
    the top 15 bits.  This file embeds the leaf components ([BitShifter],
    [RunLength], [Differential], [Table], [Raw15bit], [Chunker]), the output
    buffer ([SpeedFirstRepository]) and the two drivers ([QOI15Encoder],
    [QOI15Decoder]) and proves the properties of the codec about them.

    Conventions.
    - [uint16_t] and [uint8_t] values are integers of [Z]; every conversion
      the C++ performs to one of these types is written out as a reduction
      modulo 2^16 or 2^8 ([to_uint16], [to_uint8]).
    - [int] is [Z]: the counters and run lengths of the codec are bounded by
      the number of samples, itself an [int].  Shifts are the mathematical
      ones; C++ leaves a shift by the width of the type or more undefined.
      [RunLength::Set] accumulates in an [int]: [RunLength_Set] is its
      result for the lists whose value is below [2^31], which have no digit
      other than zero after the eleventh.  These are the lists of a stream
      that decodes to fewer than [2^31] samples.  What is stated of
      [RunLength_Set] by itself, and of the decoder on streams that decode
      to more samples than the output holds, is stated within this bound.
    - A pointer with its element count ([buffer], [size]) is a list.
    - A [std::vector] is a list indexed with [!!] and updated with [<[_:=_]>];
      an access outside the vector has no defined behaviour in C++ and is the
      outcome [Undefined] here.  A loop that does not terminate is the
      outcome [Diverges].
    - The default build is modelled: [TABLE_FIRST] is not defined, and the
      counters of [ENABLE_STATICS] are left out since they influence
      nothing. *)

From stdpp Require Import base numbers list.

Local Open Scope Z_scope.

(** ** Integer conversions *)

Definition to_uint16 (v : Z) : Z := v mod 65536.
Definition to_uint8 (v : Z) : Z := v mod 256.

(** ** Outcomes of a computation *)

Inductive outcome (A : Type) : Type :=
| Done (a : A)
| Undefined
| Diverges.

Arguments Done {A} a.
Arguments Undefined {A}.
Arguments Diverges {A}.

Definition outcome_bind {A B : Type} (f : A → outcome B) (m : outcome A) : outcome B :=
  match m with
  | Done a => f a
  | Undefined => Undefined
  | Diverges => Diverges
  end.

#[global] Instance outcome_mbind : MBind outcome := @outcome_bind.
#[global] Instance outcome_mret : MRet outcome := @Done.

(** [for (auto &x : xs) body] where the body may fail. *)
Fixpoint for_each {A S : Type} (body : S → A → outcome S) (xs : list A) (s : S) : outcome S :=
  match xs with
  | [] => Done s
  | x :: xs' => s' ← body s x; for_each body xs' s'
  end.

(** ** Template arguments shared by the three sub-codeword classes
    ([template <int headerBit, int valueBit, uint8_t header, uint8_t mask>]) *)

Record TemplateArgs : Type := {
  headerBit : Z;
  valueBit : Z;
  header : Z;
  mask : Z
}.

(** [(value & (~mask)) == header]: [mask] is promoted to [int] before [~]. *)
Definition CheckHeader (p : TemplateArgs) (value : Z) : bool :=
  bool_decide (Z.land value (Z.lnot (mask p)) = header p).

(** ** BitShifter *)

Definition BitShifter_Get (shift value : Z) : Z := to_uint16 (Z.shiftr value shift).
Definition BitShifter_Set (shift value : Z) : Z := to_uint16 (Z.shiftl value shift).

(** ** RunLength *)

Definition RunLength_CheckHeader := CheckHeader.

(** The [while (length != 0)] loop of [RunLength::Get]; [fuel] bounds the
    number of iterations. *)
Fixpoint RunLength_Get_loop (p : TemplateArgs) (fuel : nat) (length : Z) (values : list Z)
  : outcome (list Z) :=
  if bool_decide (length ≠ 0) then
    match fuel with
    | O => Diverges
    | S fuel' =>
        let value := Z.lor (to_uint8 (Z.land length (mask p))) (header p) in
        RunLength_Get_loop p fuel' (Z.shiftr length (valueBit p)) (values ++ [to_uint8 value])
    end
  else Done values.

(** A positive [length] needs at most [log2 length + 1] iterations when
    [valueBit >= 1]; with a negative [length] (arithmetic shift) or
    [valueBit <= 0] the loop never ends. *)
Definition RunLength_Get (p : TemplateArgs) (length : Z) : outcome (list Z) :=
  RunLength_Get_loop p (S (Z.to_nat (Z.log2 length))) length [].

(** [length |= (value & mask) << shift] for every element, without the
    bound of the [int length] of the source. *)
Definition RunLength_Set (p : TemplateArgs) (values : list Z) : Z :=
  fst (fold_left
         (λ '(length, shift) value,
            (Z.lor length (Z.shiftl (Z.land value (mask p)) shift), shift + valueBit p))
         values (0, 0)).

(** ** Differential *)

Definition Differential_MaxValue (p : TemplateArgs) : Z := Z.shiftl 1 (valueBit p - 1).

Definition Differential_CheckHeader := CheckHeader.

Definition Differential_Sub (previous current : Z) : Z := current - previous.

Definition Differential_IsValid (p : TemplateArgs) (diff : Z) : bool :=
  bool_decide (Z.abs diff ≤ Differential_MaxValue p) && bool_decide (diff ≠ 0).

Definition Differential_Get (p : TemplateArgs) (diff : Z) : Z :=
  let value :=
    to_uint8 (if bool_decide (diff < 0) then diff + Differential_MaxValue p
              else diff + (Differential_MaxValue p - 1)) in
  to_uint8 (Z.lor value (header p)).

Definition Differential_Set (p : TemplateArgs) (value : Z) : Z :=
  let diff := Z.land value (mask p) in
  if bool_decide (diff < Differential_MaxValue p) then diff - Differential_MaxValue p
  else diff - (Differential_MaxValue p - 1).

Definition Differential_Add (previous diff : Z) : Z := to_uint16 (previous + diff).

(** ** Table *)

Record Table : Type := {
  ref_ : list Z;
  hashBit_ : Z
}.

Definition Table_TableSize (p : TemplateArgs) : Z := Z.shiftl 1 (valueBit p).

Definition Table_new (p : TemplateArgs) (hashBit : Z) : Table :=
  {| ref_ := replicate (Z.to_nat (Table_TableSize p)) 0xFFFF; hashBit_ := hashBit |}.

Definition Table_CheckHeader := CheckHeader.

Definition Table_Hash (p : TemplateArgs) (t : Table) (value : Z) : Z :=
  to_uint8 (Z.land (Z.shiftr value (hashBit_ t)) (mask p)).

Definition Table_Set (p : TemplateArgs) (value : Z) : Z :=
  to_uint8 (Z.land value (mask p)).

Definition Table_Refer (t : Table) (hash : Z) : outcome Z :=
  match ref_ t !! Z.to_nat hash with
  | Some v => Done v
  | None => Undefined
  end.

Definition Table_Insert (hash value : Z) (t : Table) : outcome Table :=
  if bool_decide (Z.to_nat hash < length (ref_ t))%nat then
    Done {| ref_ := <[Z.to_nat hash := value]> (ref_ t); hashBit_ := hashBit_ t |}
  else Undefined.

Definition Table_Get (p : TemplateArgs) (hash : Z) : Z :=
  to_uint8 (Z.lor (header p) hash).

(** ** Raw15bit *)

Definition Raw15bit_Get (value : Z) : Z := to_uint16 (Z.lor 0x8000 value).
Definition Raw15bit_Set (value : Z) : Z := to_uint16 (Z.land 0x7FFF value).
Definition Raw15bit_IsValid (value : Z) : bool :=
  bool_decide (Z.land value 0x8000 ≠ 0).

(** ** Chunker *)

Definition Chunker_Get (value : Z) : Z * Z * Z :=
  (to_uint8 (Z.land value 0x1F),
   to_uint8 (Z.land (Z.shiftr value 5) 0x1F),
   to_uint8 (Z.land (Z.shiftr value 10) 0x1F)).

Definition Chunker_Set (first second third : Z) : Z :=
  to_uint16 (Z.lor (Z.lor first (Z.shiftl second 5)) (Z.shiftl third 10)).

(** ** SpeedFirstRepository *)

Record SpeedFirstRepository : Type := {
  buffer_ : list Z;
  counter_ : Z;
  temp_ : list Z;
  tempCounter_ : Z
}.

Definition SpeedFirstRepository_new (maxSize : Z) : SpeedFirstRepository :=
  {| buffer_ := replicate (Z.to_nat maxSize) 0; counter_ := 0;
     temp_ := []; tempCounter_ := 0 |}.

(** [buffer_[counter_++] = value]. *)
Definition buffer_write (value : Z) (r : SpeedFirstRepository) : outcome SpeedFirstRepository :=
  if bool_decide (0 ≤ counter_ r < Z.of_nat (length (buffer_ r))) then
    Done {| buffer_ := <[Z.to_nat (counter_ r) := value]> (buffer_ r);
            counter_ := counter_ r + 1;
            temp_ := temp_ r; tempCounter_ := tempCounter_ r |}
  else Undefined.

Definition with_tempCounter (n : Z) (r : SpeedFirstRepository) : SpeedFirstRepository :=
  {| buffer_ := buffer_ r; counter_ := counter_ r; temp_ := temp_ r; tempCounter_ := n |}.

(** The [while (tempCounter_ >= 3)] loop of [Flush]; [ite] is what the
    iterator has not passed yet.  Dereferencing the iterator at the end of
    the list is [Undefined]. *)
Fixpoint Flush_loop (fuel : nat) (ite : list Z) (r : SpeedFirstRepository)
  : outcome (list Z * SpeedFirstRepository) :=
  if bool_decide (3 ≤ tempCounter_ r) then
    match fuel with
    | O => Diverges
    | S fuel' =>
        match ite with
        | first :: second :: third :: ite' =>
            r' ← buffer_write (Chunker_Set first second third) r;
            Flush_loop fuel' ite' (with_tempCounter (tempCounter_ r' - 3) r')
        | _ => Undefined
        end
    end
  else Done (ite, r).

(** [fst[i] = *ite; ite++] for [i < tempCounter_], on [uint8_t fst[3] = {0}]. *)
Fixpoint Flush_fill (n : nat) (i : nat) (ite : list Z) (fst : list Z) : outcome (list Z) :=
  match n with
  | O => Done fst
  | S n' =>
      match ite with
      | v :: ite' =>
          if bool_decide (i < length fst)%nat then Flush_fill n' (S i) ite' (<[i := v]> fst)
          else Undefined
      | [] => Undefined
      end
  end.

Definition SpeedFirstRepository_Flush (r : SpeedFirstRepository)
  : outcome SpeedFirstRepository :=
  '(ite, r1) ← Flush_loop (Z.to_nat (tempCounter_ r)) (temp_ r) r;
  r2 ← (if bool_decide (tempCounter_ r1 > 0) then
          fst ← Flush_fill (Z.to_nat (tempCounter_ r1)) 0 ite [0; 0; 0];
          match fst with
          | [f0; f1; f2] => buffer_write (Chunker_Set f0 f1 f2) (with_tempCounter 0 r1)
          | _ => Undefined
          end
        else Done r1);
  Done {| buffer_ := buffer_ r2; counter_ := counter_ r2; temp_ := [];
          tempCounter_ := tempCounter_ r2 |}.

(** [Set(const uint16_t value)] *)
Definition SpeedFirstRepository_Set16 (value : Z) (r : SpeedFirstRepository)
  : outcome SpeedFirstRepository :=
  r1 ← (if bool_decide (tempCounter_ r > 0) then SpeedFirstRepository_Flush r else Done r);
  buffer_write value r1.

(** [Set(const uint8_t value)] *)
Definition SpeedFirstRepository_Set8 (value : Z) (r : SpeedFirstRepository)
  : SpeedFirstRepository :=
  {| buffer_ := buffer_ r; counter_ := counter_ r;
     temp_ := temp_ r ++ [value]; tempCounter_ := tempCounter_ r + 1 |}.

Definition SpeedFirstRepository_GetSize (r : SpeedFirstRepository) : Z := counter_ r.
Definition SpeedFirstRepository_GetIterator (r : SpeedFirstRepository) : list Z := buffer_ r.

(** What a caller copies out of [Get()]: the first [size] words behind the
    iterator. *)
Definition written (r : SpeedFirstRepository) : list Z :=
  take (Z.to_nat (SpeedFirstRepository_GetSize r)) (SpeedFirstRepository_GetIterator r).

(** ** QOI15Encoder *)

(** The member objects [runLength_], [differential_] and [table_] with their
    template arguments. *)
Definition runLength_ : TemplateArgs :=
  {| headerBit := 2; valueBit := 3; header := 0x00; mask := 0x07 |}.
Definition differential_ : TemplateArgs :=
  {| headerBit := 1; valueBit := 4; header := 0x10; mask := 0x0F |}.
Definition table_ : TemplateArgs :=
  {| headerBit := 2; valueBit := 3; header := 0x08; mask := 0x07 |}.

Record EncoderState : Type := {
  enc_previous : Z;
  enc_runLength : Z;
  enc_table : Table;
  enc_repository : SpeedFirstRepository
}.

Definition Encoder_init (size : Z) : EncoderState :=
  {| enc_previous := 0xFFFF; enc_runLength := 0;
     enc_table := Table_new table_ 1;
     enc_repository := SpeedFirstRepository_new size |}.

(** [if (runLength != 0) { ...flush... runLength = 0; }], the block that ends a
    run; it occurs in the loop and again after it. *)
Definition Encoder_flush_run (st : EncoderState) : outcome EncoderState :=
  if bool_decide (enc_runLength st ≠ 0) then
    runValues ← RunLength_Get runLength_ (enc_runLength st);
    Done {| enc_previous := enc_previous st; enc_runLength := 0;
            enc_table := enc_table st;
            enc_repository :=
              fold_left (λ r runValue, SpeedFirstRepository_Set8 runValue r)
                        runValues (enc_repository st) |}
  else Done st.

(** One iteration of the [for] loop over the samples. *)
Definition Encoder_body (shift : Z) (st : EncoderState) (sample : Z) : outcome EncoderState :=
  let current := BitShifter_Get shift sample in
  if bool_decide (enc_previous st = current) then
    Done {| enc_previous := enc_previous st; enc_runLength := enc_runLength st + 1;
            enc_table := enc_table st; enc_repository := enc_repository st |}
  else
    st ← Encoder_flush_run st;
    let diff := Differential_Sub (enc_previous st) current in
    if Differential_IsValid differential_ diff then
      let value := Differential_Get differential_ diff in
      Done {| enc_previous := current; enc_runLength := enc_runLength st;
              enc_table := enc_table st;
              enc_repository := SpeedFirstRepository_Set8 value (enc_repository st) |}
    else
      let hash := Table_Hash table_ (enc_table st) current in
      referred ← Table_Refer (enc_table st) hash;
      if bool_decide (referred = current) then
        let value := Table_Get table_ hash in
        Done {| enc_previous := current; enc_runLength := enc_runLength st;
                enc_table := enc_table st;
                enc_repository := SpeedFirstRepository_Set8 value (enc_repository st) |}
      else
        table' ← Table_Insert hash current (enc_table st);
        repository' ← SpeedFirstRepository_Set16 (Raw15bit_Get current) (enc_repository st);
        Done {| enc_previous := current; enc_runLength := enc_runLength st;
                enc_table := table'; enc_repository := repository' |}.

Definition Encoder_loop (shift : Z) (buffer : list Z) (st : EncoderState) : outcome EncoderState :=
  for_each (Encoder_body shift) buffer st.

(** The constructor [QOI15Encoder<internalShift>(buffer, size)]. *)
Definition QOI15Encoder (internalShift : Z) (buffer : list Z) : outcome EncoderState :=
  st ← Encoder_loop internalShift buffer (Encoder_init (Z.of_nat (length buffer)));
  st ← Encoder_flush_run st;
  repository' ← SpeedFirstRepository_Flush (enc_repository st);
  Done {| enc_previous := enc_previous st; enc_runLength := enc_runLength st;
          enc_table := enc_table st; enc_repository := repository' |}.

Definition QOI15Encoder_Get (st : EncoderState) : list Z * Z :=
  (SpeedFirstRepository_GetIterator (enc_repository st),
   SpeedFirstRepository_GetSize (enc_repository st)).

(** ** QOI15Decoder *)

Record DecoderState : Type := {
  dec_counter : Z;
  dec_previous : Z;
  dec_leftovers : list Z;
  dec_runLengthValues : list Z;
  dec_table : Table;
  dec_repository : SpeedFirstRepository
}.

Definition Decoder_init (outputSize : Z) : DecoderState :=
  {| dec_counter := 0; dec_previous := 0xFFFF; dec_leftovers := [];
     dec_runLengthValues := [];
     dec_table := Table_new table_ 1;
     dec_repository := SpeedFirstRepository_new outputSize |}.

(** [for (auto i = 0; i < length; ++i) repository_.Set(value);] *)
Fixpoint Set16_times (n : nat) (value : Z) (r : SpeedFirstRepository)
  : outcome SpeedFirstRepository :=
  match n with
  | O => Done r
  | S n' => r' ← SpeedFirstRepository_Set16 value r; Set16_times n' value r'
  end.

(** The block that expands a pending run; it occurs three times in the
    constructor (sub-codeword that is no run digit, literal word, end of
    input). *)
Definition Decoder_flush_run (st : DecoderState) : outcome DecoderState :=
  if bool_decide (0 < length (dec_runLengthValues st))%nat then
    let length := RunLength_Set runLength_ (dec_runLengthValues st) in
    repository' ← Set16_times (Z.to_nat length) (BitShifter_Set 1 (dec_previous st))
                              (dec_repository st);
    Done {| dec_counter := dec_counter st; dec_previous := dec_previous st;
            dec_leftovers := dec_leftovers st; dec_runLengthValues := [];
            dec_table := dec_table st; dec_repository := repository' |}
  else Done st.

(** The branch [if (leftovers.size() > 0)] after [value] was popped. *)
Definition Decoder_leftover (value : Z) (st : DecoderState) : outcome DecoderState :=
  st ← (if RunLength_CheckHeader runLength_ value then
          Done {| dec_counter := dec_counter st; dec_previous := dec_previous st;
                  dec_leftovers := dec_leftovers st;
                  dec_runLengthValues := dec_runLengthValues st ++ [value];
                  dec_table := dec_table st; dec_repository := dec_repository st |}
        else Decoder_flush_run st);
  st ← (if Differential_CheckHeader differential_ value then
          let diff := Differential_Set differential_ value in
          let current := Differential_Add (dec_previous st) diff in
          repository' ← SpeedFirstRepository_Set16 (BitShifter_Set 1 current) (dec_repository st);
          Done {| dec_counter := dec_counter st; dec_previous := current;
                  dec_leftovers := dec_leftovers st;
                  dec_runLengthValues := dec_runLengthValues st;
                  dec_table := dec_table st; dec_repository := repository' |}
        else Done st);
  if Table_CheckHeader table_ value then
    let hash := Table_Set table_ value in
    current ← Table_Refer (dec_table st) hash;
    repository' ← SpeedFirstRepository_Set16 (BitShifter_Set 1 current) (dec_repository st);
    Done {| dec_counter := dec_counter st; dec_previous := current;
            dec_leftovers := dec_leftovers st;
            dec_runLengthValues := dec_runLengthValues st;
            dec_table := dec_table st; dec_repository := repository' |}
  else Done st.

(** The branch [if (raw_.IsValid(value))]. *)
Definition Decoder_literal (value : Z) (st : DecoderState) : outcome DecoderState :=
  st ← Decoder_flush_run st;
  let current := Raw15bit_Set value in
  let hash := Table_Hash table_ (dec_table st) current in
  table' ← Table_Insert hash current (dec_table st);
  repository' ← SpeedFirstRepository_Set16 (BitShifter_Set 1 current) (dec_repository st);
  Done {| dec_counter := dec_counter st; dec_previous := current;
          dec_leftovers := dec_leftovers st;
          dec_runLengthValues := dec_runLengthValues st;
          dec_table := table'; dec_repository := repository' |}.

(** One iteration of the [while] loop. *)
Definition Decoder_body (buffer : list Z) (st : DecoderState) : outcome DecoderState :=
  match dec_leftovers st with
  | value :: leftovers' =>
      Decoder_leftover value
        {| dec_counter := dec_counter st; dec_previous := dec_previous st;
           dec_leftovers := leftovers';
           dec_runLengthValues := dec_runLengthValues st;
           dec_table := dec_table st; dec_repository := dec_repository st |}
  | [] =>
      match buffer !! Z.to_nat (dec_counter st) with
      | None => Undefined
      | Some value =>
          let st := {| dec_counter := dec_counter st + 1; dec_previous := dec_previous st;
                       dec_leftovers := dec_leftovers st;
                       dec_runLengthValues := dec_runLengthValues st;
                       dec_table := dec_table st; dec_repository := dec_repository st |} in
          if Raw15bit_IsValid value then Decoder_literal value st
          else
            let '(first, second, third) := Chunker_Get value in
            Done {| dec_counter := dec_counter st; dec_previous := dec_previous st;
                    dec_leftovers := dec_leftovers st ++ [first; second; third];
                    dec_runLengthValues := dec_runLengthValues st;
                    dec_table := dec_table st; dec_repository := dec_repository st |}
      end
  end.

(** [while (counter < size || leftovers.size() > 0)] *)
Fixpoint Decoder_loop (fuel : nat) (buffer : list Z) (st : DecoderState) : outcome DecoderState :=
  if bool_decide (dec_counter st < Z.of_nat (length buffer))
     || bool_decide (0 < length (dec_leftovers st))%nat then
    match fuel with
    | O => Diverges
    | S fuel' => st' ← Decoder_body buffer st; Decoder_loop fuel' buffer st'
    end
  else Done st.

(** The constructor [QOI15Decoder(buffer, size, outputSize)].  Every word is
    read in one iteration and gives at most three more iterations for its
    sub-codewords. *)
Definition QOI15Decoder (buffer : list Z) (outputSize : Z) : outcome DecoderState :=
  st ← Decoder_loop (4 * length buffer) buffer (Decoder_init outputSize);
  Decoder_flush_run st.

Definition QOI15Decoder_Get (st : DecoderState) : list Z * Z :=
  (SpeedFirstRepository_GetIterator (dec_repository st),
   SpeedFirstRepository_GetSize (dec_repository st)).

(** The words a caller copies out of an encoder, and the samples it copies
    out of a decoder, as the tests do. *)
Definition encoded (st : EncoderState) : list Z := written (enc_repository st).
Definition decoded (st : DecoderState) : list Z := written (dec_repository st).

(** ** The tests of the repository, run on the embedding *)

Definition test_values : list Z :=
  [ 0x0000; 0x0010; 0x0020; 0x0030; 0x0040; 0x0050; 0x0060;
    0x0100; 0x0110; 0x0120; 0x0130; 0x0140; 0x0150; 0x0160;
    0x1000; 0x1000; 0x1000; 0x1000; 0x1000; 0x1000; 0x1000;
    0x0000; 0x0002; 0x0004; 0x0006; 0x0008; 0x000A; 0x000C;
    0x000E; 0x0010; 0x0012; 0x0014; 0x0016; 0x0018; 0x001A;
    0x0018; 0x0016; 0x0014; 0x0012; 0x0010; 0x000E; 0x000C ].

Definition roundtrip (shift : Z) (values : list Z) : outcome (list Z) :=
  enc ← QOI15Encoder shift values;
  dec ← QOI15Decoder (encoded enc) (Z.of_nat (length values));
  Done (decoded dec).

(** ** Specification-level notions *)

(** The little-endian base-8 digits of a run length: [n] has no digit when it
    is zero, otherwise its lowest digit comes first and the digits of
    [n / 8] follow. *)
Inductive base8 : Z → list Z → Prop :=
| base8_zero : base8 0 []
| base8_digit n l : 0 < n → base8 (n / 8) l → base8 n (n mod 8 :: l).

(** The containers a flush has to emit for the pending sub-codewords: the
    sub-codewords in groups of three, in order, and a last group of one or
    two padded with zeros. *)
Fixpoint pack (pending : list Z) : list Z :=
  match pending with
  | [] => []
  | [a] => [Chunker_Set a 0 0]
  | [a; b] => [Chunker_Set a b 0]
  | a :: b :: c :: rest => Chunker_Set a b c :: pack rest
  end.

(** A repository as the constructors leave it: the write position is inside
    the buffer or at its end, and [tempCounter_] counts [temp_]. *)
Definition repository_ok (r : SpeedFirstRepository) : Prop :=
  0 ≤ counter_ r ≤ Z.of_nat (length (buffer_ r))
  ∧ tempCounter_ r = Z.of_nat (length (temp_ r)).

(** *** The encoder seen through its output

    What matters of an encoder between two samples: its registers, its
    table, the words it has written and the sub-codewords still pending in
    the repository. *)
Record EncoderView : Type := {
  v_previous : Z;
  v_runLength : Z;
  v_table : Table;
  v_written : list Z;
  v_pending : list Z
}.

Definition Encoder_view (st : EncoderState) : EncoderView :=
  {| v_previous := enc_previous st; v_runLength := enc_runLength st;
     v_table := enc_table st; v_written := encoded st;
     v_pending := temp_ (enc_repository st) |}.

(** The four ways the loop body of the encoder treats a sample: it extends
    the run, or it ends the run (whose length gives [digits]) and emits a
    differential sub-codeword, a table sub-codeword or a raw literal. *)
Inductive Encoder_step (shift : Z) (v : EncoderView) (sample : Z) : EncoderView → Prop :=
| step_run :
    v_previous v = BitShifter_Get shift sample →
    Encoder_step shift v sample
      {| v_previous := v_previous v; v_runLength := v_runLength v + 1;
         v_table := v_table v; v_written := v_written v; v_pending := v_pending v |}
| step_differential digits :
    let current := BitShifter_Get shift sample in
    let diff := Differential_Sub (v_previous v) current in
    v_previous v ≠ current →
    base8 (v_runLength v) digits →
    Differential_IsValid differential_ diff = true →
    Encoder_step shift v sample
      {| v_previous := current; v_runLength := 0;
         v_table := v_table v; v_written := v_written v;
         v_pending := (v_pending v ++ digits) ++ [Differential_Get differential_ diff] |}
| step_table digits :
    let current := BitShifter_Get shift sample in
    let diff := Differential_Sub (v_previous v) current in
    let hash := Table_Hash table_ (v_table v) current in
    v_previous v ≠ current →
    base8 (v_runLength v) digits →
    Differential_IsValid differential_ diff = false →
    Table_Refer (v_table v) hash = Done current →
    Encoder_step shift v sample
      {| v_previous := current; v_runLength := 0;
         v_table := v_table v; v_written := v_written v;
         v_pending := (v_pending v ++ digits) ++ [Table_Get table_ hash] |}
| step_raw digits referred table' :
    let current := BitShifter_Get shift sample in
    let diff := Differential_Sub (v_previous v) current in
    let hash := Table_Hash table_ (v_table v) current in
    v_previous v ≠ current →
    base8 (v_runLength v) digits →
    Differential_IsValid differential_ diff = false →
    Table_Refer (v_table v) hash = Done referred →
    referred ≠ current →
    Table_Insert hash current (v_table v) = Done table' →
    Encoder_step shift v sample
      {| v_previous := current; v_runLength := 0;
         v_table := table';
         v_written := v_written v ++ pack (v_pending v ++ digits) ++ [Raw15bit_Get current];
         v_pending := [] |}.

Inductive Encoder_steps (shift : Z) : EncoderView → list Z → EncoderView → Prop :=
| steps_nil v : Encoder_steps shift v [] v
| steps_cons v sample v1 samples v2 :
    Encoder_step shift v sample v1 →
    Encoder_steps shift v1 samples v2 →
    Encoder_steps shift v (sample :: samples) v2.

(** The words written, the sub-codewords pending and the samples of the
    current run, counted together: every sample adds at most one to this
    count, and the words of the output are never more than it. *)
Definition Encoder_load (v : EncoderView) : Z :=
  Z.of_nat (length (v_written v)) + Z.of_nat (length (v_pending v)) + v_runLength v.

Definition Encoder_ok (st : EncoderState) : Prop :=
  repository_ok (enc_repository st)
  ∧ length (ref_ (enc_table st)) = 8%nat
  ∧ 0 ≤ enc_runLength st.

(** A container of [pack]: [Chunker::Set] of three sub-codewords of at most
    [0x1F] each, which leaves bit 15 clear. *)
Definition is_packed_container (w : Z) : Prop :=
  Z.testbit w 15 = false
  ∧ ∃ first second third,
      0 ≤ first ≤ 0x1F ∧ 0 ≤ second ≤ 0x1F ∧ 0 ≤ third ≤ 0x1F
      ∧ w = Chunker_Set first second third.

(** *** The decoder with an unbounded output

    The registers of the decoder, its table, the run digits it has
    collected and the samples it has produced.  The functions below are the
    branches of the loop of [QOI15Decoder] on this view, with the samples in
    a list instead of the fixed buffer of the repository. *)
Record DecoderView : Type := {
  d_previous : Z;
  d_table : Table;
  d_runLengthValues : list Z;
  d_output : list Z
}.

Definition Decoder_view (st : DecoderState) : DecoderView :=
  {| d_previous := dec_previous st; d_table := dec_table st;
     d_runLengthValues := dec_runLengthValues st; d_output := decoded st |}.

Definition Table_at (t : Table) (hash : Z) : Z :=
  default 0xFFFF (ref_ t !! Z.to_nat hash).

Definition Table_put (hash value : Z) (t : Table) : Table :=
  {| ref_ := <[Z.to_nat hash := value]> (ref_ t); hashBit_ := hashBit_ t |}.

Definition view_flush_run (d : DecoderView) : DecoderView :=
  if bool_decide (0 < length (d_runLengthValues d))%nat then
    let length := RunLength_Set runLength_ (d_runLengthValues d) in
    {| d_previous := d_previous d; d_table := d_table d; d_runLengthValues := [];
       d_output := d_output d
                   ++ replicate (Z.to_nat length) (BitShifter_Set 1 (d_previous d)) |}
  else d.

Definition view_leftover (value : Z) (d : DecoderView) : DecoderView :=
  let d :=
    if RunLength_CheckHeader runLength_ value then
      {| d_previous := d_previous d; d_table := d_table d;
         d_runLengthValues := d_runLengthValues d ++ [value];
         d_output := d_output d |}
    else view_flush_run d in
  let d :=
    if Differential_CheckHeader differential_ value then
      let diff := Differential_Set differential_ value in
      let current := Differential_Add (d_previous d) diff in
      {| d_previous := current; d_table := d_table d;
         d_runLengthValues := d_runLengthValues d;
         d_output := d_output d ++ [BitShifter_Set 1 current] |}
    else d in
  if Table_CheckHeader table_ value then
    let hash := Table_Set table_ value in
    let current := Table_at (d_table d) hash in
    {| d_previous := current; d_table := d_table d;
       d_runLengthValues := d_runLengthValues d;
       d_output := d_output d ++ [BitShifter_Set 1 current] |}
  else d.

Definition view_literal (value : Z) (d : DecoderView) : DecoderView :=
  let d := view_flush_run d in
  let current := Raw15bit_Set value in
  let hash := Table_Hash table_ (d_table d) current in
  {| d_previous := current; d_table := Table_put hash current (d_table d);
     d_runLengthValues := d_runLengthValues d;
     d_output := d_output d ++ [BitShifter_Set 1 current] |}.

Definition view_leftovers (leftovers : list Z) (d : DecoderView) : DecoderView :=
  fold_left (λ d value, view_leftover value d) leftovers d.

Definition view_word (value : Z) (d : DecoderView) : DecoderView :=
  if Raw15bit_IsValid value then view_literal value d
  else
    let '(first, second, third) := Chunker_Get value in
    view_leftovers [first; second; third] d.

Definition view_words (buffer : list Z) (d : DecoderView) : DecoderView :=
  fold_left (λ d value, view_word value d) buffer d.

Definition view_init : DecoderView :=
  {| d_previous := 0xFFFF; d_table := Table_new table_ 1;
     d_runLengthValues := []; d_output := [] |}.

(** The samples a stream of container words decodes to. *)
Definition Decoder_samples (buffer : list Z) : list Z :=
  d_output (view_flush_run (view_words buffer view_init)).

Definition Decoder_ok (st : DecoderState) : Prop :=
  repository_ok (dec_repository st)
  ∧ temp_ (dec_repository st) = []
  ∧ length (ref_ (dec_table st)) = 8%nat.

(** The part of the state of the decoder a branch of the loop leaves alone. *)
Definition Decoder_frame (st st' : DecoderState) : Prop :=
  length (buffer_ (dec_repository st')) = length (buffer_ (dec_repository st))
  ∧ dec_counter st' = dec_counter st
  ∧ dec_leftovers st' = dec_leftovers st.

(** *** Encoder and decoder side by side *)

(** What the decoder gives back for a sample the encoder read with the
    shift [shift]. *)
Definition reconstructed (shift sample : Z) : Z :=
  BitShifter_Set 1 (BitShifter_Get shift sample).

(** The encoder has read [consumed]; the last [v_runLength] of these samples
    are the run it is counting.  A decoder that has read the words written
    so far and then the pending sub-codewords has the registers and the
    table of the encoder, no run digits left over, and has produced the
    samples before the run. *)
Definition in_sync (shift : Z) (consumed : list Z) (v : EncoderView) : Prop :=
  ∃ emitted run,
    consumed = emitted ++ run
    ∧ Z.of_nat (length run) = v_runLength v
    ∧ Forall (λ sample, BitShifter_Get shift sample = v_previous v) run
    ∧ view_leftovers (v_pending v) (view_words (v_written v) view_init)
      = {| d_previous := v_previous v; d_table := v_table v;
           d_runLengthValues := [];
           d_output := reconstructed shift <$> emitted |}
    ∧ length (ref_ (v_table v)) = 8%nat
    ∧ Forall (λ x, 0 ≤ x ≤ 0x1F) (v_pending v).

(** The table a decoder has after a stream of words: the literals of the
    stream inserted in their order. *)
Definition table_after (words : list Z) : Table :=
  fold_left
    (λ t w, if Raw15bit_IsValid w
            then Table_put (Table_Hash table_ t (Raw15bit_Set w)) (Raw15bit_Set w) t
            else t)
    words (Table_new table_ 1).


(** The state of an encoder that has written every sample of [consumed] as
    a raw literal: no run, nothing pending, [previous] the last downshifted
    sample, and no table entry other than [0xFFFF] or a downshifted sample
    of [consumed]. *)
Definition all_raw (shift : Z) (consumed : list Z) (v : EncoderView) : Prop :=
  v_runLength v = 0
  ∧ v_pending v = []
  ∧ v_written v = (λ y, Raw15bit_Get (BitShifter_Get shift y)) <$> consumed
  ∧ v_previous v = default 0xFFFF (BitShifter_Get shift <$> last consumed)
  ∧ Forall (λ entry, entry = 0xFFFF ∨ entry ∈ (BitShifter_Get shift <$> consumed))
           (ref_ (v_table v)).

(** The template arguments of [differential_] and [table_] in a build with
    [TABLE_FIRST] defined. *)
Definition differential_TABLE_FIRST : TemplateArgs :=
  {| headerBit := 2; valueBit := 3; header := 0x08; mask := 0x07 |}.
Definition table_TABLE_FIRST : TemplateArgs :=
  {| headerBit := 1; valueBit := 4; header := 0x10; mask := 0x0F |}.

Example test_BitShifter :
  BitShifter_Get 1 0xFFFF = 0x7FFF ∧ BitShifter_Set 1 0x7FFF = 0xFFFE.
Proof. split; reflexivity. Qed.

Example test_RunLength :
  RunLength_CheckHeader runLength_ 0x00 = true
  ∧ RunLength_CheckHeader runLength_ 0x18 = false
  ∧ RunLength_CheckHeader runLength_ 0x10 = false
  ∧ RunLength_CheckHeader runLength_ 0x08 = false
  ∧ RunLength_Get runLength_ 10 = Done [2; 1]
  ∧ RunLength_Set runLength_ [2; 1] = 10.
Proof. repeat split; reflexivity. Qed.

Example test_Differential :
  Differential_CheckHeader differential_ 0x00 = false
  ∧ Differential_CheckHeader differential_ 0x18 = true
  ∧ Differential_CheckHeader differential_ 0x10 = true
  ∧ Differential_CheckHeader differential_ 0x08 = false
  ∧ Differential_Sub 0x0100 (0x0100 - 3) = -3
  ∧ Differential_IsValid differential_ (-3) = true
  ∧ Differential_Get differential_ (-3) = 0x15
  ∧ Differential_Set differential_ 0x15 = -3
  ∧ Differential_Add 0x0100 (-3) = 0x0100 - 3.
Proof. repeat split; reflexivity. Qed.

Example test_Table :
  let table := Table_new table_ 1 in
  let hash := Table_Hash table_ table 0x010A in
  Table_CheckHeader table_ 0x08 = true
  ∧ Table_CheckHeader table_ 0x10 = false
  ∧ hash = 0x05
  ∧ Table_Get table_ hash = 0x0D
  ∧ Table_Set table_ 0x0D = 0x05
  ∧ Table_Refer table hash = Done 0xFFFF
  ∧ (table' ← Table_Insert hash 0x010A table; Table_Refer table' hash) = Done 0x010A.
Proof. repeat split; reflexivity. Qed.

Example test_Raw15bit :
  Raw15bit_IsValid 0xAAAA = true ∧ Raw15bit_Set 0xAAAA = 0x2AAA.
Proof. split; reflexivity. Qed.

Example test_Chunker :
  Chunker_Get 0x5555 = (0x15, 0x0A, 0x15) ∧ Chunker_Set 0x15 0x0A 0x15 = 0x5555.
Proof. split; reflexivity. Qed.

Example test_SpeedFirstRepository :
  (r ← SpeedFirstRepository_Set16 0x7FFF
         (SpeedFirstRepository_Set8 0x1F
            (SpeedFirstRepository_Set8 0x1F (SpeedFirstRepository_new 100)));
   r ← SpeedFirstRepository_Flush r;
   Done (written r)) = Done [0x3FF; 0x7FFF].
Proof. vm_compute. reflexivity. Qed.

Example test_qoi15_simple : roundtrip 1 test_values = Done test_values.
Proof. vm_compute. reflexivity. Qed.

Example test_qoi15_runlength :
  roundtrip 1 (replicate 513 0xFFFE) = Done (replicate 513 0xFFFE)
  ∧ (enc ← QOI15Encoder 1 (replicate 513 0xFFFE); Done (encoded enc))
    = Done [0xFFFF; Chunker_Set 0 0 0; Chunker_Set 1 0 0].
Proof. split; vm_compute; reflexivity. Qed.

(** ** Arithmetic of the bit operations *)

(** Linear arithmetic with division and remainder by constants. *)
Ltac zlia := Z.div_mod_to_equations; lia.

Lemma land_lnot_ones x k : 0 ≤ k → Z.land x (Z.lnot (Z.ones k)) = x / 2 ^ k * 2 ^ k.
Proof.
  intros Hk.
  rewrite <- Z.ldiff_land, Z.ldiff_ones_r, Z.shiftr_div_pow2, Z.shiftl_mul_pow2 by lia.
  reflexivity.
Qed.

Lemma land_disjoint a b k : 0 ≤ k → 0 ≤ a < 2 ^ k → Z.land a (Z.shiftl b k) = 0.
Proof.
  intros Hk Ha. apply Z.bits_inj'. intros n Hn.
  rewrite Z.land_spec, Z.bits_0.
  destruct (Z.lt_ge_cases n k) as [Hlt | Hge].
  - rewrite Z.shiftl_spec_low by lia. apply andb_false_r.
  - destruct (decide (a = 0)) as [-> | Hne].
    + rewrite Z.bits_0. reflexivity.
    + rewrite (Z.bits_above_log2 a n); [reflexivity | lia |].
      assert (Z.log2 a < k) by (apply Z.log2_lt_pow2; lia). lia.
Qed.

Lemma lor_disjoint a b k : 0 ≤ k → 0 ≤ a < 2 ^ k → Z.lor a (Z.shiftl b k) = a + b * 2 ^ k.
Proof.
  intros Hk Ha.
  rewrite <- Z.lxor_lor, <- Z.add_nocarry_lxor by (apply land_disjoint; lia).
  rewrite Z.shiftl_mul_pow2 by lia. reflexivity.
Qed.

Lemma land_7 x : Z.land x 7 = x mod 8.
Proof. change 7 with (Z.ones 3). rewrite Z.land_ones by lia. reflexivity. Qed.

Lemma land_15 x : Z.land x 15 = x mod 16.
Proof. change 15 with (Z.ones 4). rewrite Z.land_ones by lia. reflexivity. Qed.

Lemma land_31 x : Z.land x 31 = x mod 32.
Proof. change 31 with (Z.ones 5). rewrite Z.land_ones by lia. reflexivity. Qed.

Lemma land_32767 x : Z.land x 32767 = x mod 32768.
Proof. change 32767 with (Z.ones 15). rewrite Z.land_ones by lia. reflexivity. Qed.

(** ** The tags of the sub-codewords *)

Lemma CheckHeader_runLength v :
  CheckHeader runLength_ v = bool_decide (0 ≤ v < 8).
Proof.
  unfold CheckHeader. cbn [mask header runLength_].
  change (Z.lnot 7) with (Z.lnot (Z.ones 3)). rewrite land_lnot_ones by lia.
  change (2 ^ 3) with 8. apply bool_decide_ext. zlia.
Qed.

Lemma CheckHeader_differential v :
  CheckHeader differential_ v = bool_decide (16 ≤ v < 32).
Proof.
  unfold CheckHeader. cbn [mask header differential_].
  change (Z.lnot 15) with (Z.lnot (Z.ones 4)). rewrite land_lnot_ones by lia.
  change (2 ^ 4) with 16. apply bool_decide_ext. zlia.
Qed.

Lemma CheckHeader_table v :
  CheckHeader table_ v = bool_decide (8 ≤ v < 16).
Proof.
  unfold CheckHeader. cbn [mask header table_].
  change (Z.lnot 7) with (Z.lnot (Z.ones 3)). rewrite land_lnot_ones by lia.
  change (2 ^ 3) with 8. apply bool_decide_ext. zlia.
Qed.

(** ** Differential *)

Lemma Differential_IsValid_iff d :
  Differential_IsValid differential_ d = true ↔ 1 ≤ Z.abs d ≤ 8.
Proof.
  unfold Differential_IsValid, Differential_MaxValue. cbn [valueBit differential_].
  change (Z.shiftl 1 (4 - 1)) with 8.
  rewrite andb_true_iff, !bool_decide_eq_true. lia.
Qed.

(** The sixteen deltas [IsValid] accepts, one goal for each. *)
Ltac valid_deltas d :=
  let Hcases := fresh "Hcases" in
  assert (d = -8 ∨ d = -7 ∨ d = -6 ∨ d = -5 ∨ d = -4 ∨ d = -3 ∨ d = -2 ∨ d = -1
          ∨ d = 1 ∨ d = 2 ∨ d = 3 ∨ d = 4 ∨ d = 5 ∨ d = 6 ∨ d = 7 ∨ d = 8)
    as Hcases by lia;
  repeat (destruct Hcases as [-> | Hcases]); try subst d.

Lemma Differential_Get_range d :
  1 ≤ Z.abs d ≤ 8 → 16 ≤ Differential_Get differential_ d < 32.
Proof.
  intros Hd.
  valid_deltas d; vm_compute; split; congruence.
Qed.

Lemma Differential_Set_Get d :
  1 ≤ Z.abs d ≤ 8 → Differential_Set differential_ (Differential_Get differential_ d) = d.
Proof.
  intros Hd.
  valid_deltas d; reflexivity.
Qed.

(** C4. For every delta [d] with [1 <= |d| <= 8] (the deltas [IsValid]
    accepts), [Differential::Get] biases [d] to an unsigned 4-bit value
    ([d + 8] if [d < 0], else [d + 7]) ORed with the tag [0x10];
    [Differential::Set] takes the low 4 bits [v] of any sub-codeword and
    returns [v - 8] if [v < 8], else [v - 7]; and [Set (Get d) = d]. *)
Theorem Differential_roundtrip (d : Z) (Hd : 1 ≤ Z.abs d ≤ 8) :
  let biased := if bool_decide (d < 0) then d + 8 else d + 7 in
  Differential_IsValid differential_ d = true
  ∧ 0 ≤ biased < 16
  ∧ Differential_Get differential_ d = Z.lor biased 0x10
  ∧ (∀ value,
       Differential_Set differential_ value
       = if bool_decide (Z.land value 0x0F < 8) then Z.land value 0x0F - 8
         else Z.land value 0x0F - 7)
  ∧ Differential_Set differential_ (Differential_Get differential_ d) = d.
Proof.
  intros biased. split; [by apply Differential_IsValid_iff |].
  split; [subst biased; case_bool_decide; lia |].
  split; [| split; [reflexivity | by apply Differential_Set_Get]].
  subst biased.
  valid_deltas d; reflexivity.
Qed.

Lemma Differential_roundtrip_witness :
  1 ≤ Z.abs (-3) ≤ 8
  ∧ Differential_Get differential_ (-3) = 0x15
  ∧ Differential_Set differential_ (Differential_Get differential_ (-3)) = -3.
Proof.
  assert (1 ≤ Z.abs (-3) ≤ 8) as H by (simpl; lia).
  split; [exact H |].
  destruct (Differential_roundtrip (-3) H) as (_ & _ & Hget & _ & Hset).
  split; [exact Hget | exact Hset].
Defined.

(** ** RunLength *)

Lemma RunLength_Get_loop_base8 fuel : ∀ n acc,
  0 ≤ n < 2 ^ Z.of_nat fuel →
  ∃ l, RunLength_Get_loop runLength_ fuel n acc = Done (acc ++ l) ∧ base8 n l.
Proof.
  induction fuel as [| fuel IH]; intros n acc Hn.
  - assert (n = 0) as -> by (change (2 ^ Z.of_nat 0) with 1 in Hn; lia).
    exists []. rewrite app_nil_r. split; [reflexivity | constructor].
  - destruct (decide (n = 0)) as [-> | Hne].
    + exists []. rewrite app_nil_r. split; [reflexivity | constructor].
    + cbn [RunLength_Get_loop]. rewrite bool_decide_eq_true_2 by done.
      cbn [mask header valueBit runLength_].
      rewrite Z.lor_0_r, land_7, Z.shiftr_div_pow2 by lia. change (2 ^ 3) with 8.
      replace (to_uint8 (to_uint8 (n mod 8))) with (n mod 8) by (unfold to_uint8; zlia).
      rewrite Nat2Z.inj_succ, Z.pow_succ_r in Hn by lia.
      destruct (IH (n / 8) (acc ++ [n mod 8])) as (l & Hl & Hb); [zlia |].
      exists (n mod 8 :: l). rewrite Hl, <- app_assoc. split; [reflexivity |].
      constructor; [lia | exact Hb].
Qed.

Lemma RunLength_Get_base8 n :
  0 ≤ n → ∃ l, RunLength_Get runLength_ n = Done l ∧ base8 n l.
Proof.
  intros Hn. unfold RunLength_Get.
  destruct (RunLength_Get_loop_base8 (S (Z.to_nat (Z.log2 n))) n []) as (l & Hl & Hb).
  - rewrite Nat2Z.inj_succ, Z2Nat.id by apply Z.log2_nonneg.
    destruct (decide (n = 0)) as [-> | Hne]; [simpl; lia |].
    pose proof (Z.log2_spec n). lia.
  - exists l. split; [exact Hl | exact Hb].
Qed.

Lemma base8_digits n l : base8 n l → Forall (λ d, 0 ≤ d < 8) l.
Proof. induction 1; constructor; [zlia | assumption]. Qed.

Lemma base8_length n l : base8 n l → Z.of_nat (length l) ≤ n.
Proof. induction 1; cbn [length]; [lia | zlia]. Qed.

Lemma base8_nil n : base8 n [] → n = 0.
Proof. inversion 1; reflexivity. Qed.

Lemma base8_last n l : base8 n l → 0 < n → ∃ d, last l = Some d ∧ d ≠ 0.
Proof.
  induction 1 as [| n l Hn Hb IH]; intros Hpos; [lia |].
  destruct l as [| d' l'].
  - apply base8_nil in Hb. exists (n mod 8). split; [reflexivity | zlia].
  - destruct IH as (d & Hd & Hnz).
    + inversion Hb; subst; lia.
    + exists d. split; [| exact Hnz]. rewrite last_cons, Hd. reflexivity.
Qed.

Lemma base8_lookup n l : base8 n l →
  ∀ i d, l !! i = Some d → d = (n / 8 ^ Z.of_nat i) mod 8.
Proof.
  induction 1 as [| n l Hn Hb IH]; intros i d Hi; [by rewrite lookup_nil in Hi |].
  destruct i as [| i]; cbn in Hi.
  - injection Hi as <-. change (8 ^ Z.of_nat 0) with 1. rewrite Z.div_1_r. reflexivity.
  - rewrite (IH i d Hi), Nat2Z.inj_succ, Z.pow_succ_r, Z.div_div by lia. reflexivity.
Qed.

(** The accumulator pair of [RunLength::Set]. *)
Lemma RunLength_Set_fold l : ∀ length shift,
  0 ≤ shift →
  fold_left
    (λ '(length, shift) value,
       (Z.lor length (Z.shiftl (Z.land value (mask runLength_)) shift),
        shift + valueBit runLength_))
    l (length, shift)
  = (Z.lor length (Z.shiftl (RunLength_Set runLength_ l) shift),
     shift + 3 * Z.of_nat (List.length l)).
Proof.
  unfold RunLength_Set.
  induction l as [| d l IH]; intros a s Hs; cbn [fold_left List.length].
  - cbn [fst]. rewrite Z.shiftl_0_l, Z.lor_0_r. f_equal. lia.
  - rewrite IH by (cbn; lia). rewrite (IH (Z.lor 0 _)) by (cbn; lia).
    cbn [fst mask valueBit runLength_].
    rewrite Z.lor_0_l, Z.shiftl_0_r, Z.shiftl_lor, Z.shiftl_shiftl, Z.lor_assoc by lia.
    f_equal; [f_equal; f_equal; lia | lia].
Qed.

Lemma RunLength_Set_nil : RunLength_Set runLength_ [] = 0.
Proof. reflexivity. Qed.

Lemma RunLength_Set_cons d l :
  RunLength_Set runLength_ (d :: l)
  = Z.lor (Z.land d 7) (Z.shiftl (RunLength_Set runLength_ l) 3).
Proof.
  unfold RunLength_Set at 1. cbn [fold_left]. rewrite RunLength_Set_fold by (cbn; lia).
  cbn [fst mask valueBit runLength_]. rewrite Z.lor_0_l, Z.shiftl_0_r. reflexivity.
Qed.

Lemma RunLength_Set_snoc l d :
  RunLength_Set runLength_ (l ++ [d])
  = Z.lor (RunLength_Set runLength_ l) (Z.shiftl (Z.land d 7) (3 * Z.of_nat (length l))).
Proof.
  unfold RunLength_Set at 1. rewrite fold_left_app.
  pose proof (RunLength_Set_fold l 0 0 ltac:(lia)) as Hl.
  rewrite Z.lor_0_l, Z.shiftl_0_r, Z.add_0_l in Hl. rewrite Hl. reflexivity.
Qed.

Lemma RunLength_Set_padding l k :
  RunLength_Set runLength_ (l ++ replicate k 0) = RunLength_Set runLength_ l.
Proof.
  induction k as [| k IH]; [by rewrite app_nil_r |].
  rewrite replicate_S_end, app_assoc, RunLength_Set_snoc, IH.
  rewrite Z.land_0_l, Z.shiftl_0_l, Z.lor_0_r. reflexivity.
Qed.

Lemma RunLength_Set_base8 n l : base8 n l → RunLength_Set runLength_ l = n.
Proof.
  induction 1 as [| n l Hn Hb IH]; [reflexivity |].
  rewrite RunLength_Set_cons, IH, land_7, lor_disjoint by zlia.
  change (2 ^ 3) with 8. zlia.
Qed.

Lemma base8_unique n l : base8 n l → ∀ l', base8 n l' → l = l'.
Proof.
  induction 1 as [| n l Hn Hb IH]; intros l' Hb'.
  - inversion Hb'; [reflexivity | lia].
  - inversion Hb'; subst; [lia |]. f_equal. by apply IH.
Qed.

Lemma base8_count n l : base8 n l → n < 8 ^ Z.of_nat (length l).
Proof.
  induction 1 as [| n l Hn Hb IH]; [simpl; lia |].
  cbn [length]. rewrite Nat2Z.inj_succ, Z.pow_succ_r by lia. zlia.
Qed.

(** A run length an [int] holds has at most eleven digits. *)
Lemma base8_int n l : base8 n l → n < 2 ^ 31 → (length l ≤ 11)%nat.
Proof.
  intros Hb Hint.
  destruct (decide (length l ≤ 11)%nat) as [Hle | Hgt]; [exact Hle | exfalso].
  destruct l as [| d l]; [cbn in Hgt; lia |].
  assert (∀ m k, base8 m k → 8 ^ (Z.of_nat (length k) - 1) ≤ m ∨ k = []) as Hlow.
  { clear. induction 1 as [| m k Hm Hb IH]; [by right | left].
    cbn [length]. rewrite Nat2Z.inj_succ.
    replace (Z.succ (Z.of_nat (length k)) - 1) with (Z.of_nat (length k)) by lia.
    destruct IH as [IH | ->]; [| cbn; lia].
    destruct k as [| d k]; [cbn; lia |]. cbn [length] in IH |- *.
    rewrite Nat2Z.inj_succ in IH |- *.
    replace (Z.succ (Z.of_nat (length k)) - 1) with (Z.of_nat (length k)) in IH by lia.
    rewrite Z.pow_succ_r by lia. zlia. }
  destruct (Hlow _ _ Hb) as [Hpow | Hnil]; [| discriminate].
  assert (8 ^ 11 ≤ 8 ^ (Z.of_nat (length (d :: l)) - 1)) as Hmono
    by (apply Z.pow_le_mono_r; cbn [length] in *; lia).
  change (8 ^ 11) with 8589934592 in Hmono. change (2 ^ 31) with 2147483648 in Hint. lia.
Qed.

(** C5. For every [n >= 0], [RunLength::Get] returns the little-endian
    base-8 digits of [n] (element [i] is digit [i], which carries the tag
    [00] since it is below 8), at most eleven of them when [n] is a value of
    an [int], and [Set (Get n) = n].  [RunLength::Set] ORs the low 3 bits of
    the elements of a list at shifts 0, 3, 6, ... in list order: the list
    extended by one element has the value of the list ORed with the low 3
    bits of the element, shifted by three times the length.  This equation
    is stated where the [int] of [Set] holds the result: for a shift of at
    most 30 and a result below [2^31]. *)
Theorem RunLength_roundtrip (n : Z) (Hn : 0 ≤ n) :
  ∃ values,
    RunLength_Get runLength_ n = Done values
    ∧ (∀ i d, values !! i = Some d →
         d = (n / 8 ^ Z.of_nat i) mod 8 ∧ RunLength_CheckHeader runLength_ d = true)
    ∧ n < 8 ^ Z.of_nat (length values)
    ∧ (n < 2 ^ 31 → (length values ≤ 11)%nat)
    ∧ RunLength_Set runLength_ [] = 0
    ∧ (∀ l d, (length l ≤ 10)%nat →
              RunLength_Set runLength_ (l ++ [d]) < 2 ^ 31 →
              RunLength_Set runLength_ (l ++ [d])
              = Z.lor (RunLength_Set runLength_ l)
                      (Z.shiftl (Z.land d 7) (3 * Z.of_nat (length l))))
    ∧ RunLength_Set runLength_ values = n.
Proof.
  destruct (RunLength_Get_base8 n Hn) as (l & Hl & Hb).
  exists l. split; [exact Hl |].
  split; [| split; [by apply base8_count | split; [by apply base8_int |]]].
  - intros i d Hi. split; [by eapply base8_lookup |].
    unfold RunLength_CheckHeader. rewrite CheckHeader_runLength.
    apply bool_decide_eq_true.
    pose proof (base8_digits _ _ Hb) as Hall. rewrite Forall_lookup in Hall.
    exact (Hall i d Hi).
  - split; [reflexivity |]. split; [| by apply RunLength_Set_base8].
    intros l' d _ _. apply RunLength_Set_snoc.
Qed.

Lemma RunLength_roundtrip_witness :
  0 ≤ 513
  ∧ ∃ values, RunLength_Get runLength_ 513 = Done values
              ∧ (length values ≤ 11)%nat
              ∧ RunLength_Set runLength_ values = 513.
Proof.
  assert (0 ≤ 513) as H by lia.
  split; [exact H |].
  destruct (RunLength_roundtrip 513 H) as (values & Hget & _ & _ & Hint & _ & _ & Hset).
  exists values. split; [exact Hget |]. split; [apply Hint; reflexivity | exact Hset].
Defined.

(** C10 (as amended). For every length [L >= 1], [RunLength::Get] returns a
    non-empty list whose elements all pass [RunLength::CheckHeader] and whose
    last (most significant) digit is not zero, and [Get 0] is the empty list.
    A lower digit can be zero ([Get 8] is [0; 1]): only the last
    sub-codeword of an encoded run is never zero. *)
Theorem RunLength_Get_shape (L : Z) (HL : 1 ≤ L) :
  ∃ values d,
    RunLength_Get runLength_ L = Done values
    ∧ values ≠ []
    ∧ Forall (λ v, RunLength_CheckHeader runLength_ v = true) values
    ∧ last values = Some d ∧ d ≠ 0
    ∧ RunLength_Get runLength_ 0 = Done []
    ∧ RunLength_Get runLength_ 8 = Done [0; 1].
Proof.
  destruct (RunLength_Get_base8 L ltac:(lia)) as (l & Hl & Hb).
  destruct (base8_last _ _ Hb ltac:(lia)) as (d & Hd & Hnz).
  exists l, d. split; [exact Hl |]. split; [by intros -> |].
  split; [| repeat split; done].
  eapply Forall_impl; [by eapply base8_digits |].
  intros v Hv. unfold RunLength_CheckHeader. rewrite CheckHeader_runLength.
  by apply bool_decide_eq_true.
Qed.

Lemma RunLength_Get_shape_witness :
  1 ≤ 10 ∧ ∃ values d, RunLength_Get runLength_ 10 = Done values
                        ∧ last values = Some d ∧ d ≠ 0.
Proof.
  assert (1 ≤ 10) as H by lia.
  split; [exact H |].
  destruct (RunLength_Get_shape 10 H) as (values & d & Hget & _ & _ & Hlast & Hnz & _).
  exists values, d. split; [exact Hget | split; [exact Hlast | exact Hnz]].
Defined.

(** C10 as stated fails: a run of 8 equal samples is encoded as the
    sub-codewords [0; 1].  The zero is in the pending sub-codewords before
    the repository pads anything, and it is the first field of the packed
    word of the output (the padding is the third field). *)
Lemma zero_digit_from_run_encoding :
  RunLength_Get runLength_ 8 = Done [0; 1]
  ∧ (st ← Encoder_loop 1 (replicate 9 2) (Encoder_init 9);
     st ← Encoder_flush_run st;
     Done (temp_ (enc_repository st))) = Done [0; 1]
  ∧ (enc ← QOI15Encoder 1 (replicate 9 2); Done (encoded enc))
    = Done [Raw15bit_Get 1; Chunker_Set 0 1 0]
  ∧ Chunker_Get (Chunker_Set 0 1 0) = (0, 1, 0).
Proof. repeat split; vm_compute; reflexivity. Qed.

(** ** SpeedFirstRepository *)

Lemma pack_length pending : (length (pack pending) ≤ length pending)%nat.
Proof.
  induction pending as [pending IH] using (induction_ltof1 _ (@length Z)).
  unfold ltof in IH.
  destruct pending as [| a [| b [| c rest]]]; cbn [pack length]; try lia.
  specialize (IH rest). cbn [length] in IH. lia.
Qed.

Lemma pack_cons3 a b c rest : pack (a :: b :: c :: rest) = Chunker_Set a b c :: pack rest.
Proof. reflexivity. Qed.

Lemma buffer_write_Done value r :
  0 ≤ counter_ r < Z.of_nat (length (buffer_ r)) →
  ∃ r', buffer_write value r = Done r'
        ∧ written r' = written r ++ [value]
        ∧ counter_ r' = counter_ r + 1
        ∧ length (buffer_ r') = length (buffer_ r)
        ∧ temp_ r' = temp_ r ∧ tempCounter_ r' = tempCounter_ r.
Proof.
  intros Hc. unfold buffer_write. rewrite bool_decide_eq_true_2 by done.
  eexists. split; [reflexivity |]. cbn. rewrite length_insert.
  repeat split; try reflexivity.
  unfold written, SpeedFirstRepository_GetSize, SpeedFirstRepository_GetIterator. cbn.
  replace (Z.to_nat (counter_ r + 1)) with (S (Z.to_nat (counter_ r))) by lia.
  rewrite (take_S_r _ _ value) by (apply list_lookup_insert_eq; lia).
  rewrite take_insert_ge by lia. reflexivity.
Qed.

Lemma buffer_write_full value r :
  Z.of_nat (length (buffer_ r)) ≤ counter_ r → buffer_write value r = Undefined.
Proof. intros Hc. unfold buffer_write. rewrite bool_decide_eq_false_2 by lia. reflexivity. Qed.

Lemma Flush_loop_spec fuel : ∀ ite r,
  tempCounter_ r = Z.of_nat (length ite) →
  (length ite ≤ fuel)%nat →
  0 ≤ counter_ r →
  counter_ r + Z.of_nat (length (pack ite)) ≤ Z.of_nat (length (buffer_ r)) →
  ∃ ite' r',
    Flush_loop fuel ite r = Done (ite', r')
    ∧ (length ite' < 3)%nat
    ∧ tempCounter_ r' = Z.of_nat (length ite')
    ∧ written r' ++ pack ite' = written r ++ pack ite
    ∧ counter_ r' + Z.of_nat (length (pack ite')) = counter_ r + Z.of_nat (length (pack ite))
    ∧ 0 ≤ counter_ r'
    ∧ length (buffer_ r') = length (buffer_ r).
Proof.
  induction fuel as [| fuel IH]; intros ite r Htc Hfuel Hc Hroom.
  - destruct ite; [| cbn in Hfuel; lia].
    exists [], r. cbn. rewrite bool_decide_eq_false_2 by (cbn in Htc; lia).
    repeat split; try done. cbn; lia.
  - destruct ite as [| a [| b [| c rest]]].
    1-3: cbn [Flush_loop];
         rewrite bool_decide_eq_false_2 by (cbn in Htc; lia);
         eexists _, _; split; [reflexivity |];
         repeat split; try done; cbn; lia.
    cbn [Flush_loop]. rewrite bool_decide_eq_true_2 by (cbn in Htc; lia).
    rewrite pack_cons3 in Hroom |- *. cbn [length] in Hroom, Htc, Hfuel.
    destruct (buffer_write_Done (Chunker_Set a b c) r) as (r1 & Hw & Hwr & Hc1 & Hlen & Ht & Htc1);
      [lia |].
    rewrite Hw. cbn.
    destruct (IH rest (with_tempCounter (tempCounter_ r1 - 3) r1))
      as (ite' & r' & Hloop & Hlt & Htc' & Hwritten & Hcount & Hc' & Hlen');
      cbn; try lia.
    exists ite', r'. split; [exact Hloop |]. split; [exact Hlt |]. split; [exact Htc' |].
    split.
    { rewrite Hwritten. change (written (with_tempCounter (tempCounter_ r1 - 3) r1))
        with (written r1). rewrite Hwr, <- app_assoc. reflexivity. }
    cbn in Hcount, Hlen'. split; [cbn [length]; lia |]. split; [exact Hc' | congruence].
Qed.

Lemma Flush_fill_one a : Flush_fill 1 0 [a] [0; 0; 0] = Done [a; 0; 0].
Proof. reflexivity. Qed.

Lemma Flush_fill_two a b : Flush_fill 2 0 [a; b] [0; 0; 0] = Done [a; b; 0].
Proof. reflexivity. Qed.

Lemma written_eq r r' :
  buffer_ r = buffer_ r' → counter_ r = counter_ r' → written r = written r'.
Proof.
  unfold written, SpeedFirstRepository_GetSize, SpeedFirstRepository_GetIterator.
  intros -> ->. reflexivity.
Qed.

Lemma SpeedFirstRepository_Flush_spec r :
  repository_ok r →
  counter_ r + Z.of_nat (length (pack (temp_ r))) ≤ Z.of_nat (length (buffer_ r)) →
  ∃ r', SpeedFirstRepository_Flush r = Done r'
        ∧ written r' = written r ++ pack (temp_ r)
        ∧ temp_ r' = [] ∧ tempCounter_ r' = 0
        ∧ counter_ r' = counter_ r + Z.of_nat (length (pack (temp_ r)))
        ∧ length (buffer_ r') = length (buffer_ r).
Proof.
  intros [Hc Htc] Hroom. unfold SpeedFirstRepository_Flush.
  destruct (Flush_loop_spec (Z.to_nat (tempCounter_ r)) (temp_ r) r)
    as (ite' & r1 & Hloop & Hlt & Htc1 & Hwritten & Hcount & Hc1 & Hlen); try lia.
  rewrite Hloop. cbn.
  destruct ite' as [| a [| b [| c rest]]]; cbn [length] in Hlt, Htc1; try lia;
    cbn [pack length] in Hwritten, Hcount.
  - rewrite bool_decide_eq_false_2 by lia. cbn.
    eexists. split; [reflexivity |]. rewrite app_nil_r in Hwritten.
    split; [rewrite <- Hwritten; by apply written_eq |].
    cbn. repeat split; try done; lia.
  - rewrite bool_decide_eq_true_2 by lia. rewrite Htc1, Nat2Z.id, Flush_fill_one. cbn.
    destruct (buffer_write_Done (Chunker_Set a 0 0) (with_tempCounter 0 r1))
      as (r2 & Hw & Hwr & Hc2 & Hlen2 & Ht2 & Htc2); [cbn; lia |].
    rewrite Hw. cbn. eexists. split; [reflexivity |].
    split.
    { rewrite <- Hwritten, (written_eq _ r2), Hwr by reflexivity.
      reflexivity. }
    cbn in *. repeat split; try done; try lia; congruence.
  - rewrite bool_decide_eq_true_2 by lia. rewrite Htc1, Nat2Z.id, Flush_fill_two. cbn.
    destruct (buffer_write_Done (Chunker_Set a b 0) (with_tempCounter 0 r1))
      as (r2 & Hw & Hwr & Hc2 & Hlen2 & Ht2 & Htc2); [cbn; lia |].
    rewrite Hw. cbn. eexists. split; [reflexivity |].
    split.
    { rewrite <- Hwritten, (written_eq _ r2), Hwr by reflexivity.
      reflexivity. }
    cbn in *. repeat split; try done; try lia; congruence.
Qed.

Lemma SpeedFirstRepository_Set16_spec value r :
  repository_ok r →
  counter_ r + Z.of_nat (length (pack (temp_ r))) < Z.of_nat (length (buffer_ r)) →
  ∃ r', SpeedFirstRepository_Set16 value r = Done r'
        ∧ written r' = written r ++ pack (temp_ r) ++ [value]
        ∧ temp_ r' = [] ∧ tempCounter_ r' = 0
        ∧ counter_ r' = counter_ r + Z.of_nat (length (pack (temp_ r))) + 1
        ∧ length (buffer_ r') = length (buffer_ r).
Proof.
  intros Hok Hroom. pose proof Hok as [Hc Htc]. unfold SpeedFirstRepository_Set16.
  case_bool_decide as Hpending.
  - destruct (SpeedFirstRepository_Flush_spec r Hok) as (r1 & Hf & Hwr & Ht & Htc1 & Hc1 & Hlen);
      [lia |].
    rewrite Hf. cbn.
    destruct (buffer_write_Done value r1) as (r2 & Hw & Hwr2 & Hc2 & Hlen2 & Ht2 & Htc2); [lia |].
    exists r2. split; [exact Hw |]. rewrite Hwr2, Hwr, <- app_assoc.
    repeat split; try congruence; lia.
  - cbn. destruct (temp_ r) as [| a l] eqn:Htemp; [| cbn in Htc; lia].
    cbn [pack length app] in *.
    destruct (buffer_write_Done value r) as (r2 & Hw & Hwr2 & Hc2 & Hlen2 & Ht2 & Htc2); [lia |].
    exists r2. split; [exact Hw |].
    repeat split; try congruence; lia.
Qed.

(** C7. Pushing a 16-bit literal into a repository that holds pending
    sub-codewords (and has room for the result) first writes the pending
    sub-codewords as packed containers, three to a container in their
    order, a last group of one or two padded with zeros into a single
    container, and writes the literal after them; nothing is pending
    afterwards and the words written before are untouched. *)
Theorem Set16_flushes_pending_first (value : Z) (r : SpeedFirstRepository)
  (Hok : repository_ok r)
  (Hpending : 0 < tempCounter_ r)
  (Hroom : counter_ r + Z.of_nat (length (pack (temp_ r))) < Z.of_nat (length (buffer_ r))) :
  ∃ r',
    SpeedFirstRepository_Set16 value r = Done r'
    ∧ written r' = written r ++ pack (temp_ r) ++ [value]
    ∧ temp_ r' = [] ∧ tempCounter_ r' = 0
    ∧ (∀ a, pack [a] = [Chunker_Set a 0 0])
    ∧ (∀ a b, pack [a; b] = [Chunker_Set a b 0])
    ∧ (∀ a b c rest, pack (a :: b :: c :: rest) = Chunker_Set a b c :: pack rest).
Proof.
  destruct (SpeedFirstRepository_Set16_spec value r Hok Hroom)
    as (r' & Hset & Hwr & Ht & Htc & _).
  exists r'. repeat split; assumption || reflexivity.
Qed.

Lemma Set16_flushes_pending_first_witness :
  let r := SpeedFirstRepository_Set8 0x1F
             (SpeedFirstRepository_Set8 0x1F (SpeedFirstRepository_new 100)) in
  ∃ r', SpeedFirstRepository_Set16 0x7FFF r = Done r'
        ∧ written r' = [0x3FF; 0x7FFF].
Proof.
  intros r.
  assert (repository_ok r) as Hok by (split; [split | ]; vm_compute; congruence).
  assert (0 < tempCounter_ r) as Hpending by reflexivity.
  assert (counter_ r + Z.of_nat (length (pack (temp_ r))) < Z.of_nat (length (buffer_ r)))
    as Hroom by reflexivity.
  destruct (Set16_flushes_pending_first 0x7FFF r Hok Hpending Hroom)
    as (r' & Hset & Hwr & _).
  exists r'. split; [exact Hset | exact Hwr].
Defined.

(** ** The encoder and its view *)

Lemma for_each_app {A S : Type} (body : S → A → outcome S) (xs ys : list A) (s : S) :
  for_each body (xs ++ ys) s = (s' ← for_each body xs s; for_each body ys s').
Proof.
  revert s. induction xs as [| x xs IH]; intros s; [reflexivity |].
  cbn. destruct (body s x) as [s' | |]; cbn; [apply IH | reflexivity | reflexivity].
Qed.

Lemma written_length r :
  repository_ok r → Z.of_nat (length (written r)) = counter_ r.
Proof.
  intros [Hc _]. unfold written, SpeedFirstRepository_GetSize, SpeedFirstRepository_GetIterator.
  rewrite length_take. lia.
Qed.

Lemma Set8_fold l : ∀ r,
  fold_left (λ r value, SpeedFirstRepository_Set8 value r) l r
  = {| buffer_ := buffer_ r; counter_ := counter_ r; temp_ := temp_ r ++ l;
       tempCounter_ := tempCounter_ r + Z.of_nat (length l) |}.
Proof.
  induction l as [| d l IH]; intros r; cbn [fold_left length].
  - rewrite app_nil_r, Z.add_0_r. by destruct r.
  - rewrite IH. cbn. rewrite <- app_assoc. f_equal. lia.
Qed.

Lemma Encoder_flush_run_spec st :
  0 ≤ enc_runLength st →
  ∃ digits,
    base8 (enc_runLength st) digits
    ∧ Encoder_flush_run st
      = Done {| enc_previous := enc_previous st; enc_runLength := 0;
                enc_table := enc_table st;
                enc_repository :=
                  {| buffer_ := buffer_ (enc_repository st);
                     counter_ := counter_ (enc_repository st);
                     temp_ := temp_ (enc_repository st) ++ digits;
                     tempCounter_ := tempCounter_ (enc_repository st)
                                     + Z.of_nat (length digits) |} |}.
Proof.
  intros Hrl. unfold Encoder_flush_run. case_bool_decide as Hz.
  - destruct (RunLength_Get_base8 _ Hrl) as (digits & Hget & Hb).
    exists digits. split; [exact Hb |]. rewrite Hget. cbn. by rewrite Set8_fold.
  - assert (enc_runLength st = 0) as Hz' by lia. exists []. rewrite Hz'.
    split; [constructor |]. destruct st as [p rl t [b c tmp tc]]. cbn in *.
    rewrite app_nil_r, Z.add_0_r. by subst.
Qed.

Lemma Table_Hash_range t value : 0 ≤ Table_Hash table_ t value < 8.
Proof.
  unfold Table_Hash. cbn [mask table_]. rewrite land_7. unfold to_uint8. zlia.
Qed.

Lemma Table_Refer_Done t hash :
  length (ref_ t) = 8%nat → 0 ≤ hash < 8 → ∃ v, Table_Refer t hash = Done v.
Proof.
  intros Hlen Hh. unfold Table_Refer.
  destruct (lookup_lt_is_Some_2 (ref_ t) (Z.to_nat hash)) as [v Hv]; [lia |].
  rewrite Hv. by exists v.
Qed.

Lemma Table_Insert_Done t hash value :
  length (ref_ t) = 8%nat → 0 ≤ hash < 8 →
  Table_Insert hash value t
  = Done {| ref_ := <[Z.to_nat hash := value]> (ref_ t); hashBit_ := hashBit_ t |}.
Proof.
  intros Hlen Hh. unfold Table_Insert. rewrite bool_decide_eq_true_2 by lia. reflexivity.
Qed.

Lemma Table_Insert_length t hash value t' :
  Table_Insert hash value t = Done t' →
  length (ref_ t') = length (ref_ t) ∧ hashBit_ t' = hashBit_ t.
Proof.
  unfold Table_Insert. case_bool_decide; [| discriminate].
  intros [= <-]. cbn. by rewrite length_insert.
Qed.

Lemma Encoder_body_step shift st sample :
  Encoder_ok st →
  Encoder_load (Encoder_view st) < Z.of_nat (length (buffer_ (enc_repository st))) →
  ∃ st',
    Encoder_body shift st sample = Done st'
    ∧ Encoder_step shift (Encoder_view st) sample (Encoder_view st')
    ∧ Encoder_ok st'
    ∧ length (buffer_ (enc_repository st')) = length (buffer_ (enc_repository st)).
Proof.
  intros (Hrepo & Href & Hrl) Hroom.
  pose proof Hrepo as [Hc Htc].
  unfold Encoder_load, Encoder_view, encoded in Hroom. cbn in Hroom.
  rewrite written_length in Hroom by done.
  unfold Encoder_body. case_bool_decide as Hrun.
  { eexists. split; [reflexivity |]. split; [by apply step_run |].
    split; [| reflexivity]. repeat split; cbn; try done; lia. }
  destruct (Encoder_flush_run_spec st Hrl) as (digits & Hb & ->).
  pose proof (base8_length _ _ Hb) as Hdigits.
  cbn.
  set (current := BitShifter_Get shift sample) in *.
  destruct (Differential_IsValid differential_ _) eqn:Hvalid.
  { eexists. split; [reflexivity |].
    split; [apply (step_differential shift (Encoder_view st) sample digits); done |].
    split; [| reflexivity].
    repeat split; cbn; try done; try lia. rewrite !length_app. cbn. lia. }
  pose proof (Table_Hash_range (enc_table st) current) as Hhash.
  destruct (Table_Refer_Done (enc_table st) _ Href Hhash) as (referred & Hrefer).
  rewrite Hrefer. cbn. case_bool_decide as Hhit.
  { eexists. split; [reflexivity |].
    split; [apply (step_table shift (Encoder_view st) sample digits); try done;
            rewrite Hhit in Hrefer; exact Hrefer |].
    split; [| reflexivity].
    repeat split; cbn; try done; try lia. rewrite !length_app. cbn. lia. }
  rewrite (Table_Insert_Done _ _ _ Href Hhash). cbn.
  pose proof (pack_length (temp_ (enc_repository st) ++ digits)) as Hpack.
  rewrite length_app in Hpack.
  edestruct (SpeedFirstRepository_Set16_spec (Raw15bit_Get current))
    as (r' & Hset & Hwr & Ht & Htc' & Hc' & Hlen); [| | rewrite Hset].
  { split; cbn; [lia |]. rewrite length_app. lia. }
  { cbn. lia. }
  cbn. eexists. split; [reflexivity |]. cbn in Hwr, Hc', Hlen.
  split.
  { unfold Encoder_view at 2. cbn. unfold encoded. cbn. rewrite Ht, Hwr.
    eapply (step_raw shift (Encoder_view st) sample digits referred); try done.
    cbn. by apply Table_Insert_Done. }
  split; [| exact Hlen].
  repeat split; cbn; try done; try lia.
  - rewrite Ht, Htc'. reflexivity.
  - by rewrite length_insert.
Qed.

Lemma Encoder_step_load shift v sample v' :
  Encoder_step shift v sample v' →
  0 ≤ v_runLength v →
  Encoder_load v' ≤ Encoder_load v + 1 ∧ 0 ≤ v_runLength v'.
Proof.
  intros Hstep Hrl. unfold Encoder_load.
  destruct Hstep as [ | digits ? ? ? Hb | digits ? ? ? ? Hb | digits ? ? ? ? ? ? Hb]; cbn;
    try (pose proof (base8_length _ _ Hb));
    rewrite ?length_app; cbn; try lia.
  pose proof (pack_length (v_pending v ++ digits)) as Hpack.
  rewrite length_app in Hpack. lia.
Qed.

Lemma Encoder_steps_load shift v samples v' :
  Encoder_steps shift v samples v' →
  0 ≤ v_runLength v →
  Encoder_load v' ≤ Encoder_load v + Z.of_nat (length samples) ∧ 0 ≤ v_runLength v'.
Proof.
  induction 1 as [| v sample v1 samples v2 Hstep _ IH]; intros Hrl; cbn [length]; [lia |].
  destruct (Encoder_step_load _ _ _ _ Hstep Hrl) as [Hload Hrl1].
  specialize (IH Hrl1). lia.
Qed.

Lemma Encoder_loop_steps shift : ∀ buffer st,
  Encoder_ok st →
  Encoder_load (Encoder_view st) + Z.of_nat (length buffer)
  ≤ Z.of_nat (length (buffer_ (enc_repository st))) →
  ∃ st',
    Encoder_loop shift buffer st = Done st'
    ∧ Encoder_steps shift (Encoder_view st) buffer (Encoder_view st')
    ∧ Encoder_ok st'
    ∧ length (buffer_ (enc_repository st')) = length (buffer_ (enc_repository st)).
Proof.
  induction buffer as [| sample buffer IH]; intros st Hok Hroom.
  - exists st. repeat split; try apply Hok. constructor.
  - cbn [length] in Hroom.
    destruct (Encoder_body_step shift st sample Hok) as (st1 & Hbody & Hstep & Hok1 & Hlen1);
      [lia |].
    destruct (Encoder_step_load _ _ _ _ Hstep) as [Hload _]; [apply Hok |].
    destruct (IH st1 Hok1) as (st' & Hloop & Hsteps & Hok' & Hlen'); [rewrite Hlen1; lia |].
    exists st'. unfold Encoder_loop in *. cbn [for_each]. rewrite Hbody. cbn.
    split; [exact Hloop |]. split; [by econstructor |]. split; [exact Hok' | congruence].
Qed.

Lemma Encoder_init_view size :
  Encoder_view (Encoder_init size)
  = {| v_previous := 0xFFFF; v_runLength := 0; v_table := Table_new table_ 1;
       v_written := []; v_pending := [] |}.
Proof. reflexivity. Qed.

Lemma Encoder_init_ok size : Encoder_ok (Encoder_init size).
Proof.
  repeat split; cbn; try lia.
Qed.

(** The end of the constructor: the pending run and the final flush. *)
Lemma Encoder_finish st1 :
  Encoder_ok st1 →
  Encoder_load (Encoder_view st1) ≤ Z.of_nat (length (buffer_ (enc_repository st1))) →
  ∃ fin digits,
    (st ← Encoder_flush_run st1;
     repository' ← SpeedFirstRepository_Flush (enc_repository st);
     Done {| enc_previous := enc_previous st; enc_runLength := enc_runLength st;
             enc_table := enc_table st; enc_repository := repository' |}) = Done fin
    ∧ base8 (enc_runLength st1) digits
    ∧ encoded fin = encoded st1 ++ pack (temp_ (enc_repository st1) ++ digits)
    ∧ enc_table fin = enc_table st1
    ∧ repository_ok (enc_repository fin)
    ∧ length (buffer_ (enc_repository fin)) = length (buffer_ (enc_repository st1)).
Proof.
  intros (Hrepo & Href & Hrl) Hload. pose proof Hrepo as [Hc Htc].
  destruct (Encoder_flush_run_spec st1 Hrl) as (digits & Hb & ->). cbn.
  unfold Encoder_load in Hload. cbn in Hload.
  unfold encoded in Hload. rewrite written_length in Hload by done.
  pose proof (pack_length (temp_ (enc_repository st1) ++ digits)) as Hpack.
  rewrite length_app in Hpack.
  pose proof (base8_length _ _ Hb) as Hdigits.
  edestruct SpeedFirstRepository_Flush_spec as (r' & Hflush & Hwr & Ht & Htc' & Hc' & Hlen);
    [| | rewrite Hflush].
  { split; cbn; [exact Hc |]. rewrite length_app. lia. }
  { cbn. lia. }
  cbn. eexists _, digits. split; [reflexivity |].
  split; [exact Hb |]. cbn in Hwr, Hc', Hlen.
  split; [exact Hwr |]. split; [reflexivity |]. cbn.
  split; [| exact Hlen].
  split; [| by rewrite Ht, Htc']. rewrite Hc', Hlen. lia.
Qed.

(** The constructor of the encoder on [consumed ++ rest], with the state
    [est] the loop is in after [consumed]. *)
Lemma QOI15Encoder_app shift consumed rest :
  ∃ est fin v digits,
    Encoder_loop shift consumed (Encoder_init (Z.of_nat (length (consumed ++ rest)))) = Done est
    ∧ Encoder_steps shift
        (Encoder_view (Encoder_init (Z.of_nat (length (consumed ++ rest)))))
        consumed (Encoder_view est)
    ∧ Encoder_steps shift (Encoder_view est) rest v
    ∧ QOI15Encoder shift (consumed ++ rest) = Done fin
    ∧ base8 (v_runLength v) digits
    ∧ encoded fin = v_written v ++ pack (v_pending v ++ digits)
    ∧ enc_table fin = v_table v
    ∧ repository_ok (enc_repository fin)
    ∧ length (buffer_ (enc_repository fin)) = length (consumed ++ rest)
    ∧ Encoder_ok est
    ∧ length (buffer_ (enc_repository est)) = length (consumed ++ rest)
    ∧ Encoder_load (Encoder_view est) ≤ Z.of_nat (length consumed).
Proof.
  set (size := Z.of_nat (length (consumed ++ rest))).
  assert (length (buffer_ (enc_repository (Encoder_init size))) = length (consumed ++ rest))
    as Hcap by (cbn; rewrite length_replicate; lia).
  destruct (Encoder_loop_steps shift consumed (Encoder_init size))
    as (est & Hloop & Hsteps & Hok & Hlen).
  { apply Encoder_init_ok. }
  { rewrite Hcap, Encoder_init_view, length_app. unfold Encoder_load. cbn. lia. }
  destruct (Encoder_steps_load _ _ _ _ Hsteps) as [Hload _]; [cbn; lia |].
  rewrite Encoder_init_view in Hload. unfold Encoder_load at 2 in Hload. cbn in Hload.
  destruct (Encoder_loop_steps shift rest est Hok) as (st1 & Hloop1 & Hsteps1 & Hok1 & Hlen1).
  { rewrite Hlen, Hcap, length_app. lia. }
  destruct (Encoder_steps_load _ _ _ _ Hsteps1) as [Hload1 _]; [apply Hok |].
  destruct (Encoder_finish st1 Hok1) as (fin & digits & Hfin & Hb & Hwr & Htab & Hokf & Hlenf).
  { rewrite Hlen1, Hlen, Hcap, length_app. lia. }
  exists est, fin, (Encoder_view st1), digits.
  split; [exact Hloop |]. split; [exact Hsteps |]. split; [exact Hsteps1 |].
  split.
  { unfold QOI15Encoder, Encoder_loop in *. fold size.
    rewrite for_each_app, Hloop. cbn. rewrite Hloop1. exact Hfin. }
  split; [exact Hb |]. split; [exact Hwr |]. split; [exact Htab |].
  split; [exact Hokf |]. split; [congruence |]. split; [exact Hok |].
  split; [congruence | lia].
Qed.

(** The constructor of the encoder, through the view. *)
Lemma QOI15Encoder_spec shift buffer :
  ∃ st v digits,
    QOI15Encoder shift buffer = Done st
    ∧ Encoder_steps shift (Encoder_view (Encoder_init (Z.of_nat (length buffer)))) buffer v
    ∧ base8 (v_runLength v) digits
    ∧ encoded st = v_written v ++ pack (v_pending v ++ digits)
    ∧ enc_table st = v_table v
    ∧ repository_ok (enc_repository st)
    ∧ length (buffer_ (enc_repository st)) = length buffer.
Proof.
  destruct (QOI15Encoder_app shift buffer [])
    as (est & fin & v & digits & _ & Hsteps & Hnil & Hfin & Hb & Hwr & Htab & Hok & Hlen & _).
  rewrite app_nil_r in *. inversion Hnil; subst.
  by exists fin, (Encoder_view est), digits.
Qed.

(** C2. For every input (and every shift) the constructor of the encoder
    completes without a write outside [buffer_], which was constructed with
    [maxSize = size]: a write at a position outside the buffer is
    [Undefined] and the constructor is [Done].  The size it reports is at
    most the number of samples. *)
Theorem Encoder_output_fits (shift : Z) (buffer : list Z) :
  ∃ st,
    QOI15Encoder shift buffer = Done st
    ∧ length (buffer_ (enc_repository st)) = length buffer
    ∧ 0 ≤ snd (QOI15Encoder_Get st) ≤ Z.of_nat (length buffer)
    ∧ Z.of_nat (length (encoded st)) = snd (QOI15Encoder_Get st)
    ∧ (∀ value r, Z.of_nat (length (buffer_ r)) ≤ counter_ r →
                  buffer_write value r = Undefined).
Proof.
  destruct (QOI15Encoder_spec shift buffer)
    as (st & v & digits & Henc & Hsteps & Hb & Hwr & Htab & Hok & Hlen).
  exists st. split; [exact Henc |]. split; [exact Hlen |].
  pose proof Hok as [Hc _]. cbn. unfold SpeedFirstRepository_GetSize.
  split; [rewrite <- Hlen; exact Hc |].
  split; [by apply written_length | apply buffer_write_full].
Qed.

(** ** The two forms of a container *)

Lemma testbit_small a k n : 0 ≤ a < 2 ^ k → k ≤ n → Z.testbit a n = false.
Proof.
  intros Ha Hk. destruct (decide (a = 0)) as [-> | Hne]; [apply Z.bits_0 |].
  assert (0 ≤ k) by (destruct (Z.lt_ge_cases k 0) as [Hneg |]; [| lia];
                      rewrite (Z.pow_neg_r 2 k Hneg) in Ha; lia).
  apply Z.bits_above_log2; [lia |].
  assert (Z.log2 a < k) by (apply Z.log2_lt_pow2; lia). lia.
Qed.

Lemma Raw15bit_Get_bit15 value : Z.testbit (Raw15bit_Get value) 15 = true.
Proof.
  unfold Raw15bit_Get, to_uint16. change 65536 with (2 ^ 16).
  rewrite Z.mod_pow2_bits_low, Z.lor_spec by lia. reflexivity.
Qed.

Lemma Chunker_Set_bit15 first second third :
  0 ≤ first ≤ 0x1F → 0 ≤ second ≤ 0x1F → 0 ≤ third ≤ 0x1F →
  Z.testbit (Chunker_Set first second third) 15 = false.
Proof.
  intros H1 H2 H3. unfold Chunker_Set, to_uint16. change 65536 with (2 ^ 16).
  rewrite Z.mod_pow2_bits_low, !Z.lor_spec, !Z.shiftl_spec by lia.
  rewrite (testbit_small first 5), (testbit_small second 5), (testbit_small third 5);
    [reflexivity | | | | | |]; change (2 ^ 5) with 32; lia.
Qed.

Lemma Raw15bit_IsValid_testbit w : Raw15bit_IsValid w = Z.testbit w 15.
Proof.
  unfold Raw15bit_IsValid.
  assert (Z.land w 0x8000 = if Z.testbit w 15 then 0x8000 else 0) as ->.
  { apply Z.bits_inj'. intros n Hn. rewrite Z.land_spec.
    change 0x8000 with (2 ^ 15). rewrite Z.pow2_bits_eqb by lia.
    destruct (Z.eqb_spec 15 n) as [<- | Hne].
    - rewrite andb_true_r. destruct (Z.testbit w 15) eqn:Hw; [| by rewrite Z.bits_0].
      by rewrite Z.pow2_bits_eqb by lia.
    - rewrite andb_false_r.
      destruct (Z.testbit w 15); [| by rewrite Z.bits_0].
      rewrite Z.pow2_bits_eqb by lia. symmetry. by apply Z.eqb_neq. }
  destruct (Z.testbit w 15); by vm_compute.
Qed.

Lemma pack_form pending :
  Forall (λ x, 0 ≤ x ≤ 0x1F) pending → Forall is_packed_container (pack pending).
Proof.
  induction pending as [pending IH] using (induction_ltof1 _ (@length Z)).
  unfold ltof in IH. intros Hall.
  destruct pending as [| a [| b [| c rest]]]; cbn [pack]; [constructor | | |].
  - apply Forall_cons_1 in Hall as [Ha _]. repeat constructor.
    + apply Chunker_Set_bit15; lia.
    + exists a, 0, 0. repeat split; lia.
  - apply Forall_cons_1 in Hall as [Ha Hall]. apply Forall_cons_1 in Hall as [Hb _].
    repeat constructor.
    + apply Chunker_Set_bit15; lia.
    + exists a, b, 0. repeat split; lia.
  - apply Forall_cons_1 in Hall as [Ha Hall]. apply Forall_cons_1 in Hall as [Hb Hall].
    apply Forall_cons_1 in Hall as [Hc Hall].
    constructor; [| apply IH; [cbn; lia | exact Hall]].
    split; [apply Chunker_Set_bit15; lia |].
    exists a, b, c. repeat split; lia.
Qed.

(** The eight hashes, one goal for each. *)
Ltac hashes hash :=
  let Hcases := fresh "Hcases" in
  assert (hash = 0 ∨ hash = 1 ∨ hash = 2 ∨ hash = 3 ∨ hash = 4 ∨ hash = 5
          ∨ hash = 6 ∨ hash = 7) as Hcases by lia;
  repeat (destruct Hcases as [-> | Hcases]); try subst hash.

Lemma Table_Get_range hash : 0 ≤ hash < 8 → 8 ≤ Table_Get table_ hash < 16.
Proof.
  intros Hh.
  hashes hash; vm_compute; split; congruence.
Qed.

Lemma Table_Set_Get hash : 0 ≤ hash < 8 → Table_Set table_ (Table_Get table_ hash) = hash.
Proof.
  intros Hh.
  hashes hash; reflexivity.
Qed.

Lemma base8_sub_codewords n digits :
  base8 n digits → Forall (λ x, 0 ≤ x ≤ 0x1F) digits.
Proof.
  intros Hb. eapply Forall_impl; [by eapply base8_digits |]. cbn. lia.
Qed.

(** Every sub-codeword the encoder queues is at most [0x1F]. *)
Lemma Encoder_step_pending shift v sample v' :
  Encoder_step shift v sample v' →
  Forall (λ x, 0 ≤ x ≤ 0x1F) (v_pending v) →
  Forall (λ x, 0 ≤ x ≤ 0x1F) (v_pending v').
Proof.
  intros Hstep Hp.
  destruct Hstep as [ | digits current diff ? Hb Hvalid
                      | digits current diff hash ? Hb ? ?
                      | digits referred table' current diff hash ? Hb ? ? ? ?];
    cbn; try done.
  - apply Forall_app. split; [apply Forall_app; split; [done | by eapply base8_sub_codewords] |].
    constructor; [| constructor].
    apply Differential_IsValid_iff, Differential_Get_range in Hvalid. lia.
  - apply Forall_app. split; [apply Forall_app; split; [done | by eapply base8_sub_codewords] |].
    constructor; [| constructor].
    pose proof (Table_Get_range hash (Table_Hash_range _ _)). lia.
Qed.

Lemma Encoder_steps_pending shift v samples v' :
  Encoder_steps shift v samples v' →
  Forall (λ x, 0 ≤ x ≤ 0x1F) (v_pending v) →
  Forall (λ x, 0 ≤ x ≤ 0x1F) (v_pending v').
Proof.
  induction 1 as [| v sample v1 samples v2 Hstep _ IH]; [done |].
  intros Hok. apply IH. by eapply Encoder_step_pending.
Qed.

(** ** The decoder and its view *)

Lemma Table_Refer_at t hash :
  length (ref_ t) = 8%nat → 0 ≤ hash < 8 → Table_Refer t hash = Done (Table_at t hash).
Proof.
  intros Hlen Hh. unfold Table_Refer, Table_at.
  destruct (lookup_lt_is_Some_2 (ref_ t) (Z.to_nat hash)) as [v Hv]; [lia |].
  by rewrite Hv.
Qed.

Lemma Table_Refer_Done_at t hash v : Table_Refer t hash = Done v → Table_at t hash = v.
Proof.
  unfold Table_Refer, Table_at. destruct (ref_ t !! Z.to_nat hash); [| discriminate].
  by intros [= ->].
Qed.

Lemma Table_Insert_put t hash value t' :
  Table_Insert hash value t = Done t' → t' = Table_put hash value t.
Proof. unfold Table_Insert. case_bool_decide; [| discriminate]. by intros [= <-]. Qed.

Lemma Table_Set_range value : 0 ≤ Table_Set table_ value < 8.
Proof. unfold Table_Set. cbn [mask table_]. rewrite land_7. unfold to_uint8. zlia. Qed.

Lemma Set16_empty value r :
  repository_ok r → temp_ r = [] →
  counter_ r < Z.of_nat (length (buffer_ r)) →
  ∃ r', SpeedFirstRepository_Set16 value r = Done r'
        ∧ written r' = written r ++ [value]
        ∧ repository_ok r' ∧ temp_ r' = []
        ∧ length (buffer_ r') = length (buffer_ r).
Proof.
  intros Hok Htemp Hroom. pose proof Hok as [Hc Htc].
  destruct (SpeedFirstRepository_Set16_spec value r Hok)
    as (r' & Hset & Hwr & Ht & Htc' & Hc' & Hlen); [rewrite Htemp; cbn; lia |].
  rewrite Htemp in Hwr, Hc'. cbn in Hwr, Hc'.
  exists r'. split; [exact Hset |]. split; [exact Hwr |].
  split; [| split; [exact Ht | exact Hlen]].
  split; [rewrite Hlen; lia | by rewrite Ht, Htc'].
Qed.

Lemma Set16_times_spec n : ∀ value r,
  repository_ok r → temp_ r = [] →
  counter_ r + Z.of_nat n ≤ Z.of_nat (length (buffer_ r)) →
  ∃ r', Set16_times n value r = Done r'
        ∧ written r' = written r ++ replicate n value
        ∧ repository_ok r' ∧ temp_ r' = []
        ∧ length (buffer_ r') = length (buffer_ r).
Proof.
  induction n as [| n IH]; intros value r Hok Htemp Hroom.
  - exists r. cbn. by rewrite app_nil_r.
  - destruct (Set16_empty value r Hok Htemp) as (r1 & Hset & Hwr & Hok1 & Ht1 & Hlen1); [lia |].
    pose proof (written_length r Hok) as Hl. pose proof (written_length r1 Hok1) as Hl1.
    rewrite Hwr, length_app in Hl1. cbn in Hl1.
    destruct (IH value r1 Hok1 Ht1) as (r' & Htimes & Hwr' & Hok' & Ht' & Hlen');
      [rewrite Hlen1; lia |].
    exists r'. cbn [Set16_times]. rewrite Hset. cbn.
    split; [exact Htimes |]. split; [| split; [exact Hok' | split; [exact Ht' | congruence]]].
    rewrite Hwr', Hwr, <- app_assoc. reflexivity.
Qed.

Ltac view_eq H :=
  unfold Decoder_view; cbn [dec_previous dec_table dec_runLengthValues];
  f_equal; try reflexivity; exact H.

Lemma decoded_length st :
  Decoder_ok st → Z.of_nat (length (decoded st)) = counter_ (dec_repository st).
Proof. intros (Hok & _). by apply written_length. Qed.

Lemma Decoder_flush_run_spec st :
  Decoder_ok st →
  (length (d_output (view_flush_run (Decoder_view st)))
   ≤ length (buffer_ (dec_repository st)))%nat →
  ∃ st', Decoder_flush_run st = Done st'
         ∧ Decoder_view st' = view_flush_run (Decoder_view st)
         ∧ Decoder_ok st' ∧ Decoder_frame st st'.
Proof.
  intros Hok Hcap. pose proof (decoded_length st Hok) as Hl.
  destruct Hok as (Hrepo & Htemp & Href).
  unfold Decoder_flush_run, view_flush_run in *. cbn in *.
  case_bool_decide as Hpending.
  - cbn in Hcap. rewrite length_app, length_replicate in Hcap.
    destruct (Set16_times_spec (Z.to_nat (RunLength_Set runLength_ (dec_runLengthValues st)))
                (BitShifter_Set 1 (dec_previous st)) (dec_repository st) Hrepo Htemp)
      as (r' & Htimes & Hwr & Hok' & Ht' & Hlen'); [lia |].
    rewrite Htimes. cbn. eexists. split; [reflexivity |].
    split; [by view_eq Hwr |].
    split; by (split; [| split]).
  - exists st. split; [reflexivity |]. split; [reflexivity |]. split; by (split; [| split]).
Qed.

Ltac decide_headers :=
  unfold RunLength_CheckHeader, Differential_CheckHeader, Table_CheckHeader;
  rewrite CheckHeader_runLength, CheckHeader_differential, CheckHeader_table;
  repeat (first [rewrite bool_decide_eq_true_2 by lia
                | rewrite bool_decide_eq_false_2 by lia]).

Lemma view_leftover_run value d :
  0 ≤ value < 8 →
  view_leftover value d
  = {| d_previous := d_previous d; d_table := d_table d;
       d_runLengthValues := d_runLengthValues d ++ [value];
       d_output := d_output d |}.
Proof. intros Hv. unfold view_leftover. decide_headers. reflexivity. Qed.

Lemma view_leftover_differential value d :
  16 ≤ value < 32 →
  view_leftover value d
  = let d := view_flush_run d in
    let current := Differential_Add (d_previous d) (Differential_Set differential_ value) in
    {| d_previous := current; d_table := d_table d;
       d_runLengthValues := d_runLengthValues d;
       d_output := d_output d ++ [BitShifter_Set 1 current] |}.
Proof. intros Hv. unfold view_leftover. decide_headers. reflexivity. Qed.

Lemma view_leftover_table value d :
  8 ≤ value < 16 →
  view_leftover value d
  = let d := view_flush_run d in
    let current := Table_at (d_table d) (Table_Set table_ value) in
    {| d_previous := current; d_table := d_table d;
       d_runLengthValues := d_runLengthValues d;
       d_output := d_output d ++ [BitShifter_Set 1 current] |}.
Proof. intros Hv. unfold view_leftover. decide_headers. reflexivity. Qed.

Lemma view_leftover_other value d :
  ¬ 0 ≤ value < 32 → view_leftover value d = view_flush_run d.
Proof. intros Hv. unfold view_leftover. decide_headers. reflexivity. Qed.

Lemma Decoder_leftover_run value st :
  0 ≤ value < 8 →
  Decoder_leftover value st
  = Done {| dec_counter := dec_counter st; dec_previous := dec_previous st;
            dec_leftovers := dec_leftovers st;
            dec_runLengthValues := dec_runLengthValues st ++ [value];
            dec_table := dec_table st; dec_repository := dec_repository st |}.
Proof. intros Hv. unfold Decoder_leftover. decide_headers. reflexivity. Qed.

Lemma Decoder_leftover_differential value st :
  16 ≤ value < 32 →
  Decoder_leftover value st
  = (st ← Decoder_flush_run st;
     let current := Differential_Add (dec_previous st) (Differential_Set differential_ value) in
     repository' ← SpeedFirstRepository_Set16 (BitShifter_Set 1 current) (dec_repository st);
     Done {| dec_counter := dec_counter st; dec_previous := current;
             dec_leftovers := dec_leftovers st;
             dec_runLengthValues := dec_runLengthValues st;
             dec_table := dec_table st; dec_repository := repository' |}).
Proof.
  intros Hv. unfold Decoder_leftover. decide_headers.
  destruct (Decoder_flush_run st) as [st1 | |]; cbn; [| reflexivity | reflexivity].
  destruct (SpeedFirstRepository_Set16 _ _); reflexivity.
Qed.

Lemma Decoder_leftover_table value st :
  8 ≤ value < 16 →
  Decoder_leftover value st
  = (st ← Decoder_flush_run st;
     current ← Table_Refer (dec_table st) (Table_Set table_ value);
     repository' ← SpeedFirstRepository_Set16 (BitShifter_Set 1 current) (dec_repository st);
     Done {| dec_counter := dec_counter st; dec_previous := current;
             dec_leftovers := dec_leftovers st;
             dec_runLengthValues := dec_runLengthValues st;
             dec_table := dec_table st; dec_repository := repository' |}).
Proof.
  intros Hv. unfold Decoder_leftover. decide_headers.
  destruct (Decoder_flush_run st) as [st1 | |]; reflexivity.
Qed.

Lemma Decoder_leftover_other value st :
  ¬ 0 ≤ value < 32 → Decoder_leftover value st = Decoder_flush_run st.
Proof.
  intros Hv. unfold Decoder_leftover. decide_headers.
  destruct (Decoder_flush_run st) as [st1 | |]; reflexivity.
Qed.

Lemma Decoder_leftover_spec value st :
  Decoder_ok st →
  (length (d_output (view_leftover value (Decoder_view st)))
   ≤ length (buffer_ (dec_repository st)))%nat →
  ∃ st', Decoder_leftover value st = Done st'
         ∧ Decoder_view st' = view_leftover value (Decoder_view st)
         ∧ Decoder_ok st' ∧ Decoder_frame st st'.
Proof.
  intros Hok Hcap.
  destruct (decide (0 ≤ value < 8)) as [Hrl | Hrl].
  { rewrite Decoder_leftover_run, view_leftover_run by done.
    eexists. split; [reflexivity |]. split; [reflexivity |].
    split; [apply Hok | by (split; [| split])]. }
  assert (∃ st1, Decoder_flush_run st = Done st1
                 ∧ Decoder_view st1 = view_flush_run (Decoder_view st)
                 ∧ Decoder_ok st1 ∧ Decoder_frame st st1)
    as (st1 & Hflush & Hview & Hok1 & Hframe).
  { apply Decoder_flush_run_spec; [exact Hok |].
    destruct (decide (16 ≤ value < 32)); [| destruct (decide (8 ≤ value < 16))].
    - rewrite view_leftover_differential in Hcap by done. cbn in Hcap.
      rewrite length_app in Hcap. lia.
    - rewrite view_leftover_table in Hcap by done. cbn in Hcap.
      rewrite length_app in Hcap. lia.
    - rewrite view_leftover_other in Hcap by lia. exact Hcap. }
  destruct Hframe as (Hlen & Hcounter & Hleft).
  pose proof (decoded_length st1 Hok1) as Hl.
  rewrite <- Hlen in Hcap.
  destruct Hok1 as (Hrepo & Htemp & Href).
  destruct (decide (16 ≤ value < 32)) as [Hdiff | Hdiff];
    [| destruct (decide (8 ≤ value < 16)) as [Htable | Htable]].
  - rewrite Decoder_leftover_differential, view_leftover_differential, Hflush by done.
    rewrite view_leftover_differential, <- Hview in Hcap by done.
    rewrite <- Hview. cbn in Hcap |- *. rewrite length_app in Hcap. cbn in Hcap.
    edestruct (Set16_empty) as (r' & Hset & Hwr & Hok' & Ht' & Hlen');
      [exact Hrepo | exact Htemp | | rewrite Hset]; [lia |].
    cbn. eexists. split; [reflexivity |].
    split; [by view_eq Hwr |].
    split; [by (split; [| split]) | split; [| split]; cbn; congruence].
  - rewrite Decoder_leftover_table, view_leftover_table, Hflush by done.
    rewrite view_leftover_table, <- Hview in Hcap by done.
    rewrite <- Hview. cbn in Hcap |- *. rewrite length_app in Hcap. cbn in Hcap.
    rewrite (Table_Refer_at _ _ Href (Table_Set_range value)). cbn.
    edestruct (Set16_empty) as (r' & Hset & Hwr & Hok' & Ht' & Hlen');
      [exact Hrepo | exact Htemp | | rewrite Hset]; [lia |].
    cbn. eexists. split; [reflexivity |].
    split; [by view_eq Hwr |].
    split; [by (split; [| split]) | split; [| split]; cbn; congruence].
  - rewrite Decoder_leftover_other, view_leftover_other, Hflush by lia.
    exists st1. split; [reflexivity |]. split; [exact Hview |].
    split; by (split; [| split]).
Qed.

Lemma Decoder_literal_spec value st :
  Decoder_ok st →
  (length (d_output (view_literal value (Decoder_view st)))
   ≤ length (buffer_ (dec_repository st)))%nat →
  ∃ st', Decoder_literal value st = Done st'
         ∧ Decoder_view st' = view_literal value (Decoder_view st)
         ∧ Decoder_ok st' ∧ Decoder_frame st st'.
Proof.
  intros Hok Hcap.
  unfold Decoder_literal, view_literal in *. cbn in Hcap.
  rewrite length_app in Hcap. cbn in Hcap.
  destruct (Decoder_flush_run_spec st Hok) as (st1 & -> & Hview & Hok1 & Hframe); [lia |].
  rewrite <- Hview in Hcap |- *. clear Hview.
  destruct Hframe as (Hlen & Hcounter & Hleft).
  pose proof (decoded_length st1 Hok1) as Hl.
  cbn in Hcap |- *. rewrite <- Hlen in Hcap.
  destruct Hok1 as (Hrepo & Htemp & Href).
  rewrite (Table_Insert_Done _ _ _ Href (Table_Hash_range _ _)). cbn.
  edestruct (Set16_empty) as (r' & Hset & Hwr & Hok' & Ht' & Hlen');
    [exact Hrepo | exact Htemp | | rewrite Hset]; [lia |].
  cbn. eexists. split; [reflexivity |].
  split; [by view_eq Hwr |].
  split; [split; [| split]; cbn; try done; by rewrite length_insert
         | split; [| split]; cbn; congruence].
Qed.

(** The output of the decoder only grows. *)
Lemma view_flush_run_grows d :
  (length (d_output d) ≤ length (d_output (view_flush_run d)))%nat.
Proof.
  unfold view_flush_run. case_bool_decide; cbn; [rewrite length_app |]; lia.
Qed.

Lemma view_leftover_grows value d :
  (length (d_output d) ≤ length (d_output (view_leftover value d)))%nat.
Proof.
  pose proof (view_flush_run_grows d).
  destruct (decide (0 ≤ value < 8)); [by rewrite view_leftover_run |].
  destruct (decide (16 ≤ value < 32)).
  { rewrite view_leftover_differential by done. cbn. rewrite length_app. lia. }
  destruct (decide (8 ≤ value < 16)).
  { rewrite view_leftover_table by done. cbn. rewrite length_app. lia. }
  rewrite view_leftover_other by lia. done.
Qed.

Lemma view_leftovers_grows leftovers : ∀ d,
  (length (d_output d) ≤ length (d_output (view_leftovers leftovers d)))%nat.
Proof.
  induction leftovers as [| value leftovers IH]; intros d; [done |].
  cbn. etrans; [apply (view_leftover_grows value) | apply IH].
Qed.

Lemma view_literal_grows value d :
  (length (d_output d) ≤ length (d_output (view_literal value d)))%nat.
Proof.
  pose proof (view_flush_run_grows d).
  unfold view_literal. cbn. rewrite length_app. lia.
Qed.

Lemma view_word_grows value d :
  (length (d_output d) ≤ length (d_output (view_word value d)))%nat.
Proof.
  unfold view_word. destruct (Raw15bit_IsValid value); [apply view_literal_grows |].
  destruct (Chunker_Get value) as [[first second] third]. apply view_leftovers_grows.
Qed.

Lemma view_words_grows buffer : ∀ d,
  (length (d_output d) ≤ length (d_output (view_words buffer d)))%nat.
Proof.
  induction buffer as [| value buffer IH]; intros d; [done |].
  cbn. etrans; [apply (view_word_grows value) | apply IH].
Qed.

Lemma Decoder_loop_spec fuel : ∀ buffer st,
  Decoder_ok st →
  0 ≤ dec_counter st ≤ Z.of_nat (length buffer) →
  (4 * (length buffer - Z.to_nat (dec_counter st)) + length (dec_leftovers st) ≤ fuel)%nat →
  (length (d_output (view_words (drop (Z.to_nat (dec_counter st)) buffer)
                       (view_leftovers (dec_leftovers st) (Decoder_view st))))
   ≤ length (buffer_ (dec_repository st)))%nat →
  ∃ st', Decoder_loop fuel buffer st = Done st'
         ∧ Decoder_view st'
           = view_words (drop (Z.to_nat (dec_counter st)) buffer)
               (view_leftovers (dec_leftovers st) (Decoder_view st))
         ∧ Decoder_ok st'
         ∧ length (buffer_ (dec_repository st')) = length (buffer_ (dec_repository st)).
Proof.
  induction fuel as [| fuel IH]; intros buffer st Hok Hcounter Hfuel Hcap.
  - destruct (dec_leftovers st) as [| value leftovers] eqn:Hleft; [| cbn in Hfuel; lia].
    cbn [Decoder_loop]. rewrite Hleft.
    rewrite !bool_decide_eq_false_2 by (cbn; lia). cbn.
    exists st. rewrite drop_ge by lia.
    split; [reflexivity | split; [reflexivity | split; [exact Hok | reflexivity]]].
  - cbn [Decoder_loop].
    destruct (dec_leftovers st) as [| value leftovers] eqn:Hleft.
    + destruct (decide (dec_counter st < Z.of_nat (length buffer))) as [Hmore | Hend].
      * rewrite bool_decide_eq_true_2 by done. cbn [orb].
        unfold Decoder_body. rewrite Hleft.
        destruct (lookup_lt_is_Some_2 buffer (Z.to_nat (dec_counter st))) as [value Hvalue];
          [lia |].
        rewrite Hvalue. rewrite (drop_S _ _ _ Hvalue) in Hcap |- *.
        cbn [view_leftovers view_words fold_left] in Hcap |- *.
        fold (view_words (drop (S (Z.to_nat (dec_counter st))) buffer)) in Hcap |- *.
        set (st0 := {| dec_counter := dec_counter st + 1; dec_previous := dec_previous st;
                       dec_leftovers := []; dec_runLengthValues := dec_runLengthValues st;
                       dec_table := dec_table st; dec_repository := dec_repository st |}).
        assert (Decoder_ok st0) as Hok0 by exact Hok.
        unfold view_word in Hcap |- *.
        destruct (Raw15bit_IsValid value).
        -- destruct (Decoder_literal_spec value st0 Hok0)
             as (st1 & Hlit & Hview & Hok1 & Hlen & Hc1 & Hl1).
           { etrans; [apply view_words_grows | exact Hcap]. }
           rewrite Hlit. cbn.
           destruct (IH buffer st1 Hok1) as (st' & Hloop & Hview' & Hok' & Hlen').
           { rewrite Hc1. cbn. lia. }
           { rewrite Hc1, Hl1. cbn. lia. }
           { rewrite Hc1, Hl1, Hview, Hlen. cbn.
             replace (Z.to_nat (dec_counter st + 1)) with (S (Z.to_nat (dec_counter st))) by lia.
             exact Hcap. }
           exists st'. split; [exact Hloop |].
           rewrite Hview', Hc1, Hl1, Hview. cbn.
           replace (Z.to_nat (dec_counter st + 1)) with (S (Z.to_nat (dec_counter st))) by lia.
           split; [reflexivity |]. split; [exact Hok' | by rewrite Hlen', Hlen].
        -- destruct (Chunker_Get value) as [[first second] third].
           cbn.
           set (st1 := {| dec_counter := dec_counter st + 1; dec_previous := dec_previous st;
                          dec_leftovers := [first; second; third];
                          dec_runLengthValues := dec_runLengthValues st;
                          dec_table := dec_table st; dec_repository := dec_repository st |}).
           destruct (IH buffer st1 Hok) as (st' & Hloop & Hview' & Hok' & Hlen').
           { cbn. lia. }
           { cbn. lia. }
           { cbn [st1 dec_counter dec_leftovers dec_repository].
             replace (Z.to_nat (dec_counter st + 1)) with (S (Z.to_nat (dec_counter st))) by lia.
             exact Hcap. }
           exists st'. split; [exact Hloop |].
           rewrite Hview'. cbn [st1 dec_counter dec_leftovers dec_repository].
           replace (Z.to_nat (dec_counter st + 1)) with (S (Z.to_nat (dec_counter st))) by lia.
           split; [reflexivity |]. split; [exact Hok' | exact Hlen'].
      * rewrite !bool_decide_eq_false_2 by (cbn; lia). cbn.
        exists st. rewrite drop_ge by lia.
    split; [reflexivity | split; [reflexivity | split; [exact Hok | reflexivity]]].
    + rewrite (bool_decide_eq_true_2 (0 < _)%nat) by (cbn; lia). rewrite orb_true_r.
      unfold Decoder_body. rewrite Hleft.
      set (st0 := {| dec_counter := dec_counter st; dec_previous := dec_previous st;
                     dec_leftovers := leftovers; dec_runLengthValues := dec_runLengthValues st;
                     dec_table := dec_table st; dec_repository := dec_repository st |}).
      assert (Decoder_ok st0) as Hok0 by exact Hok.
      cbn [view_leftovers fold_left] in Hcap |- *.
      fold (view_leftovers leftovers) in Hcap |- *.
      destruct (Decoder_leftover_spec value st0 Hok0)
        as (st1 & Hsub & Hview & Hok1 & Hlen & Hc1 & Hl1).
      { etrans; [apply view_leftovers_grows |]. etrans; [apply view_words_grows | exact Hcap]. }
      rewrite Hsub. cbn.
      destruct (IH buffer st1 Hok1) as (st' & Hloop & Hview' & Hok' & Hlen').
      { rewrite Hc1. cbn. lia. }
      { rewrite Hc1, Hl1. cbn in Hfuel |- *. lia. }
      { rewrite Hc1, Hl1, Hview, Hlen. exact Hcap. }
      exists st'. split; [exact Hloop |].
      rewrite Hview', Hc1, Hl1, Hview.
      split; [reflexivity |]. split; [exact Hok' | by rewrite Hlen', Hlen].
Qed.

Lemma Decoder_init_view outputSize : Decoder_view (Decoder_init outputSize) = view_init.
Proof. reflexivity. Qed.

Lemma Decoder_init_ok outputSize : Decoder_ok (Decoder_init outputSize).
Proof. repeat split; cbn; lia. Qed.

(** The loop of the decoder over a whole stream, when the samples fit. *)
Lemma Decoder_loop_complete buffer outputSize :
  (length (d_output (view_words buffer view_init)) ≤ Z.to_nat outputSize)%nat →
  ∃ st, Decoder_loop (4 * length buffer) buffer (Decoder_init outputSize) = Done st
        ∧ Decoder_view st = view_words buffer view_init
        ∧ Decoder_ok st
        ∧ length (buffer_ (dec_repository st)) = Z.to_nat outputSize.
Proof.
  intros Hcap.
  destruct (Decoder_loop_spec (4 * length buffer) buffer (Decoder_init outputSize))
    as (st & Hloop & Hview & Hok & Hlen).
  - apply Decoder_init_ok.
  - cbn. lia.
  - cbn. lia.
  - cbn. rewrite length_replicate. exact Hcap.
  - exists st. split; [exact Hloop |]. split; [exact Hview |]. split; [exact Hok |].
    rewrite Hlen. cbn. apply length_replicate.
Qed.

(** The constructor of the decoder, when the samples fit. *)
Lemma QOI15Decoder_spec buffer outputSize :
  (length (Decoder_samples buffer) ≤ Z.to_nat outputSize)%nat →
  ∃ st, QOI15Decoder buffer outputSize = Done st
        ∧ decoded st = Decoder_samples buffer
        ∧ snd (QOI15Decoder_Get st) = Z.of_nat (length (Decoder_samples buffer))
        ∧ dec_table st = d_table (view_words buffer view_init).
Proof.
  intros Hcap. unfold Decoder_samples in *.
  destruct (Decoder_loop_complete buffer outputSize) as (st1 & Hloop & Hview & Hok1 & Hlen1).
  { etrans; [apply view_flush_run_grows | exact Hcap]. }
  unfold QOI15Decoder. rewrite Hloop. cbn.
  destruct (Decoder_flush_run_spec st1 Hok1) as (st & Hflush & Hview' & Hok & Hframe).
  { rewrite Hview, Hlen1. exact Hcap. }
  exists st. split; [exact Hflush |].
  rewrite <- Hview, <- Hview'.
  split; [reflexivity |]. split; [symmetry; by apply decoded_length |].
  change (dec_table st) with (d_table (Decoder_view st)). rewrite Hview'.
  unfold view_flush_run. by case_bool_decide.
Qed.

(** C3 as stated fails: on a stream that ends after one sample while three
    are expected, and on the empty stream while one is expected, the
    constructor of the decoder returns normally and reports fewer samples
    than [outputSize]; nothing signals an error. *)
Lemma Decoder_returns_short_output :
  (∃ st, QOI15Decoder [0x8005] 3 = Done st
         ∧ Decoder_samples [0x8005] = [10]
         ∧ decoded st = [10]
         ∧ snd (QOI15Decoder_Get st) = 1
         ∧ snd (QOI15Decoder_Get st) < 3)
  ∧ (∃ st, QOI15Decoder [] 1 = Done st ∧ snd (QOI15Decoder_Get st) = 0).
Proof. split; eexists; repeat split; vm_compute; reflexivity. Qed.

(** C3 (as amended). When the words of the stream are exhausted (and the
    leftovers drained) before [outputSize] samples have been produced, the
    constructor of the decoder returns normally: it has written the samples
    the stream decodes to and [Get] reports their number, which is less than
    [outputSize]. *)
Theorem Decoder_short_stream (buffer : list Z) (outputSize : Z)
  (Hshort : Z.of_nat (length (Decoder_samples buffer)) < outputSize) :
  ∃ st,
    QOI15Decoder buffer outputSize = Done st
    ∧ decoded st = Decoder_samples buffer
    ∧ snd (QOI15Decoder_Get st) = Z.of_nat (length (Decoder_samples buffer))
    ∧ snd (QOI15Decoder_Get st) < outputSize.
Proof.
  destruct (QOI15Decoder_spec buffer outputSize) as (st & Hdec & Hout & Hsize & _); [lia |].
  exists st. rewrite Hsize. by repeat split.
Qed.

Lemma Decoder_short_stream_witness :
  Z.of_nat (length (Decoder_samples [0x8005])) < 3
  ∧ ∃ st, QOI15Decoder [0x8005] 3 = Done st ∧ snd (QOI15Decoder_Get st) = 1.
Proof.
  assert (Z.of_nat (length (Decoder_samples [0x8005])) < 3) as H by (vm_compute; reflexivity).
  split; [exact H |].
  destruct (Decoder_short_stream [0x8005] 3 H) as (st & Hdec & _ & Hsize & _).
  exists st. split; [exact Hdec | exact Hsize].
Defined.

(** ** Encoder and decoder side by side *)

Lemma BitShifter_Get_range shift sample :
  1 ≤ shift → 0 ≤ sample < 65536 → 0 ≤ BitShifter_Get shift sample ≤ 0x7FFF.
Proof.
  intros Hs Hy. unfold BitShifter_Get, to_uint16. rewrite Z.shiftr_div_pow2 by lia.
  assert (2 ^ 1 ≤ 2 ^ shift) as Hpow by (apply Z.pow_le_mono_r; lia).
  change (2 ^ 1) with 2 in Hpow.
  assert (0 ≤ sample / 2 ^ shift) by (apply Z.div_pos; lia).
  assert (sample / 2 ^ shift ≤ sample / 2) by (apply Z.div_le_compat_l; lia).
  zlia.
Qed.

Lemma Raw15bit_Get_value c : 0 ≤ c < 0x8000 → Raw15bit_Get c = 0x8000 + c.
Proof.
  intros Hc. unfold Raw15bit_Get. rewrite Z.lor_comm.
  change 0x8000 with (Z.shiftl 1 15) at 1.
  rewrite lor_disjoint by (change (2 ^ 15) with 32768; lia).
  change (2 ^ 15) with 32768. unfold to_uint16. zlia.
Qed.

Lemma Raw15bit_Set_Get c : 0 ≤ c < 0x8000 → Raw15bit_Set (Raw15bit_Get c) = c.
Proof.
  intros Hc. rewrite Raw15bit_Get_value by done. unfold Raw15bit_Set.
  rewrite Z.land_comm, land_32767. unfold to_uint16. zlia.
Qed.

Lemma Chunker_Set_value a b c :
  0 ≤ a ≤ 0x1F → 0 ≤ b ≤ 0x1F → 0 ≤ c ≤ 0x1F →
  Chunker_Set a b c = a + 32 * b + 1024 * c.
Proof.
  intros Ha Hb Hc. unfold Chunker_Set.
  rewrite (lor_disjoint a b 5) by (change (2 ^ 5) with 32; lia).
  rewrite lor_disjoint by (change (2 ^ 5) with 32; change (2 ^ 10) with 1024; lia).
  change (2 ^ 5) with 32. change (2 ^ 10) with 1024. unfold to_uint16. zlia.
Qed.

Lemma Chunker_Get_Set a b c :
  0 ≤ a ≤ 0x1F → 0 ≤ b ≤ 0x1F → 0 ≤ c ≤ 0x1F →
  Chunker_Get (Chunker_Set a b c) = (a, b, c).
Proof.
  intros Ha Hb Hc. rewrite Chunker_Set_value by done. unfold Chunker_Get.
  rewrite !land_31, !Z.shiftr_div_pow2 by lia.
  change (2 ^ 5) with 32. change (2 ^ 10) with 1024. unfold to_uint8.
  f_equal; [f_equal |]; zlia.
Qed.

Lemma view_leftovers_app l1 l2 d :
  view_leftovers (l1 ++ l2) d = view_leftovers l2 (view_leftovers l1 d).
Proof. apply fold_left_app. Qed.

Lemma view_words_app l1 l2 d :
  view_words (l1 ++ l2) d = view_words l2 (view_words l1 d).
Proof. apply fold_left_app. Qed.

Lemma view_word_packed a b c d :
  0 ≤ a ≤ 0x1F → 0 ≤ b ≤ 0x1F → 0 ≤ c ≤ 0x1F →
  view_word (Chunker_Set a b c) d = view_leftovers [a; b; c] d.
Proof.
  intros Ha Hb Hc. unfold view_word.
  rewrite Raw15bit_IsValid_testbit, Chunker_Set_bit15, Chunker_Get_Set by done.
  reflexivity.
Qed.

Lemma view_word_literal c d :
  view_word (Raw15bit_Get c) d = view_literal (Raw15bit_Get c) d.
Proof.
  unfold view_word. by rewrite Raw15bit_IsValid_testbit, Raw15bit_Get_bit15.
Qed.

(** Decoding the containers of a flush is decoding the sub-codewords that
    were pending, followed by the zeros of the padding. *)
Lemma view_words_pack pending : ∀ d,
  Forall (λ x, 0 ≤ x ≤ 0x1F) pending →
  ∃ k, view_words (pack pending) d = view_leftovers (pending ++ replicate k 0) d.
Proof.
  induction pending as [pending IH] using (induction_ltof1 _ (@length Z)).
  unfold ltof in IH. intros d Hall.
  destruct pending as [| a [| b [| c rest]]].
  - by exists 0%nat.
  - apply Forall_cons_1 in Hall as [Ha _].
    exists 2%nat. cbn [pack view_words fold_left]. by rewrite view_word_packed by lia.
  - apply Forall_cons_1 in Hall as [Ha Hall]. apply Forall_cons_1 in Hall as [Hb _].
    exists 1%nat. cbn [pack view_words fold_left]. by rewrite view_word_packed by lia.
  - apply Forall_cons_1 in Hall as [Ha Hall]. apply Forall_cons_1 in Hall as [Hb Hall].
    apply Forall_cons_1 in Hall as [Hc Hall].
    destruct (IH rest ltac:(cbn; lia) (view_leftovers [a; b; c] d) Hall) as [k Hk].
    exists k. cbn [pack view_words fold_left]. rewrite view_word_packed by lia.
    exact Hk.
Qed.

Lemma view_leftovers_run l : ∀ d,
  Forall (λ x, 0 ≤ x < 8) l →
  view_leftovers l d
  = {| d_previous := d_previous d; d_table := d_table d;
       d_runLengthValues := d_runLengthValues d ++ l; d_output := d_output d |}.
Proof.
  induction l as [| x l IH]; intros d Hall.
  - cbn. rewrite app_nil_r. by destruct d.
  - apply Forall_cons_1 in Hall as [Hx Hall].
    cbn [view_leftovers fold_left]. rewrite view_leftover_run by done.
    fold (view_leftovers l). rewrite IH by done. cbn. by rewrite <- app_assoc.
Qed.

Lemma flush_after_digits n digits k p t out :
  base8 n digits →
  view_flush_run
    (view_leftovers (digits ++ replicate k 0)
       {| d_previous := p; d_table := t; d_runLengthValues := []; d_output := out |})
  = {| d_previous := p; d_table := t; d_runLengthValues := [];
       d_output := out ++ replicate (Z.to_nat n) (BitShifter_Set 1 p) |}.
Proof.
  intros Hb. rewrite view_leftovers_run.
  2: { apply Forall_app. split; [by eapply base8_digits |].
       apply Forall_replicate. lia. }
  unfold view_flush_run. cbn. case_bool_decide as Hlen.
  - by rewrite RunLength_Set_padding, (RunLength_Set_base8 n digits).
  - rewrite length_app, length_replicate in Hlen.
    destruct digits; [| cbn in Hlen; lia]. destruct k; [| cbn in Hlen; lia].
    apply base8_nil in Hb as ->. cbn. by rewrite app_nil_r.
Qed.

Lemma flush_after_digits_only n digits p t out :
  base8 n digits →
  view_flush_run
    (view_leftovers digits
       {| d_previous := p; d_table := t; d_runLengthValues := []; d_output := out |})
  = {| d_previous := p; d_table := t; d_runLengthValues := [];
       d_output := out ++ replicate (Z.to_nat n) (BitShifter_Set 1 p) |}.
Proof.
  intros Hb. rewrite <- (flush_after_digits n digits 0 p t out Hb).
  cbn [replicate]. by rewrite app_nil_r.
Qed.

Lemma run_reconstructed shift p run :
  Forall (λ sample, BitShifter_Get shift sample = p) run →
  reconstructed shift <$> run = replicate (length run) (BitShifter_Set 1 p).
Proof.
  induction 1 as [| sample run Hs _ IH]; [reflexivity |].
  cbn. unfold reconstructed at 1. by rewrite Hs, IH.
Qed.

Lemma in_sync_init shift size : in_sync shift [] (Encoder_view (Encoder_init size)).
Proof.
  exists [], []. rewrite Encoder_init_view. cbn.
  split; [reflexivity |]. split; [reflexivity |]. split; [constructor |].
  split; [reflexivity |]. split; [reflexivity | constructor].
Qed.

Lemma Encoder_step_sync shift consumed v sample v' :
  1 ≤ shift → 0 ≤ sample < 65536 →
  Encoder_step shift v sample v' →
  in_sync shift consumed v →
  in_sync shift (consumed ++ [sample]) v'.
Proof.
  intros Hshift Hsample Hstep (emitted & run & -> & Hlen & Hrun & Hview & Href & Hpending).
  pose proof (BitShifter_Get_range shift sample Hshift Hsample) as Hcur.
  pose proof (run_reconstructed shift _ run Hrun) as Hrec.
  destruct Hstep as [Heq
                    | digits current diff Hne Hb Hvalid
                    | digits current diff hash Hne Hb Hinvalid Hrefer
                    | digits referred table' current diff hash Hne Hb Hinvalid Hrefer Hmiss Hins];
    try rewrite <- Hlen in Hb.
  - exists emitted, (run ++ [sample]).
    cbn [v_previous v_runLength v_table v_written v_pending].
    split; [by rewrite app_assoc |]. split; [rewrite length_app; cbn; lia |].
    split; [apply Forall_app; split; [done | by repeat constructor] |].
    split; [exact Hview |]. by split.
  - exists (emitted ++ run ++ [sample]), [].
    cbn [v_previous v_runLength v_table v_written v_pending length].
    split; [by rewrite app_nil_r, app_assoc |]. split; [reflexivity |].
    split; [constructor |].
    apply Differential_IsValid_iff in Hvalid.
    pose proof (Differential_Get_range diff Hvalid) as Hrange.
    split; [| split; [exact Href |]].
    + rewrite !view_leftovers_app, Hview. cbn [view_leftovers fold_left].
      rewrite view_leftover_differential by done. cbn zeta.
      rewrite (flush_after_digits_only _ _ _ _ _ Hb). cbn.
      rewrite Nat2Z.id, Differential_Set_Get by done.
      assert (Differential_Add (v_previous v) diff = current) as ->.
      { unfold Differential_Add, diff, Differential_Sub, to_uint16.
        replace (v_previous v + (current - v_previous v)) with current by lia.
        apply Z.mod_small. lia. }
      f_equal. rewrite !fmap_app, Hrec, <- app_assoc. reflexivity.
    + apply Forall_app. split; [apply Forall_app; split;
                                  [done | by eapply base8_sub_codewords] |].
      constructor; [lia | constructor].
  - exists (emitted ++ run ++ [sample]), [].
    cbn [v_previous v_runLength v_table v_written v_pending length].
    split; [by rewrite app_nil_r, app_assoc |]. split; [reflexivity |].
    split; [constructor |].
    pose proof (Table_Hash_range (v_table v) current) as Hhash.
    pose proof (Table_Get_range hash Hhash) as Hrange.
    split; [| split; [exact Href |]].
    + rewrite !view_leftovers_app, Hview. cbn [view_leftovers fold_left].
      rewrite view_leftover_table by done. cbn zeta.
      rewrite (flush_after_digits_only _ _ _ _ _ Hb). cbn.
      rewrite Nat2Z.id, Table_Set_Get by done.
      rewrite (Table_Refer_Done_at _ _ _ Hrefer).
      f_equal. rewrite !fmap_app, Hrec, <- app_assoc. reflexivity.
    + apply Forall_app. split; [apply Forall_app; split;
                                  [done | by eapply base8_sub_codewords] |].
      constructor; [lia | constructor].
  - exists (emitted ++ run ++ [sample]), [].
    cbn [v_previous v_runLength v_table v_written v_pending length].
    split; [by rewrite app_nil_r, app_assoc |]. split; [reflexivity |].
    split; [constructor |].
    split; [| split; [| constructor]].
    + rewrite !view_words_app.
      destruct (view_words_pack (v_pending v ++ digits) (view_words (v_written v) view_init))
        as [k ->].
      { apply Forall_app. split; [done | by eapply base8_sub_codewords]. }
      rewrite <- app_assoc, view_leftovers_app, Hview.
      cbn [view_words fold_left]. rewrite view_word_literal. unfold view_literal.
      rewrite (flush_after_digits _ _ _ _ _ _ Hb). cbn.
      rewrite Nat2Z.id, Raw15bit_Set_Get by (fold current; lia).
      rewrite (Table_Insert_put _ _ _ _ Hins).
      f_equal. rewrite !fmap_app, Hrec, <- app_assoc. reflexivity.
    + apply Table_Insert_length in Hins as [-> _]. exact Href.
Qed.

Lemma Encoder_steps_sync shift v samples v' :
  1 ≤ shift →
  Encoder_steps shift v samples v' →
  ∀ consumed,
    Forall (λ sample, 0 ≤ sample < 65536) samples →
    in_sync shift consumed v →
    in_sync shift (consumed ++ samples) v'.
Proof.
  intros Hshift. induction 1 as [| v sample v1 samples v2 Hstep _ IH]; intros consumed Hall Hsync.
  - by rewrite app_nil_r.
  - apply Forall_cons_1 in Hall as [Hsample Hall].
    replace (consumed ++ sample :: samples) with ((consumed ++ [sample]) ++ samples)
      by (by rewrite <- app_assoc).
    apply IH; [exact Hall |]. by eapply Encoder_step_sync.
Qed.

(** The stream of a whole encoding decodes to the reconstructed samples. *)
Lemma Decoder_samples_encoded shift buffer :
  1 ≤ shift →
  Forall (λ sample, 0 ≤ sample < 65536) buffer →
  ∃ st, QOI15Encoder shift buffer = Done st
        ∧ Decoder_samples (encoded st) = reconstructed shift <$> buffer
        ∧ d_table (view_words (encoded st) view_init) = enc_table st.
Proof.
  intros Hshift Hall.
  destruct (QOI15Encoder_spec shift buffer)
    as (st & v & digits & Henc & Hsteps & Hb & Hwr & Htab & Hok & Hlen).
  exists st. split; [exact Henc |].
  eapply Encoder_steps_sync in Hsteps; [| exact Hshift | exact Hall | apply in_sync_init].
  destruct Hsteps as (emitted & run & Hcons & Hrunlen & Hrun & Hview & Href & Hpending).
  cbn in Hcons.
  pose proof (run_reconstructed shift _ run Hrun) as Hrec.
  rewrite <- Hrunlen in Hb.
  unfold Decoder_samples. rewrite Hwr, view_words_app.
  destruct (view_words_pack (v_pending v ++ digits) (view_words (v_written v) view_init))
    as [k ->].
  { apply Forall_app. split; [done | by eapply base8_sub_codewords]. }
  rewrite <- app_assoc, view_leftovers_app, Hview.
  split.
  - rewrite (flush_after_digits _ _ _ _ _ _ Hb). cbn.
    by rewrite Nat2Z.id, Hcons, fmap_app, Hrec.
  - rewrite view_leftovers_run.
    2: { apply Forall_app. split; [by eapply base8_digits |].
         apply Forall_replicate. lia. }
    cbn. by rewrite Htab.
Qed.

Lemma reconstructed_default sample :
  0 ≤ sample < 65536 → reconstructed 1 sample = Z.land sample 0xFFFE.
Proof.
  intros Hs. unfold reconstructed, BitShifter_Set, BitShifter_Get, to_uint16.
  rewrite Z.shiftr_div_pow2, Z.shiftl_mul_pow2 by lia.
  change 0xFFFE with (Z.land (Z.ones 16) (Z.lnot (Z.ones 1))).
  rewrite Z.land_assoc, Z.land_ones, land_lnot_ones by lia.
  change (2 ^ 16) with 65536. change (2 ^ 1) with 2. zlia.
Qed.

Lemma masked_clean sample :
  0 ≤ sample < 65536 → Z.land sample 1 = 0 → Z.land sample 0xFFFE = sample.
Proof.
  intros Hs Hclean. change 1 with (Z.ones 1) in Hclean. rewrite Z.land_ones in Hclean by lia.
  change 0xFFFE with (Z.land (Z.ones 16) (Z.lnot (Z.ones 1))).
  rewrite Z.land_assoc, Z.land_ones, land_lnot_ones by lia.
  change (2 ^ 16) with 65536. change (2 ^ 1) with 2 in *. zlia.
Qed.

(** C1. For every sequence [Y] of 16-bit samples, the encoder with the
    default shift of 1 completes, and the decoder run on its output with
    [outputSize = len(Y)] completes with exactly [len(Y)] samples, sample
    [i] being [Y[i] & 0xFFFE]; when every sample of [Y] has a clear low bit
    the decoded samples are [Y] itself. *)
Theorem QOI15_roundtrip (Y : list Z) (HY : Forall (λ y, 0 ≤ y < 65536) Y) :
  ∃ enc dec,
    QOI15Encoder 1 Y = Done enc
    ∧ QOI15Decoder (encoded enc) (Z.of_nat (length Y)) = Done dec
    ∧ snd (QOI15Decoder_Get dec) = Z.of_nat (length Y)
    ∧ length (decoded dec) = length Y
    ∧ (∀ i y, Y !! i = Some y → decoded dec !! i = Some (Z.land y 0xFFFE))
    ∧ (Forall (λ y, Z.land y 1 = 0) Y → decoded dec = Y).
Proof.
  destruct (Decoder_samples_encoded 1 Y ltac:(lia) HY) as (enc & Henc & Hsamples & _).
  destruct (QOI15Decoder_spec (encoded enc) (Z.of_nat (length Y)))
    as (dec & Hdec & Hout & Hsize & _).
  { rewrite Hsamples, length_fmap. lia. }
  rewrite Hsamples in Hout, Hsize. rewrite length_fmap in Hsize.
  exists enc, dec. split; [exact Henc |]. split; [exact Hdec |]. split; [exact Hsize |].
  rewrite Hout. split; [apply length_fmap |]. split.
  - intros i y Hi. rewrite list_lookup_fmap, Hi. cbn. f_equal.
    apply reconstructed_default. rewrite Forall_lookup in HY. by eapply HY.
  - intros Hclean. clear -HY Hclean.
    induction HY as [| y Y Hy HY IH]; [reflexivity |].
    apply Forall_cons_1 in Hclean as [Hc Hclean]. cbn.
    rewrite IH by done. f_equal.
    rewrite reconstructed_default by done. by apply masked_clean.
Qed.

Lemma QOI15_roundtrip_witness :
  Forall (λ y, 0 ≤ y < 65536) [0x1234; 0x0100; 0x0110; 0x0111]
  ∧ ∃ enc dec,
      QOI15Encoder 1 [0x1234; 0x0100; 0x0110; 0x0111] = Done enc
      ∧ QOI15Decoder (encoded enc) 4 = Done dec
      ∧ length (decoded dec) = 4%nat.
Proof.
  assert (Forall (λ y, 0 ≤ y < 65536) [0x1234; 0x0100; 0x0110; 0x0111]) as H
    by (repeat constructor; lia).
  split; [exact H |].
  destruct (QOI15_roundtrip _ H) as (enc & dec & Henc & Hdec & _ & Hlen & _).
  exists enc, dec. split; [exact Henc |]. split; [exact Hdec | exact Hlen].
Defined.

(** ** The first sample *)

Lemma Table_Refer_Insert t hash value t' :
  Table_Insert hash value t = Done t' → Table_Refer t' hash = Done value.
Proof.
  unfold Table_Insert, Table_Refer. case_bool_decide; [| discriminate].
  intros [= <-]. cbn. by rewrite list_lookup_insert_eq.
Qed.

Lemma base8_of_zero digits : base8 0 digits → digits = [].
Proof. inversion 1; [reflexivity | lia]. Qed.

Lemma Table_new_entries h v :
  ref_ (Table_new table_ 1) !! h = Some v → v = 0xFFFF.
Proof.
  cbn. intros Hv. apply lookup_replicate in Hv as [-> _]. reflexivity.
Qed.

(** C9. For every 16-bit sample and every shift of at least 1, the
    downshifted sample is at most [0x7FFF]; it differs from the initial
    [previous] ([0xFFFF]) and from every entry of the initial table (all
    [0xFFFF]); and the first iteration of the encoder starts no run and takes
    no table hit: it inserts the sample into the table and writes it as a raw
    literal. *)
Theorem first_sample_is_raw (shift sample size : Z)
  (Hshift : 1 ≤ shift) (Hsample : 0 ≤ sample < 65536) (Hsize : 1 ≤ size) :
  let current := BitShifter_Get shift sample in
  current ≤ 0x7FFF
  ∧ enc_previous (Encoder_init size) = 0xFFFF
  ∧ current ≠ enc_previous (Encoder_init size)
  ∧ (∀ h v, ref_ (enc_table (Encoder_init size)) !! h = Some v → v = 0xFFFF ∧ v ≠ current)
  ∧ ∃ st,
      Encoder_body shift (Encoder_init size) sample = Done st
      ∧ enc_runLength st = 0
      ∧ enc_previous st = current
      ∧ temp_ (enc_repository st) = []
      ∧ encoded st = [Raw15bit_Get current]
      ∧ Table_Refer (enc_table st) (Table_Hash table_ (enc_table st) current) = Done current.
Proof.
  intros current.
  pose proof (BitShifter_Get_range shift sample Hshift Hsample) as Hcur. fold current in Hcur.
  split; [lia |]. split; [reflexivity |]. split; [cbn; lia |].
  split. { intros h v Hv. apply Table_new_entries in Hv. lia. }
  destruct (Encoder_body_step shift (Encoder_init size) sample) as (st & Hbody & Hstep & Hok & _).
  { apply Encoder_init_ok. }
  { rewrite Encoder_init_view. unfold Encoder_load. cbn. rewrite length_replicate. lia. }
  exists st. split; [exact Hbody |].
  rewrite Encoder_init_view in Hstep.
  remember (Encoder_view st) as v' eqn:Hv'.
  destruct Hstep as [Heq
                    | digits current' diff Hne Hb Hvalid
                    | digits current' diff hash Hne Hb Hinvalid Hrefer
                    | digits referred table' current' diff hash Hne Hb Hinvalid Hrefer Hmiss Hins];
    cbn in *.
  - fold current in Heq. lia.
  - apply Differential_IsValid_iff in Hvalid. unfold diff, Differential_Sub in Hvalid.
    subst current'. fold current in Hvalid. lia.
  - unfold Table_Refer in Hrefer.
    destruct (ref_ (Table_new table_ 1) !! Z.to_nat hash) as [v |] eqn:Hv; [| discriminate].
    apply Table_new_entries in Hv. injection Hrefer as Hrefer.
    subst current'. fold current in Hrefer. lia.
  - apply base8_of_zero in Hb as ->.
    apply (f_equal v_runLength) in Hv' as Hrl.
    apply (f_equal v_previous) in Hv' as Hprev.
    apply (f_equal v_pending) in Hv' as Hpend.
    apply (f_equal v_written) in Hv' as Hwr.
    apply (f_equal v_table) in Hv' as Htab. cbn in Hrl, Hprev, Hpend, Hwr, Htab.
    split; [done |]. split; [done |]. split; [done |]. split; [done |].
    rewrite <- Htab.
    replace (Table_Hash table_ table' current) with hash.
    + by eapply Table_Refer_Insert.
    + apply Table_Insert_length in Hins as [_ Hbit].
      unfold hash, Table_Hash. by rewrite Hbit.
Qed.

Lemma first_sample_is_raw_witness :
  1 ≤ 1 ∧ 0 ≤ 0x1234 < 65536 ∧ 1 ≤ 1
  ∧ ∃ st, Encoder_body 1 (Encoder_init 1) 0x1234 = Done st
          ∧ enc_runLength st = 0
          ∧ encoded st = [Raw15bit_Get (BitShifter_Get 1 0x1234)].
Proof.
  assert (1 ≤ 1) as H1 by lia.
  assert (0 ≤ 0x1234 < 65536) as H2 by lia.
  split; [exact H1 |]. split; [exact H2 |]. split; [exact H1 |].
  destruct (first_sample_is_raw 1 0x1234 1 H1 H2 H1)
    as (_ & _ & _ & _ & st & Hbody & Hrl & _ & _ & Hwr & _).
  exists st. split; [exact Hbody |]. split; [exact Hrl | exact Hwr].
Defined.

(** ** The two tables *)

Lemma view_flush_run_table d : d_table (view_flush_run d) = d_table d.
Proof. unfold view_flush_run. by case_bool_decide. Qed.

Lemma view_leftover_table_same value d : d_table (view_leftover value d) = d_table d.
Proof.
  destruct (decide (0 ≤ value < 8)); [by rewrite view_leftover_run |].
  destruct (decide (16 ≤ value < 32)).
  { rewrite view_leftover_differential by done. apply view_flush_run_table. }
  destruct (decide (8 ≤ value < 16)).
  { rewrite view_leftover_table by done. apply view_flush_run_table. }
  rewrite view_leftover_other by lia. apply view_flush_run_table.
Qed.

Lemma view_leftovers_table leftovers : ∀ d,
  d_table (view_leftovers leftovers d) = d_table d.
Proof.
  induction leftovers as [| value leftovers IH]; intros d; [reflexivity |].
  cbn [view_leftovers fold_left]. fold (view_leftovers leftovers).
  by rewrite IH, view_leftover_table_same.
Qed.

(** The decoder inserts into its table when it reads a literal container,
    and only then. *)
Lemma view_word_table value d :
  d_table (view_word value d)
  = if Raw15bit_IsValid value
    then Table_put (Table_Hash table_ (d_table d) (Raw15bit_Set value))
                   (Raw15bit_Set value) (d_table d)
    else d_table d.
Proof.
  unfold view_word. destruct (Raw15bit_IsValid value).
  - unfold view_literal. cbn. by rewrite view_flush_run_table.
  - destruct (Chunker_Get value) as [[first second] third]. apply view_leftovers_table.
Qed.

Lemma view_words_table words : ∀ d,
  d_table (view_words words d)
  = fold_left
      (λ t w, if Raw15bit_IsValid w
              then Table_put (Table_Hash table_ t (Raw15bit_Set w)) (Raw15bit_Set w) t
              else t)
      words (d_table d).
Proof.
  induction words as [| w words IH]; intros d; [reflexivity |].
  cbn [view_words fold_left]. fold (view_words words).
  by rewrite IH, view_word_table.
Qed.

Lemma Encoder_steps_written_prefix shift v samples v' :
  Encoder_steps shift v samples v' → v_written v `prefix_of` v_written v'.
Proof.
  induction 1 as [| v sample v1 samples v2 Hstep _ IH]; [done |].
  etrans; [| exact IH]. destruct Hstep; cbn; try done. by apply prefix_app_r.
Qed.

(** The encoder changes its table in the iteration that writes a raw
    literal, and only then. *)
Lemma Encoder_step_insert shift v sample v' :
  1 ≤ shift → 0 ≤ sample < 65536 →
  Forall (λ x, 0 ≤ x ≤ 0x1F) (v_pending v) →
  Encoder_step shift v sample v' →
  (v_table v' = v_table v ∧ v_written v' = v_written v)
  ∨ (∃ current packed,
       v_table v' = Table_put (Table_Hash table_ (v_table v) current) current (v_table v)
       ∧ v_written v' = v_written v ++ packed ++ [Raw15bit_Get current]
       ∧ Forall (λ w, Raw15bit_IsValid w = false) packed
       ∧ Raw15bit_IsValid (Raw15bit_Get current) = true
       ∧ Raw15bit_Set (Raw15bit_Get current) = current).
Proof.
  intros Hshift Hsample Hpending Hstep.
  pose proof (BitShifter_Get_range shift sample Hshift Hsample) as Hcur.
  destruct Hstep
    as [ | | | digits referred table' current diff hash Hne Hb Hinvalid Hrefer Hmiss Hins];
    cbn; try (by left).
  right. exists current, (pack (v_pending v ++ digits)).
  split; [by apply Table_Insert_put |]. split; [reflexivity |].
  split; [| split; [by rewrite Raw15bit_IsValid_testbit, Raw15bit_Get_bit15
                   | apply Raw15bit_Set_Get; lia]].
  eapply Forall_impl; [apply pack_form |].
  - apply Forall_app. split; [done | by eapply base8_sub_codewords].
  - cbn. intros w [Hbit _]. by rewrite Raw15bit_IsValid_testbit.
Qed.

(** What an iteration of the encoder does to the repository: it extends
    the run and touches nothing, or it queues the digits of the run and one
    sub-codeword with the tag of [Differential] or of [Table], or it has the
    queued sub-codewords and the digits written as the containers of
    [pack], and the literal of the sample after them. *)
Lemma Encoder_step_writes shift v sample v' digits :
  Encoder_step shift v sample v' →
  base8 (v_runLength v) digits →
  (v_written v' = v_written v ∧ v_pending v' = v_pending v)
  ∨ (v_written v' = v_written v
     ∧ ∃ value, v_pending v' = (v_pending v ++ digits) ++ [value]
                ∧ 0 ≤ value ≤ 0x1F
                ∧ (Differential_CheckHeader differential_ value = true
                   ∨ Table_CheckHeader table_ value = true))
  ∨ (v_written v'
     = v_written v ++ pack (v_pending v ++ digits)
                   ++ [Raw15bit_Get (BitShifter_Get shift sample)]
     ∧ v_pending v' = []).
Proof.
  intros Hstep Hdigits.
  destruct Hstep
    as [ | digits' current diff Hne Hb Hvalid
       | digits' current diff hash Hne Hb Hinvalid Hrefer
       | digits' referred table' current diff hash Hne Hb Hinvalid Hrefer Hmiss Hins];
    cbn [v_written v_pending]; [by left | | |];
    rewrite (base8_unique _ _ Hb _ Hdigits).
  - right; left. split; [reflexivity |]. eexists. split; [reflexivity |].
    apply Differential_IsValid_iff, Differential_Get_range in Hvalid.
    split; [lia |]. left. unfold Differential_CheckHeader.
    rewrite CheckHeader_differential. by apply bool_decide_eq_true.
  - right; left. split; [reflexivity |]. eexists. split; [reflexivity |].
    pose proof (Table_Get_range hash (Table_Hash_range _ _)) as Hrange.
    split; [lia |]. right. unfold Table_CheckHeader.
    rewrite CheckHeader_table. by apply bool_decide_eq_true.
  - right; right. split; reflexivity.
Qed.

(** C6. The encoder writes a word in two places: [Set(uint16_t)], which it
    calls with a result of [Raw15bit::Get], and [Flush], which writes
    [Chunker::Set] of the pending sub-codewords.  Let the encoder have read
    any part [consumed] of its input, and let [pending] be the
    sub-codewords then queued in the repository followed by the digits of
    the run it counts.  Every sub-codeword of [pending] is at most [0x1F],
    and the containers [Flush] writes for them have bit 15 clear
    ([Raw15bit::IsValid] fails on them).  The next iteration writes
    nothing, queueing at most one more sub-codeword, of at most [0x1F]; or
    it writes these containers followed by the literal of the sample, which
    has bit 15 set ([Raw15bit::IsValid] holds of it), and leaves nothing
    queued.  At the end of the input the constructor writes these
    containers and nothing else.  Whatever is written stays: the words
    written so far begin the final output.  A result of [Raw15bit::Get] is
    never [Chunker::Set] of three sub-codewords of at most [0x1F]. *)
Theorem Encoder_output_forms (shift : Z) (consumed rest : list Z) :
  let size := Z.of_nat (length (consumed ++ rest)) in
  ∃ st digits fin,
    Encoder_loop shift consumed (Encoder_init size) = Done st
    ∧ RunLength_Get runLength_ (enc_runLength st) = Done digits
    ∧ QOI15Encoder shift (consumed ++ rest) = Done fin
    ∧ encoded st `prefix_of` encoded fin
    ∧ let pending := temp_ (enc_repository st) ++ digits in
      Forall (λ x, 0 ≤ x ≤ 0x1F) pending
      ∧ Forall (λ w, Z.testbit w 15 = false ∧ Raw15bit_IsValid w = false) (pack pending)
      ∧ (∀ sample rest', rest = sample :: rest' →
           let literal := Raw15bit_Get (BitShifter_Get shift sample) in
           Z.testbit literal 15 = true ∧ Raw15bit_IsValid literal = true
           ∧ ∃ st',
               Encoder_body shift st sample = Done st'
               ∧ ((encoded st' = encoded st
                   ∧ temp_ (enc_repository st') = temp_ (enc_repository st))
                  ∨ (encoded st' = encoded st
                     ∧ ∃ value, temp_ (enc_repository st') = pending ++ [value]
                                ∧ 0 ≤ value ≤ 0x1F
                                ∧ (Differential_CheckHeader differential_ value = true
                                   ∨ Table_CheckHeader table_ value = true))
                  ∨ (encoded st' = encoded st ++ pack pending ++ [literal]
                     ∧ temp_ (enc_repository st') = [])))
      ∧ (rest = [] → encoded fin = encoded st ++ pack pending)
    ∧ (∀ first second third,
         0 ≤ first ≤ 0x1F → 0 ≤ second ≤ 0x1F → 0 ≤ third ≤ 0x1F →
         Z.testbit (Chunker_Set first second third) 15 = false
         ∧ ∀ current, Raw15bit_Get current ≠ Chunker_Set first second third).
Proof.
  intros size.
  destruct (QOI15Encoder_app shift consumed rest)
    as (st & fin & v & digits' & Hloop & Hsteps & Hrest & Hfin & Hb' & Hwr & _ & _ & _
        & Hok & Hlen & Hload).
  fold size in Hloop, Hsteps.
  destruct (RunLength_Get_base8 (enc_runLength st)) as (digits & Hget & Hb); [apply Hok |].
  apply Encoder_steps_pending in Hsteps as Hqueued;
    [| rewrite Encoder_init_view; constructor].
  change (v_pending (Encoder_view st)) with (temp_ (enc_repository st)) in Hqueued.
  assert (Forall (λ x, 0 ≤ x ≤ 0x1F) (temp_ (enc_repository st) ++ digits)) as Hpending.
  { apply Forall_app. split; [exact Hqueued | by eapply base8_sub_codewords]. }
  assert (∀ first second third,
            0 ≤ first ≤ 0x1F → 0 ≤ second ≤ 0x1F → 0 ≤ third ≤ 0x1F →
            Z.testbit (Chunker_Set first second third) 15 = false
            ∧ ∀ current, Raw15bit_Get current ≠ Chunker_Set first second third) as Hforms.
  { intros first second third H1 H2 H3.
    pose proof (Chunker_Set_bit15 first second third H1 H2 H3) as Hclear.
    split; [exact Hclear |]. intros current Heq.
    pose proof (Raw15bit_Get_bit15 current) as Hset. congruence. }
  exists st, digits, fin.
  split; [exact Hloop |]. split; [exact Hget |]. split; [exact Hfin |].
  split.
  { rewrite Hwr. etrans; [exact (Encoder_steps_written_prefix _ _ _ _ Hrest) |].
    by apply prefix_app_r. }
  cbn zeta. split; [exact Hpending |].
  split.
  { eapply Forall_impl; [by apply pack_form |].
    cbn. intros w [Hbit _]. by rewrite Raw15bit_IsValid_testbit. }
  split; [| split; [| exact Hforms]].
  - intros sample rest' ->.
    split; [apply Raw15bit_Get_bit15 |].
    split; [by rewrite Raw15bit_IsValid_testbit, Raw15bit_Get_bit15 |].
    destruct (Encoder_body_step shift st sample Hok) as (st' & Hbody & Hstep & _).
    { rewrite Hlen, length_app. cbn [length]. lia. }
    exists st'. split; [exact Hbody |].
    exact (Encoder_step_writes _ _ _ _ _ Hstep Hb).
  - intros ->. inversion Hrest; subst.
    rewrite Hwr. cbn [Encoder_view v_written v_pending v_runLength] in *.
    by rewrite (base8_unique _ _ Hb' _ Hb).
Qed.

Lemma Encoder_output_forms_witness :
  ∃ st digits st',
    Encoder_loop 1 [2; 2; 2; 4] (Encoder_init 6) = Done st
    ∧ RunLength_Get runLength_ (enc_runLength st) = Done digits
    ∧ Encoder_body 1 st 0x0100 = Done st'
    ∧ Forall (λ x, 0 ≤ x ≤ 0x1F) (temp_ (enc_repository st) ++ digits)
    ∧ Forall (λ w, Z.testbit w 15 = false ∧ Raw15bit_IsValid w = false)
             (pack (temp_ (enc_repository st) ++ digits))
    ∧ Z.testbit (Raw15bit_Get (BitShifter_Get 1 0x0100)) 15 = true.
Proof.
  destruct (Encoder_output_forms 1 [2; 2; 2; 4] [0x0100; 0x0100])
    as (st & digits & fin & Hloop & Hget & _ & _ & Hpending & Hpacked & Hstep & _).
  destruct (Hstep 0x0100 [0x0100] eq_refl) as (Hbit & _ & st' & Hbody & _).
  exists st, digits, st'.
  split; [exact Hloop |]. split; [exact Hget |]. split; [exact Hbody |].
  split; [exact Hpending |]. split; [exact Hpacked | exact Hbit].
Defined.

(** C8. Let the encoder (with a shift of at least 1) have read any part
    [consumed] of its 16-bit input.  Its table then holds exactly the
    literals among the words it has written, inserted in their order at the
    hash of their 15-bit value; its next iteration either leaves the table
    and the written words alone or inserts the current sample and writes
    packed containers followed by the literal of that sample.  The decoder
    changes its table when it reads a literal container and only then,
    inserting the 15-bit value of the container at its hash.  The words
    written so far begin the final output, and a decoder that has read them
    has the same table as the encoder.  The same holds at the end of the
    stream. *)
Theorem tables_agree (shift : Z) (consumed rest : list Z)
  (Hshift : 1 ≤ shift)
  (Hsamples : Forall (λ y, 0 ≤ y < 65536) (consumed ++ rest)) :
  let size := Z.of_nat (length (consumed ++ rest)) in
  ∃ est fin dst dfin,
    Encoder_loop shift consumed (Encoder_init size) = Done est
    ∧ QOI15Encoder shift (consumed ++ rest) = Done fin
    ∧ encoded est `prefix_of` encoded fin
    ∧ Decoder_loop (4 * length (encoded est)) (encoded est) (Decoder_init size) = Done dst
    ∧ enc_table est = table_after (encoded est)
    ∧ dec_table dst = table_after (encoded est)
    ∧ dec_table dst = enc_table est
    ∧ QOI15Decoder (encoded fin) size = Done dfin
    ∧ dec_table dfin = enc_table fin
    ∧ enc_table fin = table_after (encoded fin)
    ∧ (∀ sample rest', rest = sample :: rest' →
         ∃ est', Encoder_body shift est sample = Done est'
                 ∧ ((enc_table est' = enc_table est ∧ encoded est' = encoded est)
                    ∨ ∃ current packed,
                        enc_table est'
                        = Table_put (Table_Hash table_ (enc_table est) current) current
                                    (enc_table est)
                        ∧ encoded est' = encoded est ++ packed ++ [Raw15bit_Get current]
                        ∧ Forall (λ w, Raw15bit_IsValid w = false) packed
                        ∧ Raw15bit_IsValid (Raw15bit_Get current) = true
                        ∧ Raw15bit_Set (Raw15bit_Get current) = current))
    ∧ (∀ value d,
         d_table (view_word value d)
         = if Raw15bit_IsValid value
           then Table_put (Table_Hash table_ (d_table d) (Raw15bit_Set value))
                          (Raw15bit_Set value) (d_table d)
           else d_table d).
Proof.
  intros size.
  destruct (QOI15Encoder_app shift consumed rest)
    as (est & fin & v & digits & Hloop & Hsteps & Hsteps1 & Hfin & Hb & Hwr & Htab & Hok & Hlen
        & Hokest & Hlenest & Hloadest).
  fold size in Hloop, Hsteps.
  apply Forall_app in Hsamples as Hparts. destruct Hparts as [Hconsumed Hrest].
  pose proof (Encoder_steps_sync shift _ _ _ Hshift Hsteps [] Hconsumed (in_sync_init _ _))
    as (emitted & run & Hcons & Hrunlen & Hrun & Hview & Href & Hpending).
  cbn [app] in Hcons.
  change (v_written (Encoder_view est)) with (encoded est) in Hview.
  assert (d_table (view_words (encoded est) view_init) = enc_table est) as Htable.
  { apply (f_equal d_table) in Hview. by rewrite view_leftovers_table in Hview. }
  destruct (Decoder_loop_complete (encoded est) size) as (dst & Hdloop & Hdview & _ & _).
  { etrans; [apply (view_leftovers_grows (v_pending (Encoder_view est))) |].
    rewrite Hview. cbn. rewrite length_fmap. unfold size.
    rewrite Hcons, !length_app. lia. }
  destruct (Decoder_samples_encoded shift (consumed ++ rest) Hshift Hsamples)
    as (fin' & Hfin' & Hsamples' & Htable').
  assert (fin' = fin) as -> by congruence.
  destruct (QOI15Decoder_spec (encoded fin) size) as (dfin & Hdfin & _ & _ & Hdtab).
  { rewrite Hsamples', length_fmap. unfold size. lia. }
  exists est, fin, dst, dfin.
  split; [exact Hloop |]. split; [exact Hfin |].
  split.
  { rewrite Hwr. etrans; [exact (Encoder_steps_written_prefix _ _ _ _ Hsteps1) |].
    by apply prefix_app_r. }
  split; [exact Hdloop |].
  assert (dec_table dst = d_table (view_words (encoded est) view_init)) as Hdst
    by (by rewrite <- Hdview).
  unfold table_after. rewrite <- !(view_words_table _ view_init).
  split; [by rewrite Htable |]. split; [exact Hdst |]. split; [by rewrite Hdst |].
  split; [exact Hdfin |]. split; [by rewrite Hdtab |]. split; [by rewrite Htable' |].
  split; [| apply view_word_table].
  intros sample rest' ->.
  apply Forall_cons_1 in Hrest as [Hsample _].
  destruct (Encoder_body_step shift est sample Hokest) as (est' & Hbody & Hstep & _).
  { rewrite Hlenest, length_app. cbn [length]. lia. }
  exists est'. split; [exact Hbody |].
  destruct (Encoder_step_insert _ _ _ _ Hshift Hsample Hpending Hstep) as [Hsame | Hraw];
    [by left | by right].
Qed.

Lemma tables_agree_witness :
  1 ≤ 1
  ∧ Forall (λ y, 0 ≤ y < 65536) ([0x0100; 0x0110] ++ [0x0100; 0x0300])
  ∧ ∃ est dst,
      Encoder_loop 1 [0x0100; 0x0110] (Encoder_init 4) = Done est
      ∧ Decoder_loop (4 * length (encoded est)) (encoded est) (Decoder_init 4) = Done dst
      ∧ dec_table dst = enc_table est.
Proof.
  assert (1 ≤ 1) as H1 by lia.
  assert (Forall (λ y, 0 ≤ y < 65536) ([0x0100; 0x0110] ++ [0x0100; 0x0300])) as H2
    by (repeat constructor; lia).
  split; [exact H1 |]. split; [exact H2 |].
  destruct (tables_agree 1 [0x0100; 0x0110] [0x0100; 0x0300] H1 H2)
    as (est & _ & dst & _ & Hloop & _ & _ & Hdloop & _ & _ & Htab & _).
  exists est, dst. split; [exact Hloop |]. split; [exact Hdloop | exact Htab].
Defined.

(** * Further properties of the code *)

(** ** BitShifter *)

(** X1. [Set (Get value)] clears the [shift] low bits of a 16-bit value and
    keeps the others: it is [value - value mod 2^shift]. *)
Theorem BitShifter_Set_Get (shift value : Z)
  (Hshift : 0 ≤ shift) (Hvalue : 0 ≤ value < 65536) :
  BitShifter_Set shift (BitShifter_Get shift value) = value - value mod 2 ^ shift
  ∧ ∀ i, 0 ≤ i < shift →
         Z.testbit (BitShifter_Set shift (BitShifter_Get shift value)) i = false.
Proof.
  assert (0 < 2 ^ shift) as Hpow by (apply Z.pow_pos_nonneg; lia).
  assert (0 ≤ value / 2 ^ shift) as Hq by (apply Z.div_pos; lia).
  assert (value / 2 ^ shift * 2 ^ shift ≤ value) as Hle
    by (rewrite Z.mul_comm; apply Z.mul_div_le; lia).
  assert (BitShifter_Set shift (BitShifter_Get shift value)
          = Z.shiftl (value / 2 ^ shift) shift) as Heq.
  { unfold BitShifter_Set, BitShifter_Get, to_uint16.
    rewrite Z.shiftr_div_pow2 by lia.
    rewrite (Z.mod_small (value / 2 ^ shift)) by (split; [lia | nia]).
    rewrite Z.shiftl_mul_pow2 by lia. apply Z.mod_small. nia. }
  split.
  - rewrite Heq, Z.shiftl_mul_pow2 by lia.
    pose proof (Z.div_mod value (2 ^ shift) ltac:(lia)). lia.
  - intros i Hi. rewrite Heq. apply Z.shiftl_spec_low. lia.
Qed.

Lemma BitShifter_Set_Get_witness :
  0 ≤ 1 ∧ 0 ≤ 0x1235 < 65536
  ∧ BitShifter_Set 1 (BitShifter_Get 1 0x1235) = 0x1235 - 0x1235 mod 2 ^ 1.
Proof.
  assert (0 ≤ 1) as H1 by lia. assert (0 ≤ 0x1235 < 65536) as H2 by lia.
  split; [exact H1 |]. split; [exact H2 |].
  exact (proj1 (BitShifter_Set_Get 1 0x1235 H1 H2)).
Defined.

(** X2. [Get (Set value)] keeps the [16 - shift] low bits of a value and
    loses the others, which [Set] shifted out of the 16-bit word: it is
    [value mod 2^(16 - shift)], and [value] itself when that is below
    [2^(16 - shift)]. *)
Theorem BitShifter_Get_Set (shift value : Z)
  (Hshift : 0 ≤ shift ≤ 16) (Hvalue : 0 ≤ value) :
  BitShifter_Get shift (BitShifter_Set shift value) = value mod 2 ^ (16 - shift)
  ∧ (value < 2 ^ (16 - shift) →
     BitShifter_Get shift (BitShifter_Set shift value) = value).
Proof.
  assert (0 < 2 ^ shift) as Hpow by (apply Z.pow_pos_nonneg; lia).
  assert (0 < 2 ^ (16 - shift)) as Hpow' by (apply Z.pow_pos_nonneg; lia).
  assert (65536 = 2 ^ (16 - shift) * 2 ^ shift) as H16
    by (rewrite <- Z.pow_add_r by lia; replace (16 - shift + shift) with 16 by lia; done).
  assert (BitShifter_Get shift (BitShifter_Set shift value) = value mod 2 ^ (16 - shift)) as Heq.
  { unfold BitShifter_Set, BitShifter_Get, to_uint16.
    rewrite Z.shiftl_mul_pow2, Z.shiftr_div_pow2 by lia.
    rewrite H16 at 1. rewrite Z.mul_mod_distr_r, Z.div_mul by lia.
    pose proof (Z.mod_pos_bound value (2 ^ (16 - shift)) Hpow').
    apply Z.mod_small. nia. }
  split; [exact Heq |]. intros Hsmall. rewrite Heq. apply Z.mod_small. lia.
Qed.

Lemma BitShifter_Get_Set_witness :
  0 ≤ 1 ≤ 16 ∧ 0 ≤ 0xFFFF
  ∧ BitShifter_Get 1 (BitShifter_Set 1 0xFFFF) = 0xFFFF mod 2 ^ (16 - 1).
Proof.
  assert (0 ≤ 1 ≤ 16) as H1 by lia. assert (0 ≤ 0xFFFF) as H2 by lia.
  split; [exact H1 |]. split; [exact H2 |].
  exact (proj1 (BitShifter_Get_Set 1 0xFFFF H1 H2)).
Defined.

(** ** The tags *)

(** X3. The three [CheckHeader] functions split the 5-bit sub-codewords:
    [RunLength] accepts exactly 0..7, [Table] exactly 8..15 and
    [Differential] exactly 16..31, so a sub-codeword has exactly one kind
    and a value outside 0..31 has none. *)
Theorem CheckHeader_partition (value : Z) :
  (RunLength_CheckHeader runLength_ value = true ↔ 0 ≤ value < 8)
  ∧ (Table_CheckHeader table_ value = true ↔ 8 ≤ value < 16)
  ∧ (Differential_CheckHeader differential_ value = true ↔ 16 ≤ value < 32).
Proof.
  unfold RunLength_CheckHeader, Table_CheckHeader, Differential_CheckHeader.
  rewrite CheckHeader_runLength, CheckHeader_table, CheckHeader_differential.
  rewrite !bool_decide_eq_true. done.
Qed.

(** ** Differential *)

(** X4. When the difference of two 16-bit values passes [IsValid] (it is
    between -8 and 8 and not 0), its sub-codeword carries the tag of
    [Differential] and of no other kind, and [Add previous (Set (Get (Sub
    previous current)))] is [current]. *)
Theorem Differential_path (previous current : Z)
  (Hprevious : 0 ≤ previous < 65536) (Hcurrent : 0 ≤ current < 65536)
  (Hvalid : Differential_IsValid differential_ (Differential_Sub previous current) = true) :
  let value := Differential_Get differential_ (Differential_Sub previous current) in
  1 ≤ Z.abs (current - previous) ≤ 8
  ∧ Differential_CheckHeader differential_ value = true
  ∧ RunLength_CheckHeader runLength_ value = false
  ∧ Table_CheckHeader table_ value = false
  ∧ Differential_Add previous (Differential_Set differential_ value) = current.
Proof.
  intros value. apply Differential_IsValid_iff in Hvalid.
  pose proof (Differential_Get_range _ Hvalid) as Hrange. fold value in Hrange.
  split; [exact Hvalid |].
  unfold RunLength_CheckHeader, Table_CheckHeader, Differential_CheckHeader.
  rewrite CheckHeader_runLength, CheckHeader_table, CheckHeader_differential.
  split; [by apply bool_decide_eq_true_2 |].
  split; [apply bool_decide_eq_false_2; lia |].
  split; [apply bool_decide_eq_false_2; lia |].
  unfold value. rewrite Differential_Set_Get by done.
  unfold Differential_Add, Differential_Sub, to_uint16.
  replace (previous + (current - previous)) with current by lia.
  by apply Z.mod_small.
Qed.

Lemma Differential_path_witness :
  0 ≤ 0x0100 < 65536 ∧ 0 ≤ 0x00FD < 65536
  ∧ Differential_IsValid differential_ (Differential_Sub 0x0100 0x00FD) = true
  ∧ Differential_Add 0x0100
      (Differential_Set differential_
         (Differential_Get differential_ (Differential_Sub 0x0100 0x00FD))) = 0x00FD.
Proof.
  assert (0 ≤ 0x0100 < 65536) as H1 by lia. assert (0 ≤ 0x00FD < 65536) as H2 by lia.
  assert (Differential_IsValid differential_ (Differential_Sub 0x0100 0x00FD) = true) as H3
    by reflexivity.
  split; [exact H1 |]. split; [exact H2 |]. split; [exact H3 |].
  exact (proj2 (proj2 (proj2 (proj2 (Differential_path 0x0100 0x00FD H1 H2 H3))))).
Defined.

(** ** Table *)

(** X5. Inserting at a hash inside the table succeeds; the entry at that
    hash is then the inserted value, every other entry is what it was, and
    the size and the hash bit of the table are unchanged. *)
Theorem Table_Insert_Refer (t : Table) (hash value : Z)
  (Hhash : 0 ≤ hash < Z.of_nat (length (ref_ t))) :
  ∃ t',
    Table_Insert hash value t = Done t'
    ∧ Table_Refer t' hash = Done value
    ∧ (∀ h, 0 ≤ h → h ≠ hash → Table_Refer t' h = Table_Refer t h)
    ∧ length (ref_ t') = length (ref_ t)
    ∧ hashBit_ t' = hashBit_ t.
Proof.
  unfold Table_Insert. rewrite bool_decide_eq_true_2 by lia.
  eexists. split; [reflexivity |]. unfold Table_Refer. cbn.
  split; [by rewrite list_lookup_insert_eq by lia |].
  split; [| by rewrite length_insert].
  intros h Hh Hne. by rewrite list_lookup_insert_ne by lia.
Qed.

Lemma Table_Insert_Refer_witness :
  0 ≤ 5 < Z.of_nat (length (ref_ (Table_new table_ 1)))
  ∧ ∃ t', Table_Insert 5 0x010A (Table_new table_ 1) = Done t'
          ∧ Table_Refer t' 5 = Done 0x010A.
Proof.
  assert (0 ≤ 5 < Z.of_nat (length (ref_ (Table_new table_ 1)))) as H
    by (change (length (ref_ (Table_new table_ 1))) with 8%nat; lia).
  split; [exact H |].
  destruct (Table_Insert_Refer (Table_new table_ 1) 5 0x010A H) as (t' & Hins & Href & _).
  exists t'. split; [exact Hins | exact Href].
Defined.

(** X6. A new table has 8 entries, all [0xFFFF], whatever its hash bit; a
    hash of 8 or more is outside every such table: neither [Refer] nor
    [Insert] is defined there. *)
Theorem Table_new_Refer (hashBit hash : Z) (Hhash : 0 ≤ hash) :
  length (ref_ (Table_new table_ hashBit)) = 8%nat
  ∧ (hash < 8 → Table_Refer (Table_new table_ hashBit) hash = Done 0xFFFF)
  ∧ (8 ≤ hash →
     Table_Refer (Table_new table_ hashBit) hash = Undefined
     ∧ ∀ value, Table_Insert hash value (Table_new table_ hashBit) = Undefined).
Proof.
  split; [reflexivity |]. unfold Table_Refer, Table_Insert. cbn [ref_ Table_new].
  change (Z.to_nat (Table_TableSize table_)) with 8%nat.
  split.
  - intros Hlt. by rewrite lookup_replicate_2 by lia.
  - intros Hge. split.
    + destruct (replicate 8 65535 !! Z.to_nat hash) eqn:Hlookup; [| reflexivity].
      apply lookup_replicate in Hlookup. lia.
    + intros value. rewrite length_replicate. by rewrite bool_decide_eq_false_2 by lia.
Qed.

Lemma Table_new_Refer_witness :
  0 ≤ 3 ∧ Table_Refer (Table_new table_ 1) 3 = Done 0xFFFF.
Proof.
  assert (0 ≤ 3) as H by lia. split; [exact H |].
  apply (proj1 (proj2 (Table_new_Refer 1 3 H))). lia.
Defined.

(** X7. The hash of any value is below 8, so it is inside a table of 8
    entries and [Refer] is defined on it; with a hash bit of 1 it is bits
    1..3 of the value.  The sub-codeword [Get] makes of a hash carries the
    tag of [Table] and of no other kind, and [Set] gives the hash back. *)
Theorem Table_Hash_path (t : Table) (value : Z)
  (Hlen : length (ref_ t) = 8%nat) (Hvalue : 0 ≤ value) (Hbit : hashBit_ t = 1) :
  let hash := Table_Hash table_ t value in
  0 ≤ hash < 8
  ∧ hash = (value / 2) mod 8
  ∧ (∃ v, Table_Refer t hash = Done v)
  ∧ Table_CheckHeader table_ (Table_Get table_ hash) = true
  ∧ RunLength_CheckHeader runLength_ (Table_Get table_ hash) = false
  ∧ Differential_CheckHeader differential_ (Table_Get table_ hash) = false
  ∧ Table_Set table_ (Table_Get table_ hash) = hash.
Proof.
  intros hash. pose proof (Table_Hash_range t value) as Hrange. fold hash in Hrange.
  pose proof (Table_Get_range hash Hrange) as Hget.
  split; [exact Hrange |].
  split.
  { unfold hash, Table_Hash. rewrite Hbit. cbn [mask table_].
    rewrite land_7, Z.shiftr_div_pow2 by lia. change (2 ^ 1) with 2.
    unfold to_uint8. zlia. }
  split; [by apply Table_Refer_Done |].
  unfold RunLength_CheckHeader, Table_CheckHeader, Differential_CheckHeader.
  rewrite CheckHeader_runLength, CheckHeader_table, CheckHeader_differential.
  split; [by apply bool_decide_eq_true_2 |].
  split; [apply bool_decide_eq_false_2; lia |].
  split; [apply bool_decide_eq_false_2; lia |].
  by apply Table_Set_Get.
Qed.

Lemma Table_Hash_path_witness :
  length (ref_ (Table_new table_ 1)) = 8%nat ∧ 0 ≤ 0x010A
  ∧ hashBit_ (Table_new table_ 1) = 1
  ∧ Table_Hash table_ (Table_new table_ 1) 0x010A = (0x010A / 2) mod 8.
Proof.
  assert (length (ref_ (Table_new table_ 1)) = 8%nat) as H1 by reflexivity.
  assert (0 ≤ 0x010A) as H2 by lia.
  assert (hashBit_ (Table_new table_ 1) = 1) as H3 by reflexivity.
  split; [exact H1 |]. split; [exact H2 |]. split; [exact H3 |].
  exact (proj1 (proj2 (Table_Hash_path (Table_new table_ 1) 0x010A H1 H2 H3))).
Defined.

(** ** Raw15bit *)

(** X8. A 16-bit word is a literal ([IsValid]) exactly when it is [0x8000]
    or more; [Set] gives its 15 low bits, [Get] of these is a literal with
    the same 15 bits, and it is the word itself when the word is a
    literal. *)
Theorem Raw15bit_words (w : Z) (Hw : 0 ≤ w < 65536) :
  (Raw15bit_IsValid w = true ↔ 0x8000 ≤ w)
  ∧ Raw15bit_Set w = w mod 0x8000
  ∧ Raw15bit_IsValid (Raw15bit_Get (Raw15bit_Set w)) = true
  ∧ Raw15bit_Set (Raw15bit_Get (Raw15bit_Set w)) = Raw15bit_Set w
  ∧ (Raw15bit_IsValid w = true → Raw15bit_Get (Raw15bit_Set w) = w).
Proof.
  assert (Raw15bit_Set w = w mod 0x8000) as Hset.
  { unfold Raw15bit_Set. rewrite Z.land_comm, land_32767. unfold to_uint16. zlia. }
  assert (Raw15bit_IsValid w = true ↔ 0x8000 ≤ w) as Hvalid.
  { rewrite Raw15bit_IsValid_testbit, Z.testbit_true by lia.
    change (2 ^ 15) with 32768. zlia. }
  split; [exact Hvalid |]. split; [exact Hset |].
  split; [by rewrite Raw15bit_IsValid_testbit, Raw15bit_Get_bit15 |].
  split; [apply Raw15bit_Set_Get; rewrite Hset; zlia |].
  intros Hlit. apply Hvalid in Hlit.
  rewrite Raw15bit_Get_value by (rewrite Hset; zlia). rewrite Hset. zlia.
Qed.

Lemma Raw15bit_words_witness :
  0 ≤ 0xAAAA < 65536
  ∧ Raw15bit_Set 0xAAAA = 0xAAAA mod 0x8000
  ∧ Raw15bit_Get (Raw15bit_Set 0xAAAA) = 0xAAAA.
Proof.
  assert (0 ≤ 0xAAAA < 65536) as H by lia. split; [exact H |].
  destruct (Raw15bit_words 0xAAAA H) as (_ & Hset & _ & _ & Hget).
  split; [exact Hset | by apply Hget].
Defined.

(** ** Chunker *)

(** X9. [Get] splits a 16-bit word into three fields below 32, and [Set] of
    the three fields is the word without its bit 15: the word itself when it
    is no literal.  [Get] of a word [Set] made of three fields below 32
    gives the fields back. *)
Theorem Chunker_words (w first second third : Z)
  (Hw : 0 ≤ w < 65536)
  (Hfirst : 0 ≤ first ≤ 0x1F) (Hsecond : 0 ≤ second ≤ 0x1F) (Hthird : 0 ≤ third ≤ 0x1F) :
  (∃ a b c,
     Chunker_Get w = (a, b, c)
     ∧ 0 ≤ a ≤ 0x1F ∧ 0 ≤ b ≤ 0x1F ∧ 0 ≤ c ≤ 0x1F
     ∧ Chunker_Set a b c = w mod 0x8000
     ∧ (Raw15bit_IsValid w = false → Chunker_Set a b c = w))
  ∧ Chunker_Get (Chunker_Set first second third) = (first, second, third)
  ∧ 0 ≤ Chunker_Set first second third < 0x8000.
Proof.
  split; [| split; [by apply Chunker_Get_Set | rewrite Chunker_Set_value by done; lia]].
  unfold Chunker_Get. rewrite !land_31, !Z.shiftr_div_pow2 by lia.
  change (2 ^ 5) with 32. change (2 ^ 10) with 1024. unfold to_uint8.
  eexists _, _, _. split; [reflexivity |].
  split; [zlia |]. split; [zlia |]. split; [zlia |].
  assert (Chunker_Set ((w mod 32) mod 256) ((w / 32 mod 32) mod 256) ((w / 1024 mod 32) mod 256)
          = w mod 0x8000) as Hset by (rewrite Chunker_Set_value; zlia).
  split; [exact Hset |]. intros Hpacked. rewrite Hset.
  assert (¬ 0x8000 ≤ w) as Hlow.
  { intros Hhigh. rewrite Raw15bit_IsValid_testbit in Hpacked.
    rewrite <- not_true_iff_false, Z.testbit_true in Hpacked by lia.
    apply Hpacked. change (2 ^ 15) with 32768. zlia. }
  zlia.
Qed.

Lemma Chunker_words_witness :
  0 ≤ 0x5555 < 65536 ∧ 0 ≤ 0x15 ≤ 0x1F ∧ 0 ≤ 0x0A ≤ 0x1F
  ∧ Chunker_Get (Chunker_Set 0x15 0x0A 0x15) = (0x15, 0x0A, 0x15).
Proof.
  assert (0 ≤ 0x5555 < 65536) as H1 by lia. assert (0 ≤ 0x15 ≤ 0x1F) as H2 by lia.
  assert (0 ≤ 0x0A ≤ 0x1F) as H3 by lia.
  split; [exact H1 |]. split; [exact H2 |]. split; [exact H3 |].
  exact (proj1 (proj2 (Chunker_words 0x5555 0x15 0x0A 0x15 H1 H2 H3 H2))).
Defined.

(** ** RunLength *)

(** X10. [RunLength::Get] does not return on a negative length: the
    arithmetic shift keeps the length negative, so no number of iterations
    ends the loop. *)
Theorem RunLength_Get_negative (fuel : nat) (length : Z) (values : list Z)
  (Hnegative : length < 0) :
  RunLength_Get_loop runLength_ fuel length values = Diverges
  ∧ RunLength_Get runLength_ length = Diverges.
Proof.
  assert (∀ fuel length values,
            length < 0 → RunLength_Get_loop runLength_ fuel length values = Diverges) as Hloop.
  { clear. induction fuel as [| fuel IH]; intros length values Hneg;
      cbn [RunLength_Get_loop]; rewrite bool_decide_eq_true_2 by lia; [reflexivity |].
    apply IH. by apply Z.shiftr_neg. }
  split; [by apply Hloop | by apply Hloop].
Qed.

Lemma RunLength_Get_negative_witness :
  -1 < 0 ∧ RunLength_Get runLength_ (-1) = Diverges.
Proof.
  assert (-1 < 0) as H by lia. split; [exact H |].
  exact (proj2 (RunLength_Get_negative 0 (-1) [] H)).
Defined.

Lemma base8_positive n l : base8 n l → l ≠ [] → 0 < n.
Proof. destruct 1; [done | lia]. Qed.

Lemma base8_of_digits values :
  Forall (λ v, 0 ≤ v < 8) values → last values ≠ Some 0 →
  base8 (RunLength_Set runLength_ values) values.
Proof.
  induction 1 as [| d l Hd Hall IH]; intros Hlast; [constructor |].
  assert (base8 (RunLength_Set runLength_ l) l) as Hb.
  { apply IH. destruct l; [done |]. by rewrite last_cons_cons in Hlast. }
  rewrite RunLength_Set_cons, land_7, lor_disjoint by zlia. change (2 ^ 3) with 8.
  rewrite (Z.mod_small d 8) by lia.
  pose proof (base8_length _ _ Hb) as Hlen.
  assert (0 < d + RunLength_Set runLength_ l * 8) as Hpos.
  { destruct l as [| d' l'].
    - change (RunLength_Set runLength_ []) with 0. cbn in Hlast.
      assert (d ≠ 0) by congruence. lia.
    - cbn [length] in Hlen. lia. }
  replace d with ((d + RunLength_Set runLength_ l * 8) mod 8) at 2 by zlia.
  constructor; [exact Hpos |].
  replace ((d + RunLength_Set runLength_ l * 8) / 8) with (RunLength_Set runLength_ l) by zlia.
  exact Hb.
Qed.

(** X11. [Get (Set values)] is [values] for every list of digits below 8
    whose last digit is not zero (the empty list included) and whose value
    an [int] holds, that is, [Set values < 2^31]: such a list has at most
    eleven digits, so [Set] shifts by at most 30 and loses nothing. *)
Theorem RunLength_Get_Set (values : list Z)
  (Hdigits : Forall (λ v, 0 ≤ v < 8) values) (Hlast : last values ≠ Some 0)
  (Hint : RunLength_Set runLength_ values < 2 ^ 31) :
  (length values ≤ 11)%nat
  ∧ 0 ≤ RunLength_Set runLength_ values
  ∧ RunLength_Get runLength_ (RunLength_Set runLength_ values) = Done values.
Proof.
  pose proof (base8_of_digits values Hdigits Hlast) as Hb.
  pose proof (base8_length _ _ Hb) as Hlen.
  split; [by eapply base8_int |]. split; [lia |].
  destruct (RunLength_Get_base8 (RunLength_Set runLength_ values)) as (l & Hget & Hb');
    [lia |].
  rewrite Hget. f_equal. by eapply base8_unique.
Qed.

Lemma RunLength_Get_Set_witness :
  Forall (λ v, 0 ≤ v < 8) [0; 0; 1] ∧ last [0; 0; 1] ≠ Some 0
  ∧ RunLength_Set runLength_ [0; 0; 1] < 2 ^ 31
  ∧ RunLength_Get runLength_ (RunLength_Set runLength_ [0; 0; 1]) = Done [0; 0; 1].
Proof.
  assert (Forall (λ v, 0 ≤ v < 8) [0; 0; 1]) as H1 by (repeat constructor; lia).
  assert (last [0; 0; 1] ≠ Some 0) as H2 by (cbn; congruence).
  assert (RunLength_Set runLength_ [0; 0; 1] < 2 ^ 31) as H3 by reflexivity.
  split; [exact H1 |]. split; [exact H2 |]. split; [exact H3 |].
  exact (proj2 (proj2 (RunLength_Get_Set [0; 0; 1] H1 H2 H3))).
Defined.

Lemma base8_bounds n l :
  base8 n l → 0 < n →
  8 ^ (Z.of_nat (length l) - 1) ≤ n < 8 ^ Z.of_nat (length l).
Proof.
  induction 1 as [| n l Hn Hb IH]; intros Hpos0; [lia |].
  cbn [length]. rewrite Nat2Z.inj_succ.
  replace (Z.succ (Z.of_nat (length l)) - 1) with (Z.of_nat (length l)) by lia.
  rewrite Z.pow_succ_r by lia.
  destruct (decide (n / 8 = 0)) as [Hz | Hnz].
  - rewrite Hz in Hb. apply base8_of_zero in Hb as ->. cbn. zlia.
  - assert (0 < n / 8) as Hpos by zlia. specialize (IH Hpos).
    assert (8 ^ Z.of_nat (length l) = 8 * 8 ^ (Z.of_nat (length l) - 1)) as Hpow.
    { rewrite <- Z.pow_succ_r by (destruct l; [inversion Hb; lia | cbn [length]; lia]).
      f_equal. lia. }
    zlia.
Qed.

(** X12. A run of [length >= 1] costs [floor(log8 length) + 1]
    sub-codewords: the number [k] of elements [Get] returns satisfies
    [8^(k-1) <= length < 8^k]. *)
Theorem RunLength_Get_length (length : Z) (Hlength : 1 ≤ length) :
  ∃ values,
    RunLength_Get runLength_ length = Done values
    ∧ 8 ^ (Z.of_nat (List.length values) - 1) ≤ length < 8 ^ Z.of_nat (List.length values)
    ∧ Z.of_nat (List.length values) ≤ length.
Proof.
  destruct (RunLength_Get_base8 length ltac:(lia)) as (l & Hget & Hb).
  exists l. split; [exact Hget |].
  split; [apply base8_bounds; [done | lia] | by apply base8_length].
Qed.

Lemma RunLength_Get_length_witness :
  1 ≤ 513
  ∧ ∃ values, RunLength_Get runLength_ 513 = Done values
              ∧ 8 ^ (Z.of_nat (length values) - 1) ≤ 513 < 8 ^ Z.of_nat (length values).
Proof.
  assert (1 ≤ 513) as H by lia. split; [exact H |].
  destruct (RunLength_Get_length 513 H) as (values & Hget & Hbounds & _).
  exists values. split; [exact Hget | exact Hbounds].
Defined.

(** ** SpeedFirstRepository and Chunker together *)

Lemma pack_count pending :
  (length pending ≤ 3 * length (pack pending) < length pending + 3)%nat.
Proof.
  induction pending as [pending IH] using (induction_ltof1 _ (@length Z)).
  unfold ltof in IH.
  destruct pending as [| a [| b [| c rest]]]; cbn [pack length]; try lia.
  specialize (IH rest). cbn [length] in IH. lia.
Qed.





(** X14. Sub-codewords pushed with [Set(uint8_t)] are only queued; the
    [Flush] that follows writes them, with those that were pending before,
    as [ceil(n / 3)] containers after the words already written, and leaves
    nothing pending.  A second [Flush] changes nothing. *)
Theorem Set8_then_Flush (r : SpeedFirstRepository) (values : list Z)
  (Hok : repository_ok r)
  (Hroom : counter_ r + Z.of_nat (length (pack (temp_ r ++ values)))
           ≤ Z.of_nat (length (buffer_ r))) :
  let queued := fold_left (λ r value, SpeedFirstRepository_Set8 value r) values r in
  written queued = written r
  ∧ temp_ queued = temp_ r ++ values
  ∧ ∃ r',
      SpeedFirstRepository_Flush queued = Done r'
      ∧ written r' = written r ++ pack (temp_ r ++ values)
      ∧ temp_ r' = [] ∧ tempCounter_ r' = 0
      ∧ (length (temp_ r ++ values)
         ≤ 3 * Z.to_nat (SpeedFirstRepository_GetSize r' - counter_ r)
         < length (temp_ r ++ values) + 3)%nat
      ∧ SpeedFirstRepository_Flush r' = Done r'.
Proof.
  intros queued. unfold queued. rewrite Set8_fold.
  split; [reflexivity |]. split; [reflexivity |].
  destruct Hok as [Hc Htc].
  edestruct SpeedFirstRepository_Flush_spec as (r' & Hflush & Hwr & Ht & Htc' & Hc' & Hlen);
    [| | exists r'; split; [exact Hflush |]].
  { split; cbn; [exact Hc |]. rewrite length_app. lia. }
  { cbn. exact Hroom. }
  cbn in Hwr, Hc', Hlen.
  split; [exact Hwr |]. split; [exact Ht |]. split; [exact Htc' |].
  split.
  { unfold SpeedFirstRepository_GetSize. rewrite Hc'.
    pose proof (pack_count (temp_ r ++ values)). lia. }
  unfold SpeedFirstRepository_Flush. rewrite Htc', Ht.
  change (Z.to_nat 0) with 0%nat. cbn [Flush_loop].
  rewrite bool_decide_eq_false_2 by lia. cbn.
  rewrite bool_decide_eq_false_2 by lia. cbn.
  destruct r' as [b c t tc]. cbn in *. by subst.
Qed.

Lemma Set8_then_Flush_witness :
  repository_ok (SpeedFirstRepository_new 100)
  ∧ ∃ r', SpeedFirstRepository_Flush
            (fold_left (λ r value, SpeedFirstRepository_Set8 value r) [0x1F; 0x1F]
                       (SpeedFirstRepository_new 100)) = Done r'
          ∧ written r' = [0x3FF].
Proof.
  assert (repository_ok (SpeedFirstRepository_new 100)) as Hok
    by (split; [split |]; vm_compute; congruence).
  assert (counter_ (SpeedFirstRepository_new 100)
          + Z.of_nat (length (pack (temp_ (SpeedFirstRepository_new 100) ++ [0x1F; 0x1F])))
          ≤ Z.of_nat (length (buffer_ (SpeedFirstRepository_new 100)))) as Hroom
    by (vm_compute; congruence).
  split; [exact Hok |].
  destruct (Set8_then_Flush _ [0x1F; 0x1F] Hok Hroom) as (_ & _ & r' & Hflush & Hwr & _).
  exists r'. split; [exact Hflush | exact Hwr].
Defined.

Lemma Flush_loop_overflow fuel : ∀ ite r,
  tempCounter_ r = Z.of_nat (length ite) →
  (length ite ≤ fuel)%nat →
  0 ≤ counter_ r ≤ Z.of_nat (length (buffer_ r)) →
  Z.of_nat (length (buffer_ r)) < counter_ r + Z.of_nat (length (pack ite)) →
  Flush_loop fuel ite r = Undefined
  ∨ ∃ ite' r',
      Flush_loop fuel ite r = Done (ite', r')
      ∧ (1 ≤ length ite' < 3)%nat
      ∧ tempCounter_ r' = Z.of_nat (length ite')
      ∧ counter_ r' = Z.of_nat (length (buffer_ r')).
Proof.
  induction fuel as [| fuel IH]; intros ite r Htc Hfuel Hc Hfull.
  - destruct ite; [cbn in Hfull; lia | cbn in Hfuel; lia].
  - destruct ite as [| a [| b [| c rest]]].
    + cbn in Hfull. lia.
    + right. cbn [Flush_loop]. rewrite bool_decide_eq_false_2 by (cbn in Htc; lia).
      eexists _, _. split; [reflexivity |]. cbn in *. repeat split; lia.
    + right. cbn [Flush_loop]. rewrite bool_decide_eq_false_2 by (cbn in Htc; lia).
      eexists _, _. split; [reflexivity |]. cbn in *. repeat split; lia.
    + cbn [Flush_loop]. rewrite bool_decide_eq_true_2 by (cbn in Htc; lia).
      rewrite pack_cons3 in Hfull. cbn [length] in Hfull, Htc, Hfuel.
      destruct (decide (counter_ r < Z.of_nat (length (buffer_ r)))) as [Hfree | Hnone].
      * destruct (buffer_write_Done (Chunker_Set a b c) r)
          as (r1 & Hw & Hwr & Hc1 & Hlen & Ht & Htc1); [lia |].
        rewrite Hw. cbn.
        apply IH; cbn; lia.
      * left. by rewrite buffer_write_full by lia.
Qed.

(** X15. The repository does not grow its buffer.  When the containers of
    the pending sub-codewords do not all fit after the words written,
    [Flush] writes outside the buffer, which is undefined; [Set(uint16_t)]
    does so as soon as they leave no room for the literal. *)
Theorem Repository_overflow (r : SpeedFirstRepository) (value : Z)
  (Hok : repository_ok r)
  (Hfull : Z.of_nat (length (buffer_ r))
           ≤ counter_ r + Z.of_nat (length (pack (temp_ r)))) :
  SpeedFirstRepository_Set16 value r = Undefined
  ∧ (Z.of_nat (length (buffer_ r)) < counter_ r + Z.of_nat (length (pack (temp_ r))) →
     SpeedFirstRepository_Flush r = Undefined).
Proof.
  pose proof Hok as [Hc Htc].
  assert (Z.of_nat (length (buffer_ r)) < counter_ r + Z.of_nat (length (pack (temp_ r))) →
          SpeedFirstRepository_Flush r = Undefined) as Hflush.
  { intros Hover. unfold SpeedFirstRepository_Flush.
    destruct (Flush_loop_overflow (Z.to_nat (tempCounter_ r)) (temp_ r) r)
      as [-> | (ite' & r1 & -> & Hlen & Htc1 & Hc1)]; try lia; [reflexivity |].
    cbn. rewrite bool_decide_eq_true_2 by lia. rewrite Htc1, Nat2Z.id.
    destruct ite' as [| a [| b [| c rest]]]; cbn [length] in Hlen; try lia.
    - rewrite Flush_fill_one. cbn. by rewrite buffer_write_full by (cbn; lia).
    - rewrite Flush_fill_two. cbn. by rewrite buffer_write_full by (cbn; lia). }
  split; [| exact Hflush].
  unfold SpeedFirstRepository_Set16. case_bool_decide as Hpending.
  - destruct (decide (Z.of_nat (length (buffer_ r))
                      < counter_ r + Z.of_nat (length (pack (temp_ r))))) as [Hover | Hexact].
    + by rewrite Hflush.
    + destruct (SpeedFirstRepository_Flush_spec r Hok)
        as (r1 & -> & _ & _ & _ & Hc1 & Hlen1); [lia |].
      cbn. apply buffer_write_full. lia.
  - cbn. destruct (temp_ r) as [| a l]; [| cbn in Htc; lia].
    cbn in Hfull. apply buffer_write_full. lia.
Qed.

Lemma Repository_overflow_witness :
  repository_ok (SpeedFirstRepository_new 0)
  ∧ SpeedFirstRepository_Set16 0x8001 (SpeedFirstRepository_new 0) = Undefined.
Proof.
  assert (repository_ok (SpeedFirstRepository_new 0)) as Hok
    by (split; [split |]; vm_compute; congruence).
  assert (Z.of_nat (length (buffer_ (SpeedFirstRepository_new 0)))
          ≤ counter_ (SpeedFirstRepository_new 0)
            + Z.of_nat (length (pack (temp_ (SpeedFirstRepository_new 0))))) as Hfull
    by (vm_compute; congruence).
  split; [exact Hok |].
  exact (proj1 (Repository_overflow _ 0x8001 Hok Hfull)).
Defined.

(** ** The decoder on any stream *)

Lemma Set16_full value r :
  repository_ok r → temp_ r = [] →
  Z.of_nat (length (buffer_ r)) ≤ counter_ r →
  SpeedFirstRepository_Set16 value r = Undefined.
Proof.
  intros [Hc Htc] Htemp Hfull. unfold SpeedFirstRepository_Set16.
  rewrite Htemp in Htc. cbn in Htc.
  rewrite bool_decide_eq_false_2 by lia. cbn. by apply buffer_write_full.
Qed.

Lemma Set16_times_over n : ∀ value r,
  repository_ok r → temp_ r = [] →
  Z.of_nat (length (buffer_ r)) < counter_ r + Z.of_nat n →
  Set16_times n value r = Undefined.
Proof.
  induction n as [| n IH]; intros value r Hok Htemp Hover.
  - destruct Hok as [Hc _]. lia.
  - cbn [Set16_times].
    destruct (decide (counter_ r < Z.of_nat (length (buffer_ r)))) as [Hfree | Hnone].
    + destruct (Set16_empty value r Hok Htemp Hfree) as (r1 & -> & Hwr & Hok1 & Ht1 & Hlen1).
      cbn. apply IH; [done | done |].
      pose proof (written_length r Hok) as Hl. pose proof (written_length r1 Hok1) as Hl1.
      rewrite Hwr, length_app in Hl1. cbn in Hl1. rewrite Hlen1. lia.
    + by rewrite Set16_full by (done || lia).
Qed.

Lemma Decoder_fits st :
  Decoder_ok st →
  (length (d_output (Decoder_view st)) ≤ length (buffer_ (dec_repository st)))%nat.
Proof.
  intros Hok. pose proof (decoded_length st Hok) as Hl.
  destruct Hok as ([Hc _] & _). cbn. lia.
Qed.

Lemma Decoder_flush_run_over st :
  Decoder_ok st →
  (length (buffer_ (dec_repository st))
   < length (d_output (view_flush_run (Decoder_view st))))%nat →
  Decoder_flush_run st = Undefined.
Proof.
  intros Hok Hover. pose proof (Decoder_fits st Hok) as Hfits.
  pose proof (decoded_length st Hok) as Hl.
  destruct Hok as (Hrepo & Htemp & Href).
  unfold Decoder_flush_run, view_flush_run in *. cbn in Hover, Hfits |- *.
  destruct (decide (0 < length (dec_runLengthValues st))%nat) as [Hpending | Hpending].
  - rewrite bool_decide_eq_true_2 in Hover |- * by done.
    cbn in Hover. rewrite length_app, length_replicate in Hover.
    rewrite Set16_times_over; [reflexivity | done | done | lia].
  - rewrite bool_decide_eq_false_2 in Hover by done. cbn in Hover. lia.
Qed.

(** A step of the decoder whose samples do not fit is undefined, and one
    whose samples fit is the step on the view. *)
Lemma Decoder_leftover_over value st :
  Decoder_ok st →
  (length (buffer_ (dec_repository st))
   < length (d_output (view_leftover value (Decoder_view st))))%nat →
  Decoder_leftover value st = Undefined.
Proof.
  intros Hok Hover. pose proof (Decoder_fits st Hok) as Hfits.
  destruct (decide (0 ≤ value < 8)) as [Hrl | Hrl].
  { rewrite view_leftover_run in Hover by done. cbn in Hover, Hfits. lia. }
  destruct (decide (length (buffer_ (dec_repository st))
                    < length (d_output (view_flush_run (Decoder_view st))))%nat)
    as [Hflush | Hflush].
  { apply (Decoder_flush_run_over st Hok) in Hflush.
    destruct (decide (16 ≤ value < 32)); [| destruct (decide (8 ≤ value < 16))].
    - by rewrite Decoder_leftover_differential, Hflush.
    - by rewrite Decoder_leftover_table, Hflush.
    - by rewrite Decoder_leftover_other by lia. }
  destruct (Decoder_flush_run_spec st Hok) as (st1 & Hrun & Hview & Hok1 & Hframe); [lia |].
  destruct Hframe as (Hlen & _ & _).
  pose proof (decoded_length st1 Hok1) as Hl.
  rewrite <- Hlen in Hover.
  assert (length (d_output (view_flush_run (Decoder_view st))) = length (decoded st1)) as Hout
    by (by rewrite <- Hview).
  destruct Hok1 as (Hrepo & Htemp & Href).
  destruct (decide (16 ≤ value < 32)); [| destruct (decide (8 ≤ value < 16))].
  - rewrite Decoder_leftover_differential, Hrun by done. cbn.
    rewrite view_leftover_differential in Hover by done. cbn in Hover.
    rewrite length_app, Hout in Hover. cbn in Hover.
    rewrite Set16_full; [reflexivity | done | done | lia].
  - rewrite Decoder_leftover_table, Hrun by done. cbn.
    rewrite view_leftover_table in Hover by done. cbn in Hover.
    rewrite length_app, Hout in Hover. cbn in Hover.
    rewrite (Table_Refer_at _ _ Href (Table_Set_range value)). cbn.
    rewrite Set16_full; [reflexivity | done | done | lia].
  - rewrite view_leftover_other in Hover by lia. lia.
Qed.

Lemma Decoder_literal_over value st :
  Decoder_ok st →
  (length (buffer_ (dec_repository st))
   < length (d_output (view_literal value (Decoder_view st))))%nat →
  Decoder_literal value st = Undefined.
Proof.
  intros Hok Hover. unfold Decoder_literal.
  destruct (decide (length (buffer_ (dec_repository st))
                    < length (d_output (view_flush_run (Decoder_view st))))%nat)
    as [Hflush | Hflush].
  { by rewrite (Decoder_flush_run_over st Hok Hflush). }
  destruct (Decoder_flush_run_spec st Hok) as (st1 & -> & Hview & Hok1 & Hframe); [lia |].
  destruct Hframe as (Hlen & _ & _).
  pose proof (decoded_length st1 Hok1) as Hl.
  rewrite <- Hlen in Hover.
  assert (length (d_output (view_flush_run (Decoder_view st))) = length (decoded st1)) as Hout
    by (by rewrite <- Hview).
  destruct Hok1 as (Hrepo & Htemp & Href).
  unfold view_literal in Hover. cbn in Hover. rewrite length_app, Hout in Hover.
  cbn in Hover |- *.
  rewrite (Table_Insert_Done _ _ _ Href (Table_Hash_range _ _)). cbn.
  rewrite Set16_full; [reflexivity | done | done | lia].
Qed.

Lemma Decoder_loop_over fuel : ∀ buffer st,
  Decoder_ok st →
  0 ≤ dec_counter st ≤ Z.of_nat (length buffer) →
  (4 * (length buffer - Z.to_nat (dec_counter st)) + length (dec_leftovers st) ≤ fuel)%nat →
  (length (buffer_ (dec_repository st))
   < length (d_output (view_words (drop (Z.to_nat (dec_counter st)) buffer)
                         (view_leftovers (dec_leftovers st) (Decoder_view st)))))%nat →
  Decoder_loop fuel buffer st = Undefined.
Proof.
  induction fuel as [| fuel IH]; intros buffer st Hok Hcounter Hfuel Hover.
  - pose proof (Decoder_fits st Hok) as Hfits.
    destruct (dec_leftovers st) as [| value leftovers] eqn:Hleft; [| cbn in Hfuel; lia].
    rewrite drop_ge in Hover by lia. cbn in Hover, Hfits. lia.
  - cbn [Decoder_loop].
    destruct (dec_leftovers st) as [| value leftovers] eqn:Hleft.
    + destruct (decide (dec_counter st < Z.of_nat (length buffer))) as [Hmore | Hend].
      2: { pose proof (Decoder_fits st Hok) as Hfits.
           rewrite drop_ge in Hover by lia. cbn in Hover, Hfits. lia. }
      rewrite bool_decide_eq_true_2 by done. cbn [orb].
      unfold Decoder_body. rewrite Hleft.
      destruct (lookup_lt_is_Some_2 buffer (Z.to_nat (dec_counter st))) as [value Hvalue];
        [lia |].
      rewrite Hvalue. rewrite (drop_S _ _ _ Hvalue) in Hover.
      cbn [view_leftovers view_words fold_left] in Hover.
      fold (view_words (drop (S (Z.to_nat (dec_counter st))) buffer)) in Hover.
      set (st0 := {| dec_counter := dec_counter st + 1; dec_previous := dec_previous st;
                     dec_leftovers := []; dec_runLengthValues := dec_runLengthValues st;
                     dec_table := dec_table st; dec_repository := dec_repository st |}).
      assert (Decoder_ok st0) as Hok0 by exact Hok.
      unfold view_word in Hover.
      destruct (Raw15bit_IsValid value).
      * destruct (decide (length (buffer_ (dec_repository st0))
                          < length (d_output (view_literal value (Decoder_view st0))))%nat)
          as [Hstep | Hstep].
        { by rewrite (Decoder_literal_over value st0 Hok0 Hstep). }
        destruct (Decoder_literal_spec value st0 Hok0)
          as (st1 & -> & Hview & Hok1 & Hlen & Hc1 & Hl1); [lia |].
        cbn. apply IH; [exact Hok1 | rewrite Hc1; cbn; lia | rewrite Hc1, Hl1; cbn; lia |].
        rewrite Hc1, Hl1, Hview, Hlen. cbn.
        replace (Z.to_nat (dec_counter st + 1)) with (S (Z.to_nat (dec_counter st))) by lia.
        exact Hover.
      * destruct (Chunker_Get value) as [[first second] third]. cbn.
        apply IH; [exact Hok | cbn; lia | cbn; lia |].
        cbn [dec_counter dec_leftovers dec_repository].
        replace (Z.to_nat (dec_counter st + 1)) with (S (Z.to_nat (dec_counter st))) by lia.
        exact Hover.
    + rewrite (bool_decide_eq_true_2 (0 < _)%nat) by (cbn; lia). rewrite orb_true_r.
      unfold Decoder_body. rewrite Hleft.
      set (st0 := {| dec_counter := dec_counter st; dec_previous := dec_previous st;
                     dec_leftovers := leftovers; dec_runLengthValues := dec_runLengthValues st;
                     dec_table := dec_table st; dec_repository := dec_repository st |}).
      assert (Decoder_ok st0) as Hok0 by exact Hok.
      cbn [view_leftovers fold_left] in Hover.
      fold (view_leftovers leftovers) in Hover.
      destruct (decide (length (buffer_ (dec_repository st0))
                        < length (d_output (view_leftover value (Decoder_view st0))))%nat)
        as [Hstep | Hstep].
      { by rewrite (Decoder_leftover_over value st0 Hok0 Hstep). }
      destruct (Decoder_leftover_spec value st0 Hok0)
        as (st1 & -> & Hview & Hok1 & Hlen & Hc1 & Hl1); [lia |].
      cbn. apply IH; [exact Hok1 | rewrite Hc1; cbn; lia
                      | rewrite Hc1, Hl1; cbn in Hfuel |- *; lia |].
      rewrite Hc1, Hl1, Hview, Hlen. exact Hover.
Qed.

(** The constructor of the decoder when the samples do not fit. *)
Lemma QOI15Decoder_over buffer outputSize :
  (Z.to_nat outputSize < length (Decoder_samples buffer))%nat →
  QOI15Decoder buffer outputSize = Undefined.
Proof.
  intros Hover. unfold QOI15Decoder, Decoder_samples in *.
  destruct (decide (Z.to_nat outputSize
                    < length (d_output (view_words buffer view_init)))%nat) as [Hloop | Hloop].
  - rewrite Decoder_loop_over; [reflexivity | apply Decoder_init_ok | cbn; lia | cbn; lia |].
    cbn. rewrite length_replicate. exact Hloop.
  - destruct (Decoder_loop_complete buffer outputSize) as (st1 & -> & Hview & Hok1 & Hlen1);
      [lia |].
    cbn. apply Decoder_flush_run_over; [exact Hok1 |].
    rewrite Hview, Hlen1. exact Hover.
Qed.

(** X16. The constructor of the decoder ends on every stream, well-formed
    or not.  For an [outputSize] of an [int]: it completes when the samples
    the stream decodes to number at most [outputSize], and then returns
    exactly these samples; when there are more, and fewer than [2^31] (so
    that every run of the stream has a length the [int] of
    [RunLength::Set] holds), it writes outside the buffer of its
    repository, which is undefined. *)
Theorem QOI15Decoder_total (buffer : list Z) (outputSize : Z)
  (HoutputSize : 0 ≤ outputSize < 2 ^ 31) :
  QOI15Decoder buffer outputSize ≠ Diverges
  ∧ (Z.of_nat (length (Decoder_samples buffer)) ≤ outputSize →
     ∃ st, QOI15Decoder buffer outputSize = Done st
           ∧ decoded st = Decoder_samples buffer)
  ∧ (outputSize < Z.of_nat (length (Decoder_samples buffer)) < 2 ^ 31 →
     QOI15Decoder buffer outputSize = Undefined).
Proof.
  assert (Z.of_nat (length (Decoder_samples buffer)) ≤ outputSize →
          ∃ st, QOI15Decoder buffer outputSize = Done st
                ∧ decoded st = Decoder_samples buffer) as Hfits.
  { intros Hle. destruct (QOI15Decoder_spec buffer outputSize) as (st & Hdec & Hout & _);
      [lia |]. by exists st. }
  assert (outputSize < Z.of_nat (length (Decoder_samples buffer)) →
          QOI15Decoder buffer outputSize = Undefined) as Hover.
  { intros Hlt. apply QOI15Decoder_over. lia. }
  split; [| split; [exact Hfits | intros [Hlt _]; by apply Hover]].
  destruct (decide (Z.of_nat (length (Decoder_samples buffer)) ≤ outputSize)) as [Hle | Hgt].
  - destruct (Hfits Hle) as (st & -> & _). discriminate.
  - rewrite Hover by lia. discriminate.
Qed.

Lemma QOI15Decoder_total_witness :
  0 ≤ 1 < 2 ^ 31 ∧ QOI15Decoder [0x8005; 0x8007] 1 = Undefined.
Proof.
  assert (0 ≤ 1 < 2 ^ 31) as H by (split; [lia | reflexivity]).
  split; [exact H |].
  apply (proj2 (proj2 (QOI15Decoder_total [0x8005; 0x8007] 1 H))).
  vm_compute. split; reflexivity.
Defined.

Lemma view_flush_run_output d :
  d_output (view_flush_run d)
  = d_output d ++ replicate (Z.to_nat (RunLength_Set runLength_ (d_runLengthValues d)))
                            (BitShifter_Set 1 (d_previous d)).
Proof.
  unfold view_flush_run. case_bool_decide as Hpending; [reflexivity |].
  destruct (d_runLengthValues d); [| cbn in Hpending; lia].
  cbn. by rewrite app_nil_r.
Qed.

Lemma view_words_zeros k : ∀ d,
  view_words (replicate k 0) d
  = {| d_previous := d_previous d; d_table := d_table d;
       d_runLengthValues := d_runLengthValues d ++ replicate (3 * k) 0;
       d_output := d_output d |}.
Proof.
  induction k as [| k IH]; intros d.
  - cbn. rewrite app_nil_r. by destruct d.
  - cbn [replicate view_words fold_left]. fold (view_words (replicate k 0)).
    change (view_word 0 d) with (view_leftovers [0; 0; 0] d).
    rewrite IH, view_leftovers_run by (repeat constructor; lia).
    cbn [d_previous d_table d_runLengthValues d_output].
    replace (3 * S k)%nat with (3 + 3 * k)%nat by lia.
    rewrite replicate_add, <- app_assoc. reflexivity.
Qed.

(** X17. Packed containers that are zero, appended to any stream, add no
    sample: their sub-codewords are run digits of value 0, which leave the
    length of a pending run as it is and start no run of their own. *)
Theorem Decoder_trailing_zeros (buffer : list Z) (k : nat) (outputSize : Z)
  (Hfits : Z.of_nat (length (Decoder_samples buffer)) ≤ outputSize) :
  Decoder_samples (buffer ++ replicate k 0) = Decoder_samples buffer
  ∧ ∃ st st',
      QOI15Decoder buffer outputSize = Done st
      ∧ QOI15Decoder (buffer ++ replicate k 0) outputSize = Done st'
      ∧ decoded st' = decoded st.
Proof.
  assert (Decoder_samples (buffer ++ replicate k 0) = Decoder_samples buffer) as Hsame.
  { unfold Decoder_samples.
    rewrite view_words_app, view_words_zeros, !view_flush_run_output. cbn.
    by rewrite RunLength_Set_padding. }
  split; [exact Hsame |].
  destruct (QOI15Decoder_spec buffer outputSize) as (st & Hdec & Hout & _); [lia |].
  destruct (QOI15Decoder_spec (buffer ++ replicate k 0) outputSize) as (st' & Hdec' & Hout' & _);
    [rewrite Hsame; lia |].
  exists st, st'. split; [exact Hdec |]. split; [exact Hdec' |]. congruence.
Qed.

Lemma Decoder_trailing_zeros_witness :
  Z.of_nat (length (Decoder_samples [0x8005; 0x0003])) ≤ 4
  ∧ Decoder_samples ([0x8005; 0x0003] ++ replicate 2 0) = Decoder_samples [0x8005; 0x0003].
Proof.
  assert (Z.of_nat (length (Decoder_samples [0x8005; 0x0003])) ≤ 4) as H
    by (vm_compute; congruence).
  split; [exact H |].
  exact (proj1 (Decoder_trailing_zeros [0x8005; 0x0003] 2 4 H)).
Defined.

Lemma BitShifter_Set_even value :
  0 ≤ BitShifter_Set 1 value < 65536 ∧ BitShifter_Set 1 value mod 2 = 0.
Proof.
  unfold BitShifter_Set, to_uint16. rewrite Z.shiftl_mul_pow2 by lia.
  change (2 ^ 1) with 2. zlia.
Qed.

Lemma view_flush_run_even d :
  Forall (λ s, 0 ≤ s < 65536 ∧ s mod 2 = 0) (d_output d) →
  Forall (λ s, 0 ≤ s < 65536 ∧ s mod 2 = 0) (d_output (view_flush_run d)).
Proof.
  intros Hall. rewrite view_flush_run_output. apply Forall_app. split; [exact Hall |].
  apply Forall_replicate. apply BitShifter_Set_even.
Qed.

Lemma view_leftover_even value d :
  Forall (λ s, 0 ≤ s < 65536 ∧ s mod 2 = 0) (d_output d) →
  Forall (λ s, 0 ≤ s < 65536 ∧ s mod 2 = 0) (d_output (view_leftover value d)).
Proof.
  intros Hall. pose proof (view_flush_run_even d Hall) as Hflush.
  destruct (decide (0 ≤ value < 8)); [by rewrite view_leftover_run |].
  destruct (decide (16 ≤ value < 32)).
  { rewrite view_leftover_differential by done. cbn. apply Forall_app.
    split; [exact Hflush |]. repeat constructor; apply BitShifter_Set_even. }
  destruct (decide (8 ≤ value < 16)).
  { rewrite view_leftover_table by done. cbn. apply Forall_app.
    split; [exact Hflush |]. repeat constructor; apply BitShifter_Set_even. }
  by rewrite view_leftover_other by lia.
Qed.

Lemma view_leftovers_even leftovers : ∀ d,
  Forall (λ s, 0 ≤ s < 65536 ∧ s mod 2 = 0) (d_output d) →
  Forall (λ s, 0 ≤ s < 65536 ∧ s mod 2 = 0) (d_output (view_leftovers leftovers d)).
Proof.
  induction leftovers as [| value leftovers IH]; intros d Hall; [done |].
  cbn [view_leftovers fold_left]. fold (view_leftovers leftovers).
  apply IH. by apply view_leftover_even.
Qed.

Lemma view_words_even buffer : ∀ d,
  Forall (λ s, 0 ≤ s < 65536 ∧ s mod 2 = 0) (d_output d) →
  Forall (λ s, 0 ≤ s < 65536 ∧ s mod 2 = 0) (d_output (view_words buffer d)).
Proof.
  induction buffer as [| value buffer IH]; intros d Hall; [done |].
  cbn [view_words fold_left]. fold (view_words buffer). apply IH.
  unfold view_word. destruct (Raw15bit_IsValid value).
  - unfold view_literal. cbn. apply Forall_app.
    split; [by apply view_flush_run_even |]. repeat constructor; apply BitShifter_Set_even.
  - destruct (Chunker_Get value) as [[first second] third]. by apply view_leftovers_even.
Qed.

(** X18. Whatever the stream, every sample the decoder returns is a 16-bit
    value with a clear low bit. *)
Theorem Decoder_output_even (buffer : list Z) (outputSize : Z) (st : DecoderState)
  (HoutputSize : 0 ≤ outputSize)
  (Hdone : QOI15Decoder buffer outputSize = Done st) :
  Forall (λ s, 0 ≤ s < 65536 ∧ Z.land s 1 = 0) (decoded st).
Proof.
  assert (decoded st = Decoder_samples buffer) as ->.
  { destruct (decide (Z.to_nat outputSize < length (Decoder_samples buffer))%nat) as [Hover | Hfits].
    - rewrite (QOI15Decoder_over _ _ Hover) in Hdone. discriminate.
    - destruct (QOI15Decoder_spec buffer outputSize) as (st' & Hdec & Hout & _); [lia |].
      congruence. }
  eapply Forall_impl.
  - apply view_flush_run_even, view_words_even. constructor.
  - cbn. intros s [Hrange Heven]. split; [exact Hrange |].
    change 1 with (Z.ones 1). rewrite Z.land_ones by lia. exact Heven.
Qed.

Lemma Decoder_output_even_witness :
  0 ≤ 3
  ∧ ∃ st, QOI15Decoder [0x8005; 0x001F] 3 = Done st
          ∧ Forall (λ s, 0 ≤ s < 65536 ∧ Z.land s 1 = 0) (decoded st).
Proof.
  assert (0 ≤ 3) as H by lia. split; [exact H |].
  eexists. split; [vm_compute; reflexivity |].
  eapply (Decoder_output_even [0x8005; 0x001F] 3 _ H). vm_compute. reflexivity.
Defined.

(** ** The encoder with any shift *)

Lemma reconstructed_value shift sample :
  1 ≤ shift → 0 ≤ sample < 65536 →
  reconstructed shift sample = 2 * (sample / 2 ^ shift).
Proof.
  intros Hshift Hsample.
  pose proof (BitShifter_Get_range shift sample Hshift Hsample) as Hrange.
  unfold reconstructed, BitShifter_Set. unfold BitShifter_Get, to_uint16 in *.
  rewrite Z.shiftr_div_pow2 in * by lia.
  assert (0 < 2 ^ shift) as Hpow by (apply Z.pow_pos_nonneg; lia).
  assert (0 ≤ sample / 2 ^ shift ≤ sample) as Hq.
  { split; [apply Z.div_pos; lia |]. apply Z.div_le_upper_bound; nia. }
  rewrite (Z.mod_small (sample / 2 ^ shift)) in * by lia.
  rewrite Z.shiftl_mul_pow2 by lia. change (2 ^ 1) with 2.
  rewrite Z.mod_small by lia. lia.
Qed.

(** X19. The decoder shifts by 1 whatever shift the encoder was built with.
    For every shift of at least 1 the decoder completes on the output of the
    encoder with as many samples as were encoded, and sample [i] is
    [(Y[i] >> shift) << 1]: the [shift] low bits are lost and, for a shift
    other than 1, the remaining bits are not back in their place. *)
Theorem QOI15_roundtrip_shift (shift : Z) (Y : list Z)
  (Hshift : 1 ≤ shift) (HY : Forall (λ y, 0 ≤ y < 65536) Y) :
  ∃ enc dec,
    QOI15Encoder shift Y = Done enc
    ∧ QOI15Decoder (encoded enc) (Z.of_nat (length Y)) = Done dec
    ∧ decoded dec = (λ y, Z.shiftl (Z.shiftr y shift) 1) <$> Y.
Proof.
  destruct (Decoder_samples_encoded shift Y Hshift HY) as (enc & Henc & Hsamples & _).
  destruct (QOI15Decoder_spec (encoded enc) (Z.of_nat (length Y)))
    as (dec & Hdec & Hout & _).
  { rewrite Hsamples, length_fmap. lia. }
  exists enc, dec. split; [exact Henc |]. split; [exact Hdec |].
  rewrite Hout, Hsamples. clear -Hshift HY.
  induction HY as [| y Y Hy HY IH]; [reflexivity |].
  cbn. rewrite IH. f_equal.
  rewrite reconstructed_value, Z.shiftr_div_pow2, Z.shiftl_mul_pow2 by lia.
  change (2 ^ 1) with 2. lia.
Qed.

Lemma QOI15_roundtrip_shift_witness :
  1 ≤ 6 ∧ Forall (λ y, 0 ≤ y < 65536) [0x1234; 0x1235; 0xFFFF]
  ∧ ∃ enc dec,
      QOI15Encoder 6 [0x1234; 0x1235; 0xFFFF] = Done enc
      ∧ QOI15Decoder (encoded enc) 3 = Done dec
      ∧ decoded dec = (λ y, Z.shiftl (Z.shiftr y 6) 1) <$> [0x1234; 0x1235; 0xFFFF].
Proof.
  assert (1 ≤ 6) as H1 by lia.
  assert (Forall (λ y, 0 ≤ y < 65536) [0x1234; 0x1235; 0xFFFF]) as H2
    by (repeat constructor; lia).
  split; [exact H1 |]. split; [exact H2 |].
  exact (QOI15_roundtrip_shift 6 [0x1234; 0x1235; 0xFFFF] H1 H2).
Defined.

Lemma Encoder_body_shifted shift st sample sample' :
  BitShifter_Get shift sample = BitShifter_Get shift sample' →
  Encoder_body shift st sample = Encoder_body shift st sample'.
Proof. intros Heq. unfold Encoder_body. by rewrite Heq. Qed.

(** X20. The encoder reads a sample through [BitShifter::Get] only: two
    inputs whose samples agree after the downshift (they differ in the
    [shift] low bits at most) are encoded alike. *)
Theorem Encoder_ignores_low_bits (shift : Z) (Y Y' : list Z)
  (Hsame : BitShifter_Get shift <$> Y = BitShifter_Get shift <$> Y') :
  QOI15Encoder shift Y = QOI15Encoder shift Y'.
Proof.
  assert (length Y = length Y') as Hlen
    by (apply (f_equal length) in Hsame; by rewrite !length_fmap in Hsame).
  unfold QOI15Encoder. rewrite Hlen. f_equal.
  generalize (Encoder_init (Z.of_nat (length Y'))). clear Hlen.
  revert Y' Hsame. unfold Encoder_loop.
  induction Y as [| y Y IH]; intros [| y' Y'] Hsame st; try discriminate; [reflexivity |].
  cbn in Hsame. injection Hsame as Hy Hsame.
  cbn [for_each]. rewrite (Encoder_body_shifted shift st y y' Hy).
  destruct (Encoder_body shift st y') as [st' | |]; cbn; [by apply IH | done | done].
Qed.

Lemma Encoder_ignores_low_bits_witness :
  BitShifter_Get 1 <$> [0x1234; 0x0101] = BitShifter_Get 1 <$> [0x1235; 0x0100]
  ∧ QOI15Encoder 1 [0x1234; 0x0101] = QOI15Encoder 1 [0x1235; 0x0100].
Proof.
  assert (BitShifter_Get 1 <$> [0x1234; 0x0101] = BitShifter_Get 1 <$> [0x1235; 0x0100]) as H
    by reflexivity.
  split; [exact H |].
  exact (Encoder_ignores_low_bits 1 [0x1234; 0x0101] [0x1235; 0x0100] H).
Defined.

(** The first iteration of the encoder, on the view. *)
Lemma Encoder_first_step shift sample v' :
  1 ≤ shift → 0 ≤ sample < 65536 →
  Encoder_step shift
    {| v_previous := 0xFFFF; v_runLength := 0; v_table := Table_new table_ 1;
       v_written := []; v_pending := [] |} sample v' →
  v_previous v' = BitShifter_Get shift sample
  ∧ v_runLength v' = 0
  ∧ v_written v' = [Raw15bit_Get (BitShifter_Get shift sample)]
  ∧ v_pending v' = [].
Proof.
  intros Hshift Hsample Hstep.
  pose proof (BitShifter_Get_range shift sample Hshift Hsample) as Hcur.
  destruct Hstep as [Heq
                    | digits current diff Hne Hb Hvalid
                    | digits current diff hash Hne Hb Hinvalid Hrefer
                    | digits referred table' current diff hash Hne Hb Hinvalid Hrefer Hmiss Hins];
    cbn in *.
  - lia.
  - apply Differential_IsValid_iff in Hvalid. unfold diff, Differential_Sub in Hvalid.
    subst current. lia.
  - unfold Table_Refer in Hrefer.
    destruct (ref_ (Table_new table_ 1) !! Z.to_nat hash) as [v |] eqn:Hv; [| discriminate].
    apply Table_new_entries in Hv. injection Hrefer as Hrefer. subst current. lia.
  - apply base8_of_zero in Hb as ->. by repeat split.
Qed.

Lemma Encoder_steps_run shift sample n : ∀ v v',
  v_previous v = BitShifter_Get shift sample →
  Encoder_steps shift v (replicate n sample) v' →
  v' = {| v_previous := v_previous v; v_runLength := v_runLength v + Z.of_nat n;
          v_table := v_table v; v_written := v_written v; v_pending := v_pending v |}.
Proof.
  induction n as [| n IH]; intros v v' Hprev Hsteps.
  - inversion Hsteps; subst. rewrite Z.add_0_r. by destruct v'.
  - cbn [replicate] in Hsteps. inversion Hsteps as [| ? ? v1 ? ? Hstep Hrest]; subst.
    destruct Hstep as [Heq | ? ? ? Hne | ? ? ? ? Hne | ? ? ? ? ? ? Hne]; try done.
    apply IH in Hrest; [| done]. rewrite Hrest. cbn. f_equal. lia.
Qed.

(** X21. A constant input costs one literal and the digits of its run: for
    [n + 1] equal 16-bit samples (and a shift of at least 1) the output is
    the literal of the downshifted sample followed by the containers of
    [RunLength::Get n], that is [1 + ceil(k / 3)] words for the [k] base-8
    digits of [n]. *)
Theorem Encoder_constant_input (shift sample : Z) (n : nat)
  (Hshift : 1 ≤ shift) (Hsample : 0 ≤ sample < 65536) :
  ∃ enc digits,
    QOI15Encoder shift (replicate (S n) sample) = Done enc
    ∧ RunLength_Get runLength_ (Z.of_nat n) = Done digits
    ∧ encoded enc = Raw15bit_Get (BitShifter_Get shift sample) :: pack digits
    ∧ (length digits ≤ 3 * length (pack digits) < length digits + 3)%nat.
Proof.
  destruct (QOI15Encoder_spec shift (replicate (S n) sample))
    as (enc & v & digits & Henc & Hsteps & Hb & Hwr & _).
  rewrite Encoder_init_view in Hsteps. cbn [replicate] in Hsteps.
  inversion Hsteps as [| ? ? v1 ? ? Hstep Hrest]; subst.
  apply Encoder_first_step in Hstep as (Hprev & Hrl & Hwritten & Hpending); [| done | done].
  apply Encoder_steps_run in Hrest; [| done]. subst v. cbn in Hb, Hwr.
  rewrite Hrl, Z.add_0_l in Hb. rewrite Hwritten, Hpending in Hwr. cbn in Hwr.
  destruct (RunLength_Get_base8 (Z.of_nat n) ltac:(lia)) as (digits' & Hget & Hb').
  assert (digits' = digits) as -> by (by eapply base8_unique).
  exists enc, digits. split; [exact Henc |]. split; [exact Hget |]. split; [exact Hwr |].
  apply pack_count.
Qed.

Lemma Encoder_constant_input_witness :
  1 ≤ 1 ∧ 0 ≤ 0xFFFE < 65536
  ∧ ∃ enc digits,
      QOI15Encoder 1 (replicate 513 0xFFFE) = Done enc
      ∧ encoded enc = Raw15bit_Get (BitShifter_Get 1 0xFFFE) :: pack digits.
Proof.
  assert (1 ≤ 1) as H1 by lia. assert (0 ≤ 0xFFFE < 65536) as H2 by lia.
  split; [exact H1 |]. split; [exact H2 |].
  destruct (Encoder_constant_input 1 0xFFFE 512 H1 H2) as (enc & digits & Henc & _ & Hwr & _).
  exists enc, digits. split; [exact Henc | exact Hwr].
Defined.

(** X22. The output of the encoder on a non-empty 16-bit input (with a shift
    of at least 1) begins with the literal of the first downshifted sample,
    from which the decoder sets its [previous] and its table. *)
Theorem Encoder_first_word (shift sample : Z) (rest : list Z)
  (Hshift : 1 ≤ shift) (Hsample : 0 ≤ sample < 65536) :
  ∃ enc,
    QOI15Encoder shift (sample :: rest) = Done enc
    ∧ encoded enc !! 0%nat = Some (Raw15bit_Get (BitShifter_Get shift sample))
    ∧ Raw15bit_IsValid (Raw15bit_Get (BitShifter_Get shift sample)) = true
    ∧ Raw15bit_Set (Raw15bit_Get (BitShifter_Get shift sample)) = BitShifter_Get shift sample.
Proof.
  destruct (QOI15Encoder_spec shift (sample :: rest))
    as (enc & v & digits & Henc & Hsteps & Hb & Hwr & _).
  rewrite Encoder_init_view in Hsteps.
  inversion Hsteps as [| ? ? v1 ? ? Hstep Hrest]; subst.
  apply Encoder_first_step in Hstep as (_ & _ & Hwritten & _); [| done | done].
  apply Encoder_steps_written_prefix in Hrest as [more Hmore].
  pose proof (BitShifter_Get_range shift sample Hshift Hsample) as Hcur.
  exists enc. split; [exact Henc |].
  split; [by rewrite Hwr, Hmore, Hwritten |].
  split; [by rewrite Raw15bit_IsValid_testbit, Raw15bit_Get_bit15 |].
  apply Raw15bit_Set_Get. lia.
Qed.

Lemma Encoder_first_word_witness :
  1 ≤ 1 ∧ 0 ≤ 0x1234 < 65536
  ∧ ∃ enc, QOI15Encoder 1 [0x1234; 0x1236] = Done enc
           ∧ encoded enc !! 0%nat = Some (Raw15bit_Get (BitShifter_Get 1 0x1234)).
Proof.
  assert (1 ≤ 1) as H1 by lia. assert (0 ≤ 0x1234 < 65536) as H2 by lia.
  split; [exact H1 |]. split; [exact H2 |].
  destruct (Encoder_first_word 1 0x1234 [0x1236] H1 H2) as (enc & Henc & Hfirst & _).
  exists enc. split; [exact Henc | exact Hfirst].
Defined.

(** X23. When the constructor of the encoder returns, nothing is left
    behind: the run counter is 0 and no sub-codeword is pending, so [Get]
    gives the whole stream and a further [Flush] changes nothing. *)
Theorem Encoder_nothing_pending (shift : Z) (buffer : list Z) :
  ∃ enc,
    QOI15Encoder shift buffer = Done enc
    ∧ enc_runLength enc = 0
    ∧ temp_ (enc_repository enc) = []
    ∧ tempCounter_ (enc_repository enc) = 0
    ∧ SpeedFirstRepository_Flush (enc_repository enc) = Done (enc_repository enc).
Proof.
  unfold QOI15Encoder.
  destruct (Encoder_loop_steps shift buffer (Encoder_init (Z.of_nat (length buffer))))
    as (st1 & -> & Hsteps & Hok1 & Hlen1).
  { apply Encoder_init_ok. }
  { rewrite Encoder_init_view. unfold Encoder_load. cbn. rewrite length_replicate. lia. }
  cbn. destruct Hok1 as (Hrepo & Href & Hrl). pose proof Hrepo as [Hc Htc].
  destruct (Encoder_flush_run_spec st1 Hrl) as (digits & Hb & ->). cbn.
  destruct (Encoder_steps_load _ _ _ _ Hsteps) as [Hload _]; [cbn; lia |].
  rewrite Encoder_init_view in Hload. unfold Encoder_load in Hload. cbn in Hload.
  unfold encoded in Hload. rewrite written_length in Hload by done.
  pose proof (pack_length (temp_ (enc_repository st1) ++ digits)) as Hpack.
  rewrite length_app in Hpack.
  pose proof (base8_length _ _ Hb) as Hdigits.
  cbn in Hlen1. rewrite length_replicate, Nat2Z.id in Hlen1.
  edestruct SpeedFirstRepository_Flush_spec as (r' & Hflush & Hwr & Ht & Htc' & Hc' & Hlen);
    [| | rewrite Hflush].
  { split; cbn; [exact Hc |]. rewrite length_app. lia. }
  { cbn. lia. }
  cbn. eexists. split; [reflexivity |]. cbn.
  split; [reflexivity |]. split; [exact Ht |]. split; [exact Htc' |].
  unfold SpeedFirstRepository_Flush. rewrite Htc', Ht.
  change (Z.to_nat 0) with 0%nat. cbn [Flush_loop].
  rewrite bool_decide_eq_false_2 by lia. cbn.
  rewrite bool_decide_eq_false_2 by lia. cbn.
  destruct r' as [b c t tc]. cbn in *. by subst.
Qed.

(** ** The worst case *)

Lemma all_raw_step shift consumed v sample v' :
  1 ≤ shift → 0 ≤ sample < 65536 →
  BitShifter_Get shift sample ∉ (BitShifter_Get shift <$> consumed) →
  (∀ p, last consumed = Some p →
        8 < Z.abs (BitShifter_Get shift sample - BitShifter_Get shift p)) →
  Encoder_step shift v sample v' →
  all_raw shift consumed v →
  all_raw shift (consumed ++ [sample]) v'.
Proof.
  intros Hshift Hsample Hnew Hfar Hstep (Hrl & Hpending & Hwritten & Hprev & Htable).
  pose proof (BitShifter_Get_range shift sample Hshift Hsample) as Hcur.
  assert (v_previous v ≠ BitShifter_Get shift sample) as Hne'.
  { rewrite Hprev. destruct (last consumed) as [p |] eqn:Hlast; cbn; [| lia].
    intros Heq. apply Hnew. rewrite <- Heq. apply list_elem_of_fmap_2.
    by apply last_Some_elem_of. }
  assert (Differential_IsValid differential_
            (Differential_Sub (v_previous v) (BitShifter_Get shift sample)) = false) as Hinvalid'.
  { apply not_true_iff_false. rewrite Differential_IsValid_iff. unfold Differential_Sub.
    rewrite Hprev. destruct (last consumed) as [p |] eqn:Hlast; cbn; [| lia].
    specialize (Hfar p eq_refl). lia. }
  destruct Hstep as [Heq
                    | digits current diff Hne Hb Hvalid
                    | digits current diff hash Hne Hb Hinvalid Hrefer
                    | digits referred table' current diff hash Hne Hb Hinvalid Hrefer Hmiss Hins].
  - done.
  - unfold diff, current in Hvalid. congruence.
  - exfalso. unfold Table_Refer in Hrefer.
    destruct (ref_ (v_table v) !! Z.to_nat hash) as [entry |] eqn:Hentry; [| discriminate].
    injection Hrefer as ->. rewrite Forall_lookup in Htable.
    destruct (Htable _ _ Hentry) as [Hsentinel | Hold]; [unfold current in *; lia | done].
  - rewrite Hrl in Hb. apply base8_of_zero in Hb as ->.
    split; [reflexivity |]. split; [reflexivity |]. cbn.
    split; [by rewrite Hpending, Hwritten, fmap_app |].
    split; [by rewrite last_snoc |].
    apply Table_Insert_put in Hins as ->. cbn. rewrite fmap_app.
    apply Forall_insert.
    + eapply Forall_impl; [exact Htable |]. cbn. intros entry [-> | Hold]; [by left |].
      right. apply elem_of_app. by left.
    + right. apply elem_of_app. right. by apply list_elem_of_singleton.
Qed.

Lemma all_raw_steps shift v samples v' :
  1 ≤ shift →
  Encoder_steps shift v samples v' →
  ∀ consumed,
    Forall (λ y, 0 ≤ y < 65536) samples →
    NoDup (BitShifter_Get shift <$> consumed ++ samples) →
    (∀ before a b after,
       consumed ++ samples = before ++ a :: b :: after →
       8 < Z.abs (BitShifter_Get shift b - BitShifter_Get shift a)) →
    all_raw shift consumed v →
    all_raw shift (consumed ++ samples) v'.
Proof.
  intros Hshift. induction 1 as [| v sample v1 samples v2 Hstep _ IH];
    intros consumed Hall Hdistinct Hfar Hraw.
  - by rewrite app_nil_r.
  - apply Forall_cons_1 in Hall as [Hsample Hall].
    replace (consumed ++ sample :: samples) with ((consumed ++ [sample]) ++ samples) in *
      by (by rewrite <- app_assoc).
    apply IH; [exact Hall | exact Hdistinct | exact Hfar |].
    eapply all_raw_step; [done | done | | | exact Hstep | exact Hraw].
    + rewrite !fmap_app in Hdistinct.
      apply NoDup_app in Hdistinct as [Hd _]. apply NoDup_app in Hd as (_ & Hd & _).
      intros Hin. apply (Hd _ Hin). by apply list_elem_of_singleton.
    + intros p Hlast. apply last_Some in Hlast as [l' ->].
      apply (Hfar l' p sample samples). by rewrite <- !app_assoc.
Qed.

(** X24. The bound of one word for each sample is reached.  When the
    downshifted samples of a 16-bit input are pairwise different and
    neighbours are more than 8 apart, no strategy applies but the last:
    every sample is written as a raw literal and the output has the length
    of the input. *)
Theorem Encoder_all_raw (shift : Z) (Y : list Z)
  (Hshift : 1 ≤ shift) (HY : Forall (λ y, 0 ≤ y < 65536) Y)
  (Hdistinct : NoDup (BitShifter_Get shift <$> Y))
  (Hfar : ∀ before a b after,
            Y = before ++ a :: b :: after →
            8 < Z.abs (BitShifter_Get shift b - BitShifter_Get shift a)) :
  ∃ enc,
    QOI15Encoder shift Y = Done enc
    ∧ encoded enc = (λ y, Raw15bit_Get (BitShifter_Get shift y)) <$> Y
    ∧ length (encoded enc) = length Y.
Proof.
  destruct (QOI15Encoder_spec shift Y)
    as (enc & v & digits & Henc & Hsteps & Hb & Hwr & _).
  rewrite Encoder_init_view in Hsteps.
  assert (all_raw shift []
            {| v_previous := 0xFFFF; v_runLength := 0; v_table := Table_new table_ 1;
               v_written := []; v_pending := [] |}) as Hinit.
  { split; [reflexivity |]. split; [reflexivity |]. split; [reflexivity |].
    split; [reflexivity |]. cbn. apply Forall_replicate. by left. }
  pose proof (all_raw_steps shift _ _ _ Hshift Hsteps [] HY Hdistinct Hfar Hinit)
    as (Hrl & Hpending & Hwritten & _).
  cbn [app] in Hwritten.
  rewrite Hrl in Hb. apply base8_of_zero in Hb as ->.
  rewrite Hpending, Hwritten in Hwr. cbn in Hwr. rewrite app_nil_r in Hwr.
  exists enc. split; [exact Henc |]. split; [exact Hwr |]. by rewrite Hwr, length_fmap.
Qed.

Lemma Encoder_all_raw_witness :
  1 ≤ 1 ∧ Forall (λ y, 0 ≤ y < 65536) [0x0100; 0x0200; 0x0316]
  ∧ ∃ enc, QOI15Encoder 1 [0x0100; 0x0200; 0x0316] = Done enc
           ∧ length (encoded enc) = 3%nat.
Proof.
  assert (1 ≤ 1) as H1 by lia.
  assert (Forall (λ y, 0 ≤ y < 65536) [0x0100; 0x0200; 0x0316]) as H2
    by (repeat constructor; lia).
  assert (NoDup (BitShifter_Get 1 <$> [0x0100; 0x0200; 0x0316])) as H3
    by (change (NoDup [128; 256; 395]);
        repeat (apply NoDup_cons_2; [rewrite ?elem_of_cons, elem_of_nil; lia |]);
        apply NoDup_nil_2).
  assert (∀ before a b after,
            [0x0100; 0x0200; 0x0316] = before ++ a :: b :: after →
            8 < Z.abs (BitShifter_Get 1 b - BitShifter_Get 1 a)) as H4.
  { intros [| x [| x' [| x'' before]]] a b after Heq; cbn in Heq;
      try (injection Heq as <- <- <-; vm_compute; reflexivity);
      try (injection Heq as <- <- <- <-; vm_compute; reflexivity).
    - injection Heq as _ _ Heq. discriminate.
    - injection Heq as _ _ _ Heq. by destruct before. }
  split; [exact H1 |]. split; [exact H2 |].
  destruct (Encoder_all_raw 1 [0x0100; 0x0200; 0x0316] H1 H2 H3 H4) as (enc & Henc & _ & Hlen).
  exists enc. split; [exact Henc | exact Hlen].
Defined.

(** ** Streams of literals *)

Lemma view_words_literals words : ∀ d,
  Forall (λ w, Raw15bit_IsValid w = true) words →
  d_runLengthValues d = [] →
  d_runLengthValues (view_words words d) = []
  ∧ d_output (view_words words d)
    = d_output d ++ ((λ w, BitShifter_Set 1 (Raw15bit_Set w)) <$> words).
Proof.
  induction words as [| w words IH]; intros d Hall Hrun.
  - cbn. by rewrite app_nil_r.
  - apply Forall_cons_1 in Hall as [Hw Hall].
    cbn [view_words fold_left]. fold (view_words words).
    assert (view_flush_run d = d) as Hflush
      by (unfold view_flush_run; rewrite Hrun; by rewrite bool_decide_eq_false_2 by (cbn; lia)).
    destruct (IH (view_word w d) Hall) as [Hrun' Hout].
    { unfold view_word. rewrite Hw. unfold view_literal. by rewrite Hflush. }
    split; [exact Hrun' |]. etrans; [exact Hout |]. unfold view_word. rewrite Hw.
    unfold view_literal. rewrite Hflush. cbn. by rewrite <- app_assoc.
Qed.

(** X25. A stream of literal containers decodes word by word: each gives
    one sample, its 15 low bits shifted left by 1, and is inserted into the
    table; no run and no earlier word changes what a literal decodes to. *)
Theorem Decoder_literals (words : list Z)
  (Hliterals : Forall (λ w, Raw15bit_IsValid w = true) words) :
  Decoder_samples words = (λ w, BitShifter_Set 1 (Raw15bit_Set w)) <$> words
  ∧ ∃ st, QOI15Decoder words (Z.of_nat (length words)) = Done st
          ∧ decoded st = (λ w, BitShifter_Set 1 (Raw15bit_Set w)) <$> words
          ∧ dec_table st = table_after words.
Proof.
  destruct (view_words_literals words view_init Hliterals eq_refl) as [Hrun Hout].
  assert (Decoder_samples words = (λ w, BitShifter_Set 1 (Raw15bit_Set w)) <$> words) as Hsamples.
  { unfold Decoder_samples. rewrite view_flush_run_output, Hrun, Hout. cbn.
    by rewrite app_nil_r. }
  split; [exact Hsamples |].
  destruct (QOI15Decoder_spec words (Z.of_nat (length words))) as (st & Hdec & Hdecoded & _ & Htab).
  { rewrite Hsamples, length_fmap. lia. }
  exists st. split; [exact Hdec |]. split; [by rewrite Hdecoded |].
  rewrite Htab. unfold table_after. by rewrite <- (view_words_table _ view_init).
Qed.

Lemma Decoder_literals_witness :
  Forall (λ w, Raw15bit_IsValid w = true) [0x8005; 0xFFFF]
  ∧ Decoder_samples [0x8005; 0xFFFF] = [10; 0xFFFE].
Proof.
  assert (Forall (λ w, Raw15bit_IsValid w = true) [0x8005; 0xFFFF]) as H
    by (repeat constructor).
  split; [exact H |].
  exact (proj1 (Decoder_literals [0x8005; 0xFFFF] H)).
Defined.

(** ** The build with [TABLE_FIRST] *)

(** X26. With [TABLE_FIRST] defined the two classes swap their fields, and
    the sub-codewords still work: [Differential] accepts the deltas with
    [1 <= |d| <= 4] and no others, its sub-codewords are 8..15 and
    [Set (Get d) = d]; the table has 16 entries, the sub-codewords of its
    hashes are 16..31 and [Set (Get hash) = hash]; with the run digits 0..7
    the three tags still split the 5-bit values. *)
Theorem TABLE_FIRST_sub_codewords (d hash : Z)
  (Hd : 1 ≤ Z.abs d ≤ 4) (Hhash : 0 ≤ hash < 16) :
  Differential_IsValid differential_TABLE_FIRST d = true
  ∧ (∀ d', Differential_IsValid differential_TABLE_FIRST d' = true → 1 ≤ Z.abs d' ≤ 4)
  ∧ 8 ≤ Differential_Get differential_TABLE_FIRST d < 16
  ∧ Differential_Set differential_TABLE_FIRST (Differential_Get differential_TABLE_FIRST d) = d
  ∧ length (ref_ (Table_new table_TABLE_FIRST 1)) = 16%nat
  ∧ 0 ≤ Table_Hash table_TABLE_FIRST (Table_new table_TABLE_FIRST 1) hash < 16
  ∧ 16 ≤ Table_Get table_TABLE_FIRST hash < 32
  ∧ Table_Set table_TABLE_FIRST (Table_Get table_TABLE_FIRST hash) = hash
  ∧ (∀ value,
       (Differential_CheckHeader differential_TABLE_FIRST value = true ↔ 8 ≤ value < 16)
       ∧ (Table_CheckHeader table_TABLE_FIRST value = true ↔ 16 ≤ value < 32)).
Proof.
  assert (∀ d', Differential_IsValid differential_TABLE_FIRST d' = true ↔ 1 ≤ Z.abs d' ≤ 4)
    as Hvalid.
  { intros d'. unfold Differential_IsValid, Differential_MaxValue.
    cbn [valueBit differential_TABLE_FIRST]. change (Z.shiftl 1 (3 - 1)) with 4.
    rewrite andb_true_iff, !bool_decide_eq_true. lia. }
  split; [by apply Hvalid |]. split; [intros d'; apply Hvalid |].
  assert (d = -4 ∨ d = -3 ∨ d = -2 ∨ d = -1 ∨ d = 1 ∨ d = 2 ∨ d = 3 ∨ d = 4) as Hdelta by lia.
  split; [repeat (destruct Hdelta as [-> | Hdelta]); try subst d; vm_compute;
          split; congruence |].
  split; [repeat (destruct Hdelta as [-> | Hdelta]); try subst d; reflexivity |].
  split; [reflexivity |].
  split.
  { unfold Table_Hash. cbn [mask table_TABLE_FIRST]. rewrite land_15. unfold to_uint8. zlia. }
  assert (hash = 0 ∨ hash = 1 ∨ hash = 2 ∨ hash = 3 ∨ hash = 4 ∨ hash = 5 ∨ hash = 6
          ∨ hash = 7 ∨ hash = 8 ∨ hash = 9 ∨ hash = 10 ∨ hash = 11 ∨ hash = 12
          ∨ hash = 13 ∨ hash = 14 ∨ hash = 15) as Hcases by lia.
  split; [repeat (destruct Hcases as [-> | Hcases]); try subst hash; vm_compute;
          split; congruence |].
  split; [repeat (destruct Hcases as [-> | Hcases]); try subst hash; reflexivity |].
  intros value. unfold Differential_CheckHeader, Table_CheckHeader, CheckHeader.
  cbn [mask header differential_TABLE_FIRST table_TABLE_FIRST].
  change (Z.lnot 7) with (Z.lnot (Z.ones 3)). change (Z.lnot 15) with (Z.lnot (Z.ones 4)).
  rewrite !land_lnot_ones, !bool_decide_eq_true by lia.
  change (2 ^ 3) with 8. change (2 ^ 4) with 16. split; zlia.
Qed.

Lemma TABLE_FIRST_sub_codewords_witness :
  1 ≤ Z.abs (-3) ≤ 4 ∧ 0 ≤ 13 < 16
  ∧ Differential_Set differential_TABLE_FIRST
      (Differential_Get differential_TABLE_FIRST (-3)) = -3
  ∧ Table_Set table_TABLE_FIRST (Table_Get table_TABLE_FIRST 13) = 13.
Proof.
  assert (1 ≤ Z.abs (-3) ≤ 4) as H1 by (simpl; lia). assert (0 ≤ 13 < 16) as H2 by lia.
  split; [exact H1 |]. split; [exact H2 |].
  destruct (TABLE_FIRST_sub_codewords (-3) 13 H1 H2)
    as (_ & _ & _ & Hdiff & _ & _ & _ & Htable & _).
  split; [exact Hdiff | exact Htable].
Defined.
